(** * simplypipe: a shallow embedding of the lazy pipeline builder

    The development follows [src/simplypipe/core/pipe.py] and
    [src/simplypipe/stats/model.py].

    - Python values are the inductive [value]; [True]/[False] are the
      integers 1/0 (in Python [bool] is a subclass of [int], with the same
      equality, hash and truthiness).  Integers are unbounded ([Z]).
    - A user callable is a state-passing function over an abstract user
      store [U]; it returns a value or raises.  The statistics record of a
      run is out of its reach, and so is the source: the list that a run
      iterates is not modified, and the iterator that it reads is not
      advanced, by a callable or a sink.  The development describes the
      runs in which the callables leave the source object alone.
    - A generator object is a [frame]: the operator's parameters, its local
      variables, and whether it has finished.  [Pipe.pull] is [next()] on
      the outermost generator of a chain; it threads the shared [RunStats]
      record, the user store, the clock and the cursors of one-shot
      iterators, in the order in which Python runs the generators.
    - Loops that may run for ever (a filter over an unbounded source) are
      bounded by fuel; [None] means that the fuel ran out.  Results do not
      depend on the fuel, once there is enough ([pull_mono], [run_mono]).
    - Time is a rational clock that only [time.sleep] advances: [duration]
      is the time a run has slept, a lower bound of the time it takes.
      The arithmetic on times is exact, where the code computes with
      floats; and [Pipe.sleep] describes [time.sleep] on the durations
      that it accepts.  A duration beyond that range, or a product
      [backoff * 2**attempt] that no float holds, raises [OverflowError]
      in the code: a statement that depends on a wait says in which range
      it holds ([backoff_in_range], [op_sleeps_in_range]).
    - A generator that is abandoned (by [take], or by an exception) is not
      resumed: the [GeneratorExit] that CPython throws into it when it is
      collected is not modelled.  It is invisible unless [exceptions]
      contains [BaseException]. *)

From Stdlib Require Import ZArith QArith Lqa List String Lia Bool.
From stdpp Require Import base option gmap.
Import ListNotations.

Close Scope Q_scope.
Open Scope Z_scope.

(* ------------------------------------------------------------------ *)
(** ** Python values and exceptions *)

#[warnings="-register-all"]
Inductive value : Type :=
  | VNone
  | VInt (z : Z)
  | VStr (s : string)
  | VList (l : list value).

(** [bool(v)], as used by [if fn(item)]. *)
Definition truthy (v : value) : bool :=
  match v with
  | VNone => false
  | VInt z => negb (z =? 0)
  | VStr s => negb (String.eqb s EmptyString)
  | VList l => match l with [] => false | _ :: _ => true end
  end.

(** Lists are unhashable: using one as a dictionary key raises. *)
Definition hashable (v : value) : bool :=
  match v with
  | VList _ => false
  | _ => true
  end.

(** [==] on values. *)
Fixpoint value_eqb (a b : value) {struct a} : bool :=
  match a, b with
  | VNone, VNone => true
  | VInt x, VInt y => x =? y
  | VStr s, VStr t => String.eqb s t
  | VList l, VList m =>
      (fix list_eqb (l m : list value) {struct l} : bool :=
         match l, m with
         | [], [] => true
         | x :: l', y :: m' => value_eqb x y && list_eqb l' m'
         | _, _ => false
         end) l m
  | _, _ => false
  end.

Fixpoint chars (s : string) : list value :=
  match s with
  | EmptyString => []
  | String c s' => VStr (String c EmptyString) :: chars s'
  end.

(** [iter(v)]: the items of an iterable value, [None] when [v] is not
    iterable. *)
Definition iter_value (v : value) : option (list value) :=
  match v with
  | VList l => Some l
  | VStr s => Some (chars s)
  | _ => None
  end.

Inductive exc_class : Type :=
  | BaseException
  | KeyboardInterrupt
  | PyException
  | ValueError
  | TypeError
  | RuntimeError
  | KeyError
  | ZeroDivisionError.

Definition exc_class_eqb (a b : exc_class) : bool :=
  match a, b with
  | BaseException, BaseException
  | KeyboardInterrupt, KeyboardInterrupt
  | PyException, PyException
  | ValueError, ValueError
  | TypeError, TypeError
  | RuntimeError, RuntimeError
  | KeyError, KeyError
  | ZeroDivisionError, ZeroDivisionError => true
  | _, _ => false
  end.

(** [issubclass c d] for the classes above. *)
Definition issubclass (c d : exc_class) : bool :=
  match d with
  | BaseException => true
  | PyException =>
      match c with
      | BaseException | KeyboardInterrupt => false
      | _ => true
      end
  | _ => exc_class_eqb c d
  end.

Record exn : Type := mkExn { exc_cls : exc_class; exc_msg : string }.

(** [except exceptions as e]: [exceptions] is a tuple of classes. *)
Definition matches (exceptions : list exc_class) (e : exn) : bool :=
  existsb (issubclass (exc_cls e)) exceptions.

Inductive result (A : Type) : Type :=
  | Ok (a : A)
  | Raise (e : exn).
Arguments Ok {A} a.
Arguments Raise {A} e.

(* ------------------------------------------------------------------ *)
(** ** Run statistics ([stats/model.py]) *)

Record RunStats : Type := mkStats {
  processed : Z;
  emitted : Z;
  dropped : Z;
  batches : Z;
  errors : Z;
  duration : Q
}.

Definition RunStats_new : RunStats := mkStats 0 0 0 0 0 (0 # 1).

(* ------------------------------------------------------------------ *)
(** ** Sources *)

(** What [for item in self._source] iterates over.  A list and a
    range-like object start a fresh iteration each time; an iterator object
    is its own iterator, so its cursor survives between runs.  The
    contents of a list are fixed for the time of a run. *)
Inductive source : Type :=
  | SeqSource (xs : list value)
  | FnSource (f : nat -> value)
  | IterSource (id : nat) (f : nat -> option value).

Definition reiterable (s : source) : bool :=
  match s with
  | IterSource _ _ => false
  | _ => true
  end.

(* ------------------------------------------------------------------ *)
(** ** What a run can change besides its statistics *)

(** The store of the user's callables, the clock read by
    [time.perf_counter] and advanced by [time.sleep], and the cursor of
    every one-shot iterator object. *)
Record world (U : Type) : Type := mkWorld {
  user : U;
  clock : Q;
  cursors : gmap nat nat
}.
Arguments mkWorld {U} _ _ _.
Arguments user {U} _.
Arguments clock {U} _.
Arguments cursors {U} _.

(* ------------------------------------------------------------------ *)
(** ** class Pipe *)

Module Pipe.

Section Pipeline.

Variable U : Type.

Definition callable : Type := value -> U -> result value * U.
Definition handler : Type := value -> exn -> U -> result value * U.

(** One operator closure of [Pipe._ops], with the variables it captures. *)
Inductive op : Type :=
  | OpMap (fn : callable)
  | OpFlatMap (fn : callable)
  | OpFilter (fn : callable)
  | OpTap (fn : callable)
  | OpBatch (size : Z)
  | OpRateLimit (min_interval : Q)
  | OpDedupe (key : option callable) (max_size : option Z)
  | OpRetryMap (fn : callable) (retries : Z) (backoff : Q)
               (exceptions : list exc_class)
  | OpTake (n : Z)
  | OpCatch (fn : callable) (on_error : handler)
            (exceptions : list exc_class).

Record t : Type := mkPipe { _source : source; _ops : list op }.

(** [Pipe(source)], which is what [simplypipe.pipe(iterable)] returns. *)
Definition pipe (iterable : source) : t := mkPipe iterable [].

Definition _add_op (self : t) (o : op) : t :=
  mkPipe (_source self) (_ops self ++ [o]).

(** The operator methods.  Arguments that have a default in Python
    ([per], [key], [max_size], [retries], [backoff], [exceptions]) are always
    given. *)
Definition map (self : t) (fn : callable) : t :=
  _add_op self (OpMap fn).
Definition flat_map (self : t) (fn : callable) : t :=
  _add_op self (OpFlatMap fn).
Definition filter (self : t) (fn : callable) : t :=
  _add_op self (OpFilter fn).
Definition tap (self : t) (fn : callable) : t :=
  _add_op self (OpTap fn).
Definition batch (self : t) (size : Z) : t :=
  _add_op self (OpBatch size).

(** [min_interval = per / rate] is computed when the method is called;
    a zero [rate] raises there.  The quotient is exact here and a float
    in the code. *)
Definition rate_limit (self : t) (rate per : Q) : result t :=
  if Qeq_bool rate (0 # 1)
  then Raise (mkExn ZeroDivisionError "division by zero")
  else Ok (_add_op self (OpRateLimit (Qdiv per rate))).

Definition dedupe (self : t) (key : option callable)
    (max_size : option Z) : t :=
  _add_op self (OpDedupe key max_size).
Definition retry_map (self : t) (fn : callable) (retries : Z)
    (backoff : Q) (exceptions : list exc_class) : t :=
  _add_op self (OpRetryMap fn retries backoff exceptions).
Definition take (self : t) (n : Z) : t :=
  _add_op self (OpTake n).
Definition catch (self : t) (fn : callable) (on_error : handler)
    (exceptions : list exc_class) : t :=
  _add_op self (OpCatch fn on_error exceptions).

(** *** The state of one run *)

Record state : Type := mkState { stats : RunStats; env : world U }.

Definition with_stats (f : RunStats -> RunStats) (st : state) : state :=
  mkState (f (stats st)) (env st).

Definition inc_processed (s : RunStats) : RunStats :=
  mkStats (processed s + 1) (emitted s) (dropped s) (batches s) (errors s)
          (duration s).
Definition inc_emitted (s : RunStats) : RunStats :=
  mkStats (processed s) (emitted s + 1) (dropped s) (batches s) (errors s)
          (duration s).
Definition inc_dropped (s : RunStats) : RunStats :=
  mkStats (processed s) (emitted s) (dropped s + 1) (batches s) (errors s)
          (duration s).
Definition inc_batches (s : RunStats) : RunStats :=
  mkStats (processed s) (emitted s) (dropped s) (batches s + 1) (errors s)
          (duration s).
Definition inc_errors (s : RunStats) : RunStats :=
  mkStats (processed s) (emitted s) (dropped s) (batches s) (errors s + 1)
          (duration s).
Definition set_duration (d : Q) (s : RunStats) : RunStats :=
  mkStats (processed s) (emitted s) (dropped s) (batches s) (errors s) d.

Definition set_user (u : U) (st : state) : state :=
  mkState (stats st) (mkWorld u (clock (env st)) (cursors (env st))).

(** [time.sleep(d)], for a duration [d] that [time.sleep] accepts. *)
Definition sleep (d : Q) (st : state) : state :=
  mkState (stats st)
    (mkWorld (user (env st)) (Qplus (clock (env st)) d) (cursors (env st))).

Definition set_cursor (id pos : nat) (st : state) : state :=
  mkState (stats st)
    (mkWorld (user (env st)) (clock (env st)) (<[id := pos]> (cursors (env st)))).

(** [fn(item)] *)
Definition call (fn : callable) (item : value) (st : state)
    : result value * state :=
  let (r, u) := fn item (user (env st)) in (r, set_user u st).

(** [on_error(item, e)] *)
Definition call_handler (h : handler) (item : value) (e : exn) (st : state)
    : result value * state :=
  let (r, u) := h item e (user (env st)) in (r, set_user u st).

(** *** Generator objects *)

(** What [next()] on a generator gives: an item, [StopIteration], or an
    exception that escapes the generator. *)
Inductive signal : Type :=
  | Yield (item : value)
  | Stop
  | Throw (e : exn).

(** The generator made by calling an operator closure: the captured
    parameters and the local variables that live across a [yield]
    ([pending]: what is left of the [yield from]; [buffer]; [last_time];
    [seen], the keys of the [OrderedDict] in insertion order; [count]).
    [FDone] is a generator that returned or raised. *)
Inductive frame : Type :=
  | FMap (fn : callable)
  | FFlatMap (fn : callable) (pending : list value)
  | FFilter (fn : callable)
  | FTap (fn : callable)
  | FBatch (size : Z) (buffer : list value)
  | FRateLimit (min_interval : Q) (last_time : option Q)
  | FDedupe (key : option callable) (max_size : option Z) (seen : list value)
  | FRetryMap (fn : callable) (retries : Z) (backoff : Q)
              (exceptions : list exc_class)
  | FTake (n : Z) (count : Z)
  | FCatch (fn : callable) (on_error : handler) (exceptions : list exc_class)
  | FDone.

(** [op(pipeline, stats)]: the generator before its first [next()]. *)
Definition start (o : op) : frame :=
  match o with
  | OpMap fn => FMap fn
  | OpFlatMap fn => FFlatMap fn []
  | OpFilter fn => FFilter fn
  | OpTap fn => FTap fn
  | OpBatch size => FBatch size []
  | OpRateLimit mi => FRateLimit mi None
  | OpDedupe key max_size => FDedupe key max_size []
  | OpRetryMap fn retries backoff exceptions =>
      FRetryMap fn retries backoff exceptions
  | OpTake n => FTake n 0
  | OpCatch fn on_error exceptions => FCatch fn on_error exceptions
  end.

(** The generator [_source()] of [run]: the source and the position of the
    iteration over it. *)
Inductive srcgen : Type :=
  | SrcGen (s : source) (pos : nat)
  | SrcDone.

(** [next()] on [_source()]: one item of the source, counted in
    [processed].  Only this function moves the position in a list and the
    cursor of an iterator. *)
Definition pull_source (sg : srcgen) (st : state) : signal * srcgen * state :=
  match sg with
  | SrcDone => (Stop, SrcDone, st)
  | SrcGen s pos =>
      match s with
      | SeqSource xs =>
          match xs !! pos with
          | Some item => (Yield item, SrcGen s (S pos), with_stats inc_processed st)
          | None => (Stop, SrcDone, st)
          end
      | FnSource f =>
          (Yield (f pos), SrcGen s (S pos), with_stats inc_processed st)
      | IterSource id f =>
          let c := default 0%nat (cursors (env st) !! id) in
          match f c with
          | Some item =>
              (Yield item, SrcGen s pos,
               with_stats inc_processed (set_cursor id (S c) st))
          | None => (Stop, SrcDone, st)
          end
      end
  end.

(** [raise last_exc]: raising [None] is itself a [TypeError]. *)
Definition py_raise (last_exc : option exn) : exn :=
  match last_exc with
  | Some e => e
  | None => mkExn TypeError "exceptions must derive from BaseException"
  end.

(** The loop [for attempt in range(retries + 1)] of [retry_map] with its
    [else] branch; [k] counts the attempts that are left. *)
Fixpoint retry_loop (fn : callable) (retries : Z) (backoff : Q)
    (exceptions : list exc_class) (item : value)
    (k : nat) (attempt : Z) (last_exc : option exn) (st : state)
    : signal * state :=
  match k with
  | O => (Throw (py_raise last_exc), st)
  | S k' =>
      match call fn item st with
      | (Ok v, st1) => (Yield v, st1)
      | (Raise e, st1) =>
          if matches exceptions e then
            let st2 := with_stats inc_errors st1 in
            let st3 :=
              if (attempt <? retries) && negb (Qle_bool backoff (0 # 1))
              then sleep (Qmult backoff (inject_Z (2 ^ attempt))) st2
              else st2 in
            retry_loop fn retries backoff exceptions item k' (attempt + 1)
                       (Some e) st3
          else (Throw e, st1)
      end
  end.

Definition gen_result : Type := signal * list frame * srcgen * state.

(** The body of [for item in iterable] for one item.  [ups] is the chain
    below the generator; [rec] runs the chain on to its next [yield]. *)
Definition on_item (rec : list frame -> srcgen -> state -> option gen_result)
    (fr : frame) (item : value) (ups : list frame) (sg : srcgen) (st : state)
    : option gen_result :=
  match fr with
  | FMap fn =>
      match call fn item st with
      | (Ok v, st1) => Some (Yield v, fr :: ups, sg, st1)
      | (Raise e, st1) => Some (Throw e, FDone :: ups, sg, st1)
      end
  | FFlatMap fn _ =>
      match call fn item st with
      | (Ok v, st1) =>
          match iter_value v with
          | Some l => rec (FFlatMap fn l :: ups) sg st1
          | None =>
              Some (Throw (mkExn TypeError "object is not iterable"),
                    FDone :: ups, sg, st1)
          end
      | (Raise e, st1) => Some (Throw e, FDone :: ups, sg, st1)
      end
  | FFilter fn =>
      match call fn item st with
      | (Ok v, st1) =>
          if truthy v then Some (Yield item, fr :: ups, sg, st1)
          else rec (fr :: ups) sg (with_stats inc_dropped st1)
      | (Raise e, st1) => Some (Throw e, FDone :: ups, sg, st1)
      end
  | FTap fn =>
      match call fn item st with
      | (Ok _, st1) => Some (Yield item, fr :: ups, sg, st1)
      | (Raise e, st1) => Some (Throw e, FDone :: ups, sg, st1)
      end
  | FBatch size buffer =>
      let buffer1 := buffer ++ [item] in
      if Z.of_nat (length buffer1) =? size
      then Some (Yield (VList buffer1), FBatch size [] :: ups, sg,
                 with_stats inc_batches st)
      else rec (FBatch size buffer1 :: ups) sg st
  | FRateLimit min_interval last_time =>
      let st1 :=
        match last_time with
        | Some t =>
            let elapsed := Qminus (clock (env st)) t in
            if negb (Qle_bool min_interval elapsed)
            then sleep (Qminus min_interval elapsed) st
            else st
        | None => st
        end in
      Some (Yield item, FRateLimit min_interval (Some (clock (env st1))) :: ups,
            sg, st1)
  | FDedupe key max_size seen =>
      let '(kv, st1) :=
        match key with
        | Some k => call k item st
        | None => (Ok item, st)
        end in
      match kv with
      | Raise e => Some (Throw e, FDone :: ups, sg, st1)
      | Ok key_value =>
          if hashable key_value then
            if negb (existsb (value_eqb key_value) seen) then
              let seen1 := seen ++ [key_value] in
              let seen2 :=
                match max_size with
                | Some m =>
                    if m <? Z.of_nat (length seen1) then tail seen1 else seen1
                | None => seen1
                end in
              Some (Yield item, FDedupe key max_size seen2 :: ups, sg, st1)
            else rec (fr :: ups) sg (with_stats inc_dropped st1)
          else
            Some (Throw (mkExn TypeError "unhashable type"),
                  FDone :: ups, sg, st1)
      end
  | FRetryMap fn retries backoff exceptions =>
      match retry_loop fn retries backoff exceptions item
                       (Z.to_nat (retries + 1)) 0 None st with
      | (Yield v, st1) => Some (Yield v, fr :: ups, sg, st1)
      | (sig, st1) => Some (sig, FDone :: ups, sg, st1)
      end
  | FTake n count =>
      if n <=? count then Some (Stop, FDone :: ups, sg, st)
      else Some (Yield item, FTake n (count + 1) :: ups, sg, st)
  | FCatch fn on_error exceptions =>
      match call fn item st with
      | (Ok v, st1) => Some (Yield v, fr :: ups, sg, st1)
      | (Raise e, st1) =>
          if matches exceptions e then
            match call_handler on_error item e st1 with
            | (Ok _, st2) => rec (fr :: ups) sg (with_stats inc_errors st2)
            | (Raise e', st2) => Some (Throw e', FDone :: ups, sg, st2)
            end
          else Some (Throw e, FDone :: ups, sg, st1)
      end
  | FDone => Some (Stop, FDone :: ups, sg, st)
  end.

(** What a generator does when its input is exhausted: [batch] emits the
    partial group that is left, every other operator returns. *)
Definition on_stop (fr : frame) (ups : list frame) (sg : srcgen) (st : state)
    : gen_result :=
  match fr with
  | FBatch size (x :: buffer) =>
      (Yield (VList (x :: buffer)), FDone :: ups, sg, with_stats inc_batches st)
  | _ => (Stop, FDone :: ups, sg, st)
  end.

(** [next()] on the generator [fr] whose input is the chain [ups]. *)
Definition step_frame
    (rec : list frame -> srcgen -> state -> option gen_result)
    (fr : frame) (ups : list frame) (sg : srcgen) (st : state)
    : option gen_result :=
  match fr with
  | FDone => Some (Stop, FDone :: ups, sg, st)
  | FFlatMap fn (x :: rest) => Some (Yield x, FFlatMap fn rest :: ups, sg, st)
  | _ =>
      match rec ups sg st with
      | None => None
      | Some (Yield item, ups1, sg1, st1) => on_item rec fr item ups1 sg1 st1
      | Some (Stop, ups1, sg1, st1) => Some (on_stop fr ups1 sg1 st1)
      | Some (Throw e, ups1, sg1, st1) => Some (Throw e, FDone :: ups1, sg1, st1)
      end
  end.

(** [next()] on a chain of generators, outermost first, over [_source()]. *)
Fixpoint pull (fuel : nat) (fs : list frame) (sg : srcgen) (st : state)
    : option gen_result :=
  match fuel with
  | O => None
  | S fuel' =>
      match fs with
      | [] => let '(sig, sg1, st1) := pull_source sg st in Some (sig, [], sg1, st1)
      | fr :: ups => step_frame (pull fuel') fr ups sg st
      end
  end.

(** The loop [for item in pipeline] of [run]; [out] lists the items
    delivered so far. *)
Fixpoint run_loop (fuel : nat) (sink : option callable)
    (fs : list frame) (sg : srcgen) (st : state) (out : list value)
    : option (result (list value) * state) :=
  match fuel with
  | O => None
  | S fuel' =>
      match pull fuel' fs sg st with
      | None => None
      | Some (Stop, _, _, st1) => Some (Ok out, st1)
      | Some (Throw e, _, _, st1) => Some (Raise e, st1)
      | Some (Yield item, fs1, sg1, st1) =>
          let st2 := with_stats inc_emitted st1 in
          match sink with
          | None => run_loop fuel' sink fs1 sg1 st2 (out ++ [item])
          | Some f =>
              match call f item st2 with
              | (Ok _, st3) => run_loop fuel' sink fs1 sg1 st3 (out ++ [item])
              | (Raise e, st3) => Some (Raise e, st3)
              end
          end
      end
  end.

(** The chain [run] builds: [_source()] wrapped by every operator in
    registration order, so the last operator is outermost. *)
Definition chain (self : t) : list frame := rev (List.map start (_ops self)).

(** [run(sink)]: the statistics and the items delivered, or the exception
    that escaped; in both cases with the world as the run left it. *)
Definition run (fuel : nat) (self : t) (sink : option callable) (w : world U)
    : option (result (RunStats * list value) * world U) :=
  let start_time := clock w in
  match run_loop fuel sink (chain self) (SrcGen (_source self) 0)
                 (mkState RunStats_new w) [] with
  | None => None
  | Some (Ok out, st) =>
      Some (Ok (set_duration (Qminus (clock (env st)) start_time) (stats st),
                out), env st)
  | Some (Raise e, st) => Some (Raise e, env st)
  end.

End Pipeline.

Arguments OpMap {U} fn.
Arguments OpFlatMap {U} fn.
Arguments OpFilter {U} fn.
Arguments OpTap {U} fn.
Arguments OpBatch {U} size.
Arguments OpRateLimit {U} min_interval.
Arguments OpDedupe {U} key max_size.
Arguments OpRetryMap {U} fn retries backoff exceptions.
Arguments OpTake {U} n.
Arguments OpCatch {U} fn on_error exceptions.
Arguments mkPipe {U} _ _.
Arguments _source {U} _.
Arguments _ops {U} _.
Arguments pipe {U} iterable.
Arguments _add_op {U} self o.
Arguments map {U} self fn.
Arguments flat_map {U} self fn.
Arguments filter {U} self fn.
Arguments tap {U} self fn.
Arguments batch {U} self size.
Arguments rate_limit {U} self rate per.
Arguments dedupe {U} self key max_size.
Arguments retry_map {U} self fn retries backoff exceptions.
Arguments take {U} self n.
Arguments catch {U} self fn on_error exceptions.
Arguments mkState {U} _ _.
Arguments stats {U} _.
Arguments env {U} _.
Arguments with_stats {U} f st.
Arguments set_user {U} u st.
Arguments sleep {U} d st.
Arguments set_cursor {U} id pos st.
Arguments call {U} fn item st.
Arguments call_handler {U} h item e st.
Arguments FMap {U} fn.
Arguments FFlatMap {U} fn pending.
Arguments FFilter {U} fn.
Arguments FTap {U} fn.
Arguments FBatch {U} size buffer.
Arguments FRateLimit {U} min_interval last_time.
Arguments FDedupe {U} key max_size seen.
Arguments FRetryMap {U} fn retries backoff exceptions.
Arguments FTake {U} n count.
Arguments FCatch {U} fn on_error exceptions.
Arguments FDone {U}.
Arguments start {U} o.
Arguments pull_source {U} sg st.
Arguments retry_loop {U} fn retries backoff exceptions item k attempt last_exc st.
Arguments on_item {U} rec fr item ups sg st.
Arguments on_stop {U} fr ups sg st.
Arguments step_frame {U} rec fr ups sg st.
Arguments pull {U} fuel fs sg st.
Arguments run_loop {U} fuel sink fs sg st out.
Arguments chain {U} self.
Arguments run {U} fuel self sink w.

End Pipe.

(* ------------------------------------------------------------------ *)
(** ** Builders as objects *)

(** [Pipe.t] is the value of a builder.  In Python a builder is an object
    that refers to the source and to a list object; [PipeObj] puts both in
    a heap, so that what a method leaves untouched can be stated. *)
Module PipeObj.

Section Objects.

Variable U : Type.

Inductive obj : Type :=
  | OList (items : list (Pipe.op U))
  | OPipe (_source : source) (_ops : nat).

(** A new object at an address that is not in use. *)
Definition alloc (h : gmap nat obj) (o : obj) : nat * gmap nat obj :=
  let a := fresh (dom h) in (a, <[a := o]> h).

(** [Pipe(source, _ops)]: a missing [_ops] is a new empty list. *)
Definition __init__ (h : gmap nat obj) (src : source) (_ops : option nat)
    : nat * gmap nat obj :=
  match _ops with
  | Some l => alloc h (OPipe src l)
  | None => let (l, h1) := alloc h (OList []) in alloc h1 (OPipe src l)
  end.

(** [simplypipe.pipe(iterable)] *)
Definition pipe (h : gmap nat obj) (iterable : source) : nat * gmap nat obj :=
  __init__ h iterable None.

(** [Pipe(self._source, self._ops + [op])]: [+] builds a new list. *)
Definition _add_op (h : gmap nat obj) (self : nat) (o : Pipe.op U)
    : option (nat * gmap nat obj) :=
  match h !! self with
  | Some (OPipe src l) =>
      match h !! l with
      | Some (OList items) =>
          let (l1, h1) := alloc h (OList (items ++ [o])) in
          Some (__init__ h1 src (Some l1))
      | _ => None
      end
  | _ => None
  end.

Definition map h self (fn : Pipe.callable U) := _add_op h self (Pipe.OpMap fn).
Definition flat_map h self (fn : Pipe.callable U) :=
  _add_op h self (Pipe.OpFlatMap fn).
Definition filter h self (fn : Pipe.callable U) :=
  _add_op h self (Pipe.OpFilter fn).
Definition tap h self (fn : Pipe.callable U) := _add_op h self (Pipe.OpTap fn).
Definition batch h self (size : Z) := _add_op h self (Pipe.OpBatch size).

(** [per / rate] raises for a zero [rate], before any object is made. *)
Definition rate_limit h self (rate per : Q)
    : result (option (nat * gmap nat obj)) :=
  if Qeq_bool rate (0 # 1)
  then Raise (mkExn ZeroDivisionError "division by zero")
  else Ok (_add_op h self (Pipe.OpRateLimit (Qdiv per rate))).

Definition dedupe h self (key : option (Pipe.callable U))
    (max_size : option Z) :=
  _add_op h self (Pipe.OpDedupe key max_size).
Definition retry_map h self (fn : Pipe.callable U) (retries : Z) (backoff : Q)
    (exceptions : list exc_class) :=
  _add_op h self (Pipe.OpRetryMap fn retries backoff exceptions).
Definition take h self (n : Z) := _add_op h self (Pipe.OpTake n).
Definition catch h self (fn : Pipe.callable U) (on_error : Pipe.handler U)
    (exceptions : list exc_class) :=
  _add_op h self (Pipe.OpCatch fn on_error exceptions).

(** The value of the builder at [self]: its source and the contents of its
    list of operators. *)
Definition view (h : gmap nat obj) (self : nat) : option (Pipe.t U) :=
  match h !! self with
  | Some (OPipe src l) =>
      match h !! l with
      | Some (OList items) => Some (Pipe.mkPipe src items)
      | _ => None
      end
  | _ => None
  end.

(** [self.run(sink)] reads [self._source] and [self._ops] from the heap. *)
Definition run (fuel : nat) (h : gmap nat obj) (self : nat)
    (sink : option (Pipe.callable U)) (w : world U)
    : option (result (RunStats * list value) * world U) :=
  match view h self with
  | Some p => Pipe.run fuel p sink w
  | None => None
  end.

End Objects.

Arguments OList {U} items.
Arguments OPipe {U} _source _ops.
Arguments alloc {U} h o.
Arguments __init__ {U} h src _ops.
Arguments pipe {U} h iterable.
Arguments _add_op {U} h self o.
Arguments map {U} h self fn.
Arguments flat_map {U} h self fn.
Arguments filter {U} h self fn.
Arguments tap {U} h self fn.
Arguments batch {U} h self size.
Arguments rate_limit {U} h self rate per.
Arguments dedupe {U} h self key max_size.
Arguments retry_map {U} h self fn retries backoff exceptions.
Arguments take {U} h self n.
Arguments catch {U} h self fn on_error exceptions.
Arguments view {U} h self.
Arguments run {U} fuel h self sink w.

End PipeObj.

(* ------------------------------------------------------------------ *)
(** ** Vocabulary of the proofs *)

(** [ceil(n / size)] for a positive [size]. *)
Definition ceil_div (n size : Z) : Z := (n + size - 1) / size.

(** Groups of [size] items each, except possibly a shorter last one; no
    group is empty. *)
Fixpoint chunked (size : nat) (groups : list (list value)) : Prop :=
  match groups with
  | [] => True
  | g :: rest =>
      match rest with
      | [] => (0 < length g <= size)%nat
      | _ :: _ => length g = size /\ chunked size rest
      end
  end.

(** What [dedupe] delivers from a list, with [seen] the keys it remembers:
    the loop of the operator, on lists.  [kf] computes the key. *)
Fixpoint dedupe_list (kf : value -> value) (max_size : option Z)
    (seen : list value) (l : list value) : list value :=
  match l with
  | [] => []
  | x :: l' =>
      if negb (existsb (value_eqb (kf x)) seen) then
        let seen1 := seen ++ [kf x] in
        let seen2 :=
          match max_size with
          | Some m => if m <? Z.of_nat (length seen1) then tail seen1 else seen1
          | None => seen1
          end in
        x :: dedupe_list kf max_size seen2 l'
      else dedupe_list kf max_size seen l'
  end.

(** Following the spec's words: an item is a first occurrence when its key
    is the key of no earlier item. *)
Definition is_first_occurrence (kf : value -> value) (earlier : list value)
    (x : value) : bool :=
  negb (existsb (value_eqb (kf x)) (List.map kf earlier)).

Fixpoint first_occurrences_from (kf : value -> value) (earlier l : list value)
    : list value :=
  match l with
  | [] => []
  | x :: l' =>
      if is_first_occurrence kf earlier x
      then x :: first_occurrences_from kf (earlier ++ [x]) l'
      else first_occurrences_from kf (earlier ++ [x]) l'
  end.

Definition first_occurrences (kf : value -> value) (l : list value)
    : list value :=
  first_occurrences_from kf [] l.

(** The last [k] elements of a list. *)
Definition last_n {A : Type} (k : nat) (l : list A) : list A :=
  skipn (length l - k) l.

(** Following the spec's words: the seen-set keeps the [k] most recently
    inserted keys; an item is delivered when its key is not among them. *)
Fixpoint dedupe_window (kf : value -> value) (k : nat) (recent l : list value)
    : list value :=
  match l with
  | [] => []
  | x :: l' =>
      if existsb (value_eqb (kf x)) recent
      then dedupe_window kf k recent l'
      else x :: dedupe_window kf k (last_n k (recent ++ [kf x])) l'
  end.

(** *** What [retry_map] does with one item *)

(** The attempts made on [r_item]: the failures that were caught, in order,
    and how the attempts ended: with a success, with a failure that was not
    caught, or (no end) with no attempt left. *)
Record round : Type := mkRound {
  r_item : value;
  r_fails : list exn;
  r_end : option (result value)
}.

(** The calls of [fn] in a round: the argument and the outcome of each. *)
Definition round_calls (r : round) : list (value * result value) :=
  List.map (fun e => (r_item r, Raise e)) (r_fails r)
  ++ match r_end r with
     | Some o => [(r_item r, o)]
     | None => []
     end.

(** A round of [retry_map(fn, retries, exceptions)]: every caught failure
    matches [exceptions]; a success or a failure that does not match comes
    after at most [retries] caught failures; and the attempts are used up
    after [retries + 1] of them. *)
Definition round_ok (retries : Z) (exceptions : list exc_class) (r : round)
    : Prop :=
  Forall (fun e => matches exceptions e = true) (r_fails r)
  /\ match r_end r with
     | Some (Ok _) => Z.of_nat (length (r_fails r)) <= retries
     | Some (Raise e) =>
         matches exceptions e = false
         /\ Z.of_nat (length (r_fails r)) <= retries
     | None => Z.of_nat (length (r_fails r)) = retries + 1
     end.

(** The round ends the run with the exception [e]: a failure that is not
    caught, or the last of [retries + 1] caught failures. *)
Definition round_raises (r : round) (e : exn) : Prop :=
  r_end r = Some (Raise e)
  \/ (r_end r = None /\ last (r_fails r) = Some e).

(** *** Durations that [time.sleep] accepts *)

(** [time.sleep] raises [OverflowError] for a duration beyond what the
    platform's timer can hold (from [2 ** 32 - 1] milliseconds on some
    platforms to [2 ** 63 - 1] nanoseconds on others); up to [sleep_max]
    seconds it sleeps on every platform, which is what [Pipe.sleep]
    describes. *)
Definition sleep_max : Q := (4294967 # 1)%Q.

(** The waits of [retry_map(fn, retries, backoff)] are durations that
    [time.sleep] accepts: there is none for [backoff <= 0]; otherwise the
    longest is [backoff * 2 ** (retries - 1)], and [2 ** attempt] has to be
    convertible to a float. *)
Definition backoff_in_range (backoff : Q) (retries : Z) : bool :=
  Qle_bool backoff (0 # 1)%Q
  || ((retries <=? 1024)
      && Qle_bool (Qmult backoff (inject_Z (2 ^ (retries - 1)))) sleep_max).

Section Vocabulary.

Context {U : Type}.

Implicit Types (fs ups : list (Pipe.frame U)) (fr : Pipe.frame U)
  (sg : Pipe.srcgen) (st : Pipe.state U).

(** [rec2] answers wherever [rec1] does, with the same answer. *)
Definition extends
    (rec1 rec2 : list (Pipe.frame U) -> Pipe.srcgen -> Pipe.state U ->
                 option (Pipe.gen_result U)) : Prop :=
  forall fs sg st r, rec1 fs sg st = Some r -> rec2 fs sg st = Some r.

Definition is_flat_map fr : bool :=
  match fr with
  | Pipe.FFlatMap _ _ => true
  | _ => false
  end.

Definition no_flat_map fs : bool := forallb (fun fr => negb (is_flat_map fr)) fs.

Definition op_is_flat_map (o : Pipe.op U) : bool :=
  match o with
  | Pipe.OpFlatMap _ => true
  | _ => false
  end.

(** A [batch] generator that holds a partial group owes one item: the
    group will be delivered without a further pull. *)
Definition holds_group fr : Z :=
  match fr with
  | Pipe.FBatch _ (_ :: _) => 1
  | _ => 0
  end.

Fixpoint credit fs : Z :=
  match fs with
  | [] => 0
  | fr :: ups => holds_group fr + credit ups
  end.

Definition yields (sig : Pipe.signal) : Z :=
  match sig with
  | Pipe.Yield _ => 1
  | _ => 0
  end.

(** Every item a chain without [flat_map] yields is paid for by an item
    pulled from the source, now or when a pending group was filled. *)
Definition pays fs sg st (r : Pipe.gen_result U) : Prop :=
  let '(sig, fs1, sg1, st1) := r in
  no_flat_map fs = true ->
  no_flat_map fs1 = true /\
  emitted (Pipe.stats st1) = emitted (Pipe.stats st) /\
  processed (Pipe.stats st) - credit fs + yields sig
  <= processed (Pipe.stats st1) - credit fs1.

(** [next()] answers [r], given enough fuel. *)
Definition pulls fs sg st (r : Pipe.gen_result U) : Prop :=
  exists fuel, Pipe.pull fuel fs sg st = Some r.

(** The loop of [run] ends with [res], given enough fuel. *)
Definition runs (sink : option (Pipe.callable U)) fs sg st (out : list value)
    (res : result (list value) * Pipe.state U) : Prop :=
  exists fuel, Pipe.run_loop fuel sink fs sg st out = Some res.

(** [run] returns, given enough fuel. *)
Definition returns (p : Pipe.t U) (sink : option (Pipe.callable U))
    (w : world U) (res : result (RunStats * list value) * world U) : Prop :=
  exists fuel, Pipe.run fuel p sink w = Some res.

(** A generator that starts its [next()] by pulling its input. *)
Definition waits fr : bool :=
  match fr with
  | Pipe.FDone => false
  | Pipe.FFlatMap _ (_ :: _) => false
  | _ => true
  end.

(** The five counters of [s'] are those of [s] plus the given amounts. *)
Definition counts_up (s s' : RunStats) (dp de dd db dx : Z) : Prop :=
  processed s' = processed s + dp /\
  emitted s' = emitted s + de /\
  dropped s' = dropped s + dd /\
  batches s' = batches s + db /\
  errors s' = errors s + dx.

(** The key function [key] of [dedupe] computes [kf] and has no effect. *)
Definition key_value_of (key : option (Pipe.callable U))
    (kf : value -> value) : Prop :=
  match key with
  | Some k => forall item u, k item u = (Ok (kf item), u)
  | None => forall item, kf item = item
  end.

(** [fn] with a record of each of its calls, the argument and the outcome,
    kept in the user store next to what [fn] itself stores. *)
Definition traced (fn : Pipe.callable U)
    : Pipe.callable (U * list (value * result value)) :=
  fun v s =>
    let (r, u) := fn v (fst s) in (r, (u, snd s ++ [(v, r)])).

(** The record kept by [traced]. *)
Definition trace_log (st : Pipe.state (U * list (value * result value)))
    : list (value * result value) :=
  snd (user (Pipe.env st)).

(** A sink that works on its own store and leaves the record alone. *)
Definition beside (g : Pipe.callable U)
    : Pipe.callable (U * list (value * result value)) :=
  fun v s => let (r, u) := g v (fst s) in (r, (u, snd s)).

(** The exception that [raise last_exc] raises after the failures [fails],
    when [last_exc] was [before] at the start. *)
Definition last_failure (fails : list exn) (before : option exn) : exn :=
  Pipe.py_raise (match last fails with Some e => Some e | None => before end).

(** *** Pure callables and what two runs have in common *)

(** A callable whose result depends on its argument only and which leaves
    the store alone. *)
Definition pure_callable (fn : Pipe.callable U) : Prop :=
  exists f, forall v u, fn v u = (f v, u).

Definition pure_handler (h : Pipe.handler U) : Prop :=
  exists f, forall v e u, h v e u = (f v e, u).

Definition pure_op (o : Pipe.op U) : Prop :=
  match o with
  | Pipe.OpMap fn | Pipe.OpFlatMap fn | Pipe.OpFilter fn | Pipe.OpTap fn =>
      pure_callable fn
  | Pipe.OpDedupe (Some key) _ => pure_callable key
  | Pipe.OpRetryMap fn _ _ _ => pure_callable fn
  | Pipe.OpCatch fn on_error _ => pure_callable fn /\ pure_handler on_error
  | _ => True
  end.

Definition pure_frame fr : Prop :=
  match fr with
  | Pipe.FMap fn | Pipe.FFlatMap fn _ | Pipe.FFilter fn | Pipe.FTap fn =>
      pure_callable fn
  | Pipe.FDedupe (Some key) _ _ => pure_callable key
  | Pipe.FRetryMap fn _ _ _ => pure_callable fn
  | Pipe.FCatch fn on_error _ => pure_callable fn /\ pure_handler on_error
  | _ => True
  end.

Definition pure_sink (sink : option (Pipe.callable U)) : Prop :=
  match sink with
  | Some f => pure_callable f
  | None => True
  end.

(** A sink that never raises. *)
Definition quiet_sink (sink : option (Pipe.callable U)) : Prop :=
  match sink with
  | Some f => forall v u, exists v' u', f v u = (Ok v', u')
  | None => True
  end.

(** The exception [sink(item)] raises, if any. *)
Definition sink_raises (sink : option (Pipe.callable U)) (item : value)
    (u : U) : option exn :=
  match sink with
  | Some f =>
      match fst (f item u) with
      | Ok _ => None
      | Raise e => Some e
      end
  | None => None
  end.

(** Two sinks that raise on the same items, whatever the store is. *)
Definition sinks_agree (sinkA sinkB : option (Pipe.callable U)) : Prop :=
  forall item uA uB, sink_raises sinkA item uA = sink_raises sinkB item uB.

(** Two generators of the same operator in the same state, except for the
    time [rate_limit] remembers. *)
Definition same_frame (a b : Pipe.frame U) : Prop :=
  match a, b with
  | Pipe.FRateLimit m _, Pipe.FRateLimit m' _ => m = m'
  | Pipe.FRateLimit _ _, _ | _, Pipe.FRateLimit _ _ => False
  | _, _ => a = b
  end.

Definition same_chain (fsA fsB : list (Pipe.frame U)) : Prop :=
  Forall2 same_frame fsA fsB /\ Forall pure_frame fsA.

(** A source generator whose answers do not depend on the world. *)
Definition restartable (sg : Pipe.srcgen) : Prop :=
  match sg with
  | Pipe.SrcGen s _ => reiterable s = true
  | Pipe.SrcDone => True
  end.

Definition same_result (a b : Pipe.gen_result U) : Prop :=
  let '(sigA, fsA, sgA, stA) := a in
  let '(sigB, fsB, sgB, stB) := b in
  sigA = sigB /\ same_chain fsA fsB /\ sgA = sgB /\ restartable sgA
  /\ Pipe.stats stA = Pipe.stats stB.

Definition same_answer (a b : option (Pipe.gen_result U)) : Prop :=
  match a, b with
  | Some x, Some y => same_result x y
  | None, None => True
  | _, _ => False
  end.

(** [recA] and [recB] agree on chains that agree. *)
Definition same_rec
    (recA recB : list (Pipe.frame U) -> Pipe.srcgen -> Pipe.state U ->
                 option (Pipe.gen_result U)) : Prop :=
  forall fsA fsB sg stA stB,
    same_chain fsA fsB -> restartable sg ->
    Pipe.stats stA = Pipe.stats stB ->
    same_answer (recA fsA sg stA) (recB fsB sg stB).

(** The five counters of a statistics record, without [duration]. *)
Definition counters (s : RunStats) : Z * Z * Z * Z * Z :=
  (processed s, emitted s, dropped s, batches s, errors s).

(** What a caller sees of a run, timing and world apart: the counters and
    the items delivered, or the exception. *)
Definition observe (r : option (result (RunStats * list value) * world U))
    : option (result (Z * Z * Z * Z * Z * list value)) :=
  match r with
  | Some (Ok (s, out), _) => Some (Ok (counters s, out))
  | Some (Raise e, _) => Some (Raise e)
  | None => None
  end.

(** *** What a builder method does to the heap *)

(** [r] is a new builder for [p] with [o] appended, and nothing that was in
    the heap has changed: the builder at [self] has the value [p] as before
    and runs as before. *)
Definition appends_one (h : gmap nat (PipeObj.obj U)) (self : nat)
    (p : Pipe.t U) (o : Pipe.op U)
    (r : option (nat * gmap nat (PipeObj.obj U))) : Prop :=
  exists new h',
    r = Some (new, h')
    /\ h !! new = None
    /\ PipeObj.view h' new
       = Some (Pipe.mkPipe (Pipe._source p) (Pipe._ops p ++ [o]))
    /\ (forall a x, h !! a = Some x -> h' !! a = Some x)
    /\ PipeObj.view h' self = Some p
    /\ (forall fuel sink w,
          PipeObj.run fuel h' self sink w = PipeObj.run fuel h self sink w).

End Vocabulary.

(* ------------------------------------------------------------------ *)
(** ** Vocabulary for the other operators *)

Section MoreVocabulary.

Context {U : Type}.

Implicit Types (fs ups : list (Pipe.frame U)) (fr : Pipe.frame U)
  (sg : Pipe.srcgen) (st : Pipe.state U).

(** From [st] to [st']: [emitted] is untouched, no other counter goes
    down, and the clock does not go back. *)
Definition advances st st' : Prop :=
  emitted (Pipe.stats st') = emitted (Pipe.stats st)
  /\ processed (Pipe.stats st) <= processed (Pipe.stats st')
  /\ dropped (Pipe.stats st) <= dropped (Pipe.stats st')
  /\ batches (Pipe.stats st) <= batches (Pipe.stats st')
  /\ errors (Pipe.stats st) <= errors (Pipe.stats st')
  /\ Qle (clock (Pipe.env st)) (clock (Pipe.env st')).

(** [processed] follows the position in the list [xs]: [base] items were
    counted before the iteration started, and a source generator that is
    done has counted the whole list. *)
Definition tracks (xs : list value) (base : Z) sg st : Prop :=
  match sg with
  | Pipe.SrcGen s pos =>
      s = SeqSource xs /\ (pos <= length xs)%nat
      /\ processed (Pipe.stats st) = base + Z.of_nat pos
  | Pipe.SrcDone =>
      processed (Pipe.stats st) = base + Z.of_nat (length xs)
  end.

Definition is_take fr : bool :=
  match fr with
  | Pipe.FTake _ _ => true
  | _ => false
  end.

Definition op_is_take (o : Pipe.op U) : bool :=
  match o with
  | Pipe.OpTake _ => true
  | _ => false
  end.

Definition is_done fr : bool :=
  match fr with
  | Pipe.FDone => true
  | _ => false
  end.

Definition no_take fs : bool := forallb (fun fr => negb (is_take fr)) fs.

Definition no_done fs : bool := forallb (fun fr => negb (is_done fr)) fs.

(** A chain without [take] in which no generator has finished, unless the
    source itself is exhausted. *)
Definition drains fs sg : Prop :=
  no_take fs = true /\ (sg = Pipe.SrcDone \/ no_done fs = true).

(** Such a chain stays one as long as it yields, and stops only when the
    source is exhausted. *)
Definition drained fs sg st (r : Pipe.gen_result U) : Prop :=
  let '(sig, fs1, sg1, st1) := r in
  drains fs sg ->
  no_take fs1 = true
  /\ match sig with
     | Pipe.Yield _ => sg1 = Pipe.SrcDone \/ no_done fs1 = true
     | Pipe.Stop => sg1 = Pipe.SrcDone
     | Pipe.Throw _ => True
     end.

(** *** One-shot iterators *)

(** How far the iterator object [id] has been consumed. *)
Definition cursor (id : nat) (w : world U) : nat :=
  default 0%nat (cursors w !! id).

(** The source is the iterator object [id], and every item taken from it
    so far has been counted in [processed]; [base] is the difference at the
    start. *)
Definition paced (id : nat) (base : Z) sg st : Prop :=
  match sg with
  | Pipe.SrcGen s _ => exists f, s = IterSource id f
  | Pipe.SrcDone => True
  end
  /\ Z.of_nat (cursor id (Pipe.env st)) - processed (Pipe.stats st) = base.

(** [fn(item)] raises an exception of [exceptions], whatever the store
    is. *)
Definition keeps_failing (fn : Pipe.callable U) (exceptions : list exc_class)
    (item : value) : Prop :=
  forall u, exists e u',
    fn item u = (Raise e, u') /\ matches exceptions e = true.

(** The time [retry_map] sleeps from the attempt [attempt] on when every
    attempt fails: [backoff * 2 ** i] after each attempt [i] but the
    last. *)
Definition backoff_total (backoff : Q) (retries attempt : Z) : Q :=
  if Qle_bool backoff (0 # 1) then (0 # 1)%Q
  else (backoff * (inject_Z (2 ^ retries) - inject_Z (2 ^ attempt)))%Q.

(** The operator asks [time.sleep] for durations that it accepts only:
    [rate_limit] never waits longer than [min_interval]. *)
Definition op_sleeps_in_range (o : Pipe.op U) : bool :=
  match o with
  | Pipe.OpRateLimit min_interval => Qle_bool min_interval sleep_max
  | Pipe.OpRetryMap _ retries backoff _ => backoff_in_range backoff retries
  | _ => true
  end.

(** *** Which operator counts what *)

(** The counters an operator can count up. *)
Inductive counter : Type := Dropped | Batches | Errors.

Definition read (c : counter) (s : RunStats) : Z :=
  match c with
  | Dropped => dropped s
  | Batches => batches s
  | Errors => errors s
  end.

(** [filter] and [dedupe] count [dropped], [batch] counts [batches],
    [retry_map] and [catch] count [errors]. *)
Definition owns (c : counter) fr : bool :=
  match c, fr with
  | Dropped, (Pipe.FFilter _ | Pipe.FDedupe _ _ _) => true
  | Batches, Pipe.FBatch _ _ => true
  | Errors, (Pipe.FRetryMap _ _ _ _ | Pipe.FCatch _ _ _) => true
  | _, _ => false
  end.

Definition op_owns (c : counter) (o : Pipe.op U) : bool :=
  owns c (Pipe.start o).

Definition nobody_owns (c : counter) fs : bool :=
  forallb (fun fr => negb (owns c fr)) fs.

Definition untouched (c : counter) fs sg st (r : Pipe.gen_result U) : Prop :=
  let '(_, fs1, _, st1) := r in
  nobody_owns c fs = true ->
  nobody_owns c fs1 = true
  /\ read c (Pipe.stats st1) = read c (Pipe.stats st).

(** A group that [batch] yields: a list that is not empty. *)
Definition is_group (v : value) : bool :=
  match v with
  | VList (_ :: _) => true
  | _ => false
  end.

(** A chain whose outermost generator is that of [batch(size)], running or
    finished, over generators that count no batches. *)
Definition batch_on_top (size : Z) fs : Prop :=
  exists fr ups,
    fs = fr :: ups
    /\ (fr = Pipe.FDone \/ exists buffer, fr = Pipe.FBatch size buffer)
    /\ nobody_owns Batches ups = true.

(** Operators that answer each item of their input with one item, a drop
    or an error, and keep nothing back. *)
Definition one_to_one fr : bool :=
  match fr with
  | Pipe.FMap _ | Pipe.FFilter _ | Pipe.FTap _ | Pipe.FRateLimit _ _
  | Pipe.FDedupe _ _ _ | Pipe.FCatch _ _ _ | Pipe.FDone => true
  | _ => false
  end.

Definition op_one_to_one (o : Pipe.op U) : bool := one_to_one (Pipe.start o).

(** The items pulled from the source that are neither dropped nor counted
    as an error. *)
Definition balance st : Z :=
  processed (Pipe.stats st) - dropped (Pipe.stats st) - errors (Pipe.stats st).

Definition settles fs sg st (r : Pipe.gen_result U) : Prop :=
  let '(sig, fs1, _, st1) := r in
  forallb one_to_one fs = true ->
  match sig with
  | Pipe.Yield _ =>
      forallb one_to_one fs1 = true /\ balance st1 = balance st + 1
  | Pipe.Stop => balance st1 = balance st
  | Pipe.Throw _ => True
  end.

(** What [on_item] does with the item in hand, which [balance] counts
    already. *)
Definition settles_item st (r : Pipe.gen_result U) : Prop :=
  let '(sig, fs1, _, st1) := r in
  match sig with
  | Pipe.Yield _ =>
      forallb one_to_one fs1 = true /\ balance st1 = balance st
  | Pipe.Stop => balance st1 = balance st - 1
  | Pipe.Throw _ => True
  end.

End MoreVocabulary.


(* ------------------------------------------------------------------ *)
(** ** Pipelines of pure callables as functions on lists *)

(** What iterating a generator to its end gives: the items it yields, and
    the exception that ends the iteration, if one does. *)
Definition trace : Type := list value * option exn.

Definition prepend (ys : list value) (t : trace) : trace :=
  (ys ++ fst t, snd t).

Definition emit (v : value) (t : trace) : trace := prepend [v] t.

Definition fails (e : exn) : trace := ([], Some e).

Section Traces.

Context {U : Type}.

(** The store the callables are asked in; a pure callable answers the same
    in every store. *)
Variable u : U.

Definition answer (fn : Pipe.callable U) (v : value) : result value :=
  fst (fn v u).

Definition handles (h : Pipe.handler U) (v : value) (e : exn) : result value :=
  fst (h v e u).

(** Each operator's loop, run over the items [l] of its input, which ends
    with [e]. *)
Fixpoint map_trace (fn : Pipe.callable U) (l : list value) (e : option exn)
    : trace :=
  match l with
  | [] => ([], e)
  | x :: l' =>
      match answer fn x with
      | Ok v => emit v (map_trace fn l' e)
      | Raise ex => fails ex
      end
  end.

Fixpoint flat_map_trace (fn : Pipe.callable U) (l : list value)
    (e : option exn) : trace :=
  match l with
  | [] => ([], e)
  | x :: l' =>
      match answer fn x with
      | Ok v =>
          match iter_value v with
          | Some ys => prepend ys (flat_map_trace fn l' e)
          | None => fails (mkExn TypeError "object is not iterable")
          end
      | Raise ex => fails ex
      end
  end.

Fixpoint filter_trace (fn : Pipe.callable U) (l : list value) (e : option exn)
    : trace :=
  match l with
  | [] => ([], e)
  | x :: l' =>
      match answer fn x with
      | Ok v =>
          if truthy v then emit x (filter_trace fn l' e)
          else filter_trace fn l' e
      | Raise ex => fails ex
      end
  end.

Fixpoint tap_trace (fn : Pipe.callable U) (l : list value) (e : option exn)
    : trace :=
  match l with
  | [] => ([], e)
  | x :: l' =>
      match answer fn x with
      | Ok _ => emit x (tap_trace fn l' e)
      | Raise ex => fails ex
      end
  end.

(** The partial group is delivered when the input ends, and lost when the
    input raises. *)
Fixpoint batch_trace (size : Z) (buffer l : list value) (e : option exn)
    : trace :=
  match l with
  | [] =>
      match e, buffer with
      | None, _ :: _ => ([VList buffer], None)
      | _, _ => ([], e)
      end
  | x :: l' =>
      let buffer1 := buffer ++ [x] in
      if Z.of_nat (length buffer1) =? size
      then emit (VList buffer1) (batch_trace size [] l' e)
      else batch_trace size buffer1 l' e
  end.

Fixpoint dedupe_trace (key : option (Pipe.callable U)) (max_size : option Z)
    (seen l : list value) (e : option exn) : trace :=
  match l with
  | [] => ([], e)
  | x :: l' =>
      match match key with Some k => answer k x | None => Ok x end with
      | Raise ex => fails ex
      | Ok key_value =>
          if hashable key_value then
            if negb (existsb (value_eqb key_value) seen) then
              let seen1 := seen ++ [key_value] in
              let seen2 :=
                match max_size with
                | Some m =>
                    if m <? Z.of_nat (length seen1) then tail seen1 else seen1
                | None => seen1
                end in
              emit x (dedupe_trace key max_size seen2 l' e)
            else dedupe_trace key max_size seen l' e
          else fails (mkExn TypeError "unhashable type")
      end
  end.

(** A pure [fn] fails on every attempt if it fails on the first one, so the
    retries change nothing; without a single attempt, [raise last_exc]
    raises for want of an exception. *)
Fixpoint retry_map_trace (fn : Pipe.callable U) (retries : Z)
    (l : list value) (e : option exn) : trace :=
  match l with
  | [] => ([], e)
  | x :: l' =>
      if retries + 1 <=? 0 then fails (Pipe.py_raise None)
      else
        match answer fn x with
        | Ok v => emit v (retry_map_trace fn retries l' e)
        | Raise ex => fails ex
        end
  end.

(** [take] looks at the next item of its input before it compares the
    count, so an exception of the input comes first. *)
Fixpoint take_trace (n count : Z) (l : list value) (e : option exn) : trace :=
  match l with
  | [] => ([], e)
  | x :: l' =>
      if n <=? count then ([], None)
      else emit x (take_trace n (count + 1) l' e)
  end.

Fixpoint catch_trace (fn : Pipe.callable U) (on_error : Pipe.handler U)
    (exceptions : list exc_class) (l : list value) (e : option exn) : trace :=
  match l with
  | [] => ([], e)
  | x :: l' =>
      match answer fn x with
      | Ok v => emit v (catch_trace fn on_error exceptions l' e)
      | Raise ex =>
          if matches exceptions ex then
            match handles on_error x ex with
            | Ok _ => catch_trace fn on_error exceptions l' e
            | Raise ex' => fails ex'
            end
          else fails ex
      end
  end.

(** What is left of a generator in the state [fr], over an input of which
    [t] is left. *)
Definition frame_trace (fr : Pipe.frame U) (t : trace) : trace :=
  let (l, e) := t in
  match fr with
  | Pipe.FMap fn => map_trace fn l e
  | Pipe.FFlatMap fn pending => prepend pending (flat_map_trace fn l e)
  | Pipe.FFilter fn => filter_trace fn l e
  | Pipe.FTap fn => tap_trace fn l e
  | Pipe.FBatch size buffer => batch_trace size buffer l e
  | Pipe.FRateLimit _ _ => (l, e)
  | Pipe.FDedupe key max_size seen => dedupe_trace key max_size seen l e
  | Pipe.FRetryMap fn retries _ _ => retry_map_trace fn retries l e
  | Pipe.FTake n count => take_trace n count l e
  | Pipe.FCatch fn on_error exceptions =>
      catch_trace fn on_error exceptions l e
  | Pipe.FDone => ([], None)
  end.

Fixpoint chain_trace (fs : list (Pipe.frame U)) (t : trace) : trace :=
  match fs with
  | [] => t
  | fr :: ups => frame_trace fr (chain_trace ups t)
  end.

(** What is left of a list that is being iterated. *)
Definition source_trace (sg : Pipe.srcgen) : trace :=
  match sg with
  | Pipe.SrcGen (SeqSource xs) pos => (drop pos xs, None)
  | _ => ([], None)
  end.

Definition over_list (sg : Pipe.srcgen) : Prop :=
  match sg with
  | Pipe.SrcGen (SeqSource _) _ | Pipe.SrcDone => True
  | _ => False
  end.

Definition rest (fs : list (Pipe.frame U)) (sg : Pipe.srcgen) : trace :=
  chain_trace fs (source_trace sg).

(** The whole pipeline [p] over the list [xs]. *)
Definition denote (p : Pipe.t U) (xs : list value) : trace :=
  chain_trace (Pipe.chain p) (xs, None).

(** [next()] answers with the head of the trace [t], leaves the store
    [u0] alone, and leaves a chain of [n] generators of which the tail of
    [t] is left. *)
Definition follows (n : nat) (u0 : U) (t : trace) (r : Pipe.gen_result U)
    : Prop :=
  let '(sig, fs1, sg1, st1) := r in
  user (Pipe.env st1) = u0
  /\ length fs1 = n /\ Forall pure_frame fs1 /\ over_list sg1
  /\ match t with
     | (x :: l, e) => sig = Pipe.Yield x /\ rest fs1 sg1 = (l, e)
     | ([], None) => sig = Pipe.Stop /\ rest fs1 sg1 = ([], None)
     | ([], Some ex) => sig = Pipe.Throw ex
     end.

End Traces.

(** The loop of [run] over the trace of the pipeline: the sink is called
    on each item in turn, with the store the previous call left. *)
Fixpoint deliver {U : Type} (sink : option (Pipe.callable U))
    (l : list value) (e : option exn) (out : list value) (u : U)
    : result (list value) * U :=
  match l with
  | [] => (match e with None => Ok out | Some ex => Raise ex end, u)
  | x :: l' =>
      match sink with
      | None => deliver sink l' e (out ++ [x]) u
      | Some f =>
          match f x u with
          | (Ok _, u') => deliver sink l' e (out ++ [x]) u'
          | (Raise ex, u') => (Raise ex, u')
          end
      end
  end.

(** What the caller of [run] sees, the statistics apart. *)
Definition delivered {U : Type}
    (res : result (RunStats * list value) * world U)
    : result (list value) * U :=
  (match fst res with
   | Ok (_, out) => Ok out
   | Raise ex => Raise ex
   end, user (snd res)).

(* ------------------------------------------------------------------ *)
(** ** Operators whose callables always return, as list functions *)

Section ListFunctions.

Context {U : Type}.

Variable u : U.

(** The value a callable returns, for one that does return. *)
Definition returned (r : result value) : value :=
  match r with
  | Ok v => v
  | Raise _ => VNone
  end.

Definition value_of (fn : Pipe.callable U) (v : value) : value :=
  returned (answer u fn v).






End ListFunctions.

(* ------------------------------------------------------------------ *)
(** ** One item at a time: callables with side effects *)

Section Itemwise.

Context {U : Type}.

(** What becomes of an item in an operator. *)
Inductive fate : Type :=
  | Emit (v : value)
  | Skip
  | Fail (e : exn).

(** Operators that handle each item on its own. *)
Definition itemwise (fr : Pipe.frame U) : bool :=
  match fr with
  | Pipe.FMap _ | Pipe.FFilter _ | Pipe.FTap _ | Pipe.FRateLimit _ _
  | Pipe.FCatch _ _ _ => true
  | _ => false
  end.

Definition op_itemwise (o : Pipe.op U) : bool := itemwise (Pipe.start o).

(** The body of the operator's loop for the item [x], in the store [u]. *)
Definition thread_frame (fr : Pipe.frame U) (x : value) (u : U) : fate * U :=
  match fr with
  | Pipe.FMap fn =>
      match fn x u with
      | (Ok v, u1) => (Emit v, u1)
      | (Raise e, u1) => (Fail e, u1)
      end
  | Pipe.FFilter fn =>
      match fn x u with
      | (Ok v, u1) => (if truthy v then Emit x else Skip, u1)
      | (Raise e, u1) => (Fail e, u1)
      end
  | Pipe.FTap fn =>
      match fn x u with
      | (Ok _, u1) => (Emit x, u1)
      | (Raise e, u1) => (Fail e, u1)
      end
  | Pipe.FCatch fn on_error exceptions =>
      match fn x u with
      | (Ok v, u1) => (Emit v, u1)
      | (Raise e, u1) =>
          if matches exceptions e then
            match on_error x e u1 with
            | (Ok _, u2) => (Skip, u2)
            | (Raise e', u2) => (Fail e', u2)
            end
          else (Fail e, u1)
      end
  | _ => (Emit x, u)
  end.

(** One item through the whole chain, innermost generator first. *)
Fixpoint thread (fs : list (Pipe.frame U)) (x : value) (u : U) : fate * U :=
  match fs with
  | [] => (Emit x, u)
  | fr :: ups =>
      match thread ups x u with
      | (Emit v, u1) => thread_frame fr v u1
      | other => other
      end
  end.

(** [next()] on the chain over the items [l] that are left of the list:
    the answer, the items left afterwards, and the store. *)
Fixpoint scan (fs : list (Pipe.frame U)) (l : list value) (u : U)
    : Pipe.signal * list value * U :=
  match l with
  | [] => (Pipe.Stop, [], u)
  | x :: l' =>
      match thread fs x u with
      | (Emit v, u1) => (Pipe.Yield v, l', u1)
      | (Skip, u1) => scan fs l' u1
      | (Fail e, u1) => (Pipe.Throw e, l', u1)
      end
  end.

(** The loop of [run]: each item goes through the chain and to the sink
    before the next one is taken from the list. *)
Fixpoint stream (fs : list (Pipe.frame U)) (sink : option (Pipe.callable U))
    (l : list value) (u : U) (out : list value) : result (list value) * U :=
  match l with
  | [] => (Ok out, u)
  | x :: l' =>
      match thread fs x u with
      | (Emit v, u1) =>
          match sink with
          | None => stream fs sink l' u1 (out ++ [v])
          | Some f =>
              match f v u1 with
              | (Ok _, u2) => stream fs sink l' u2 (out ++ [v])
              | (Raise e, u2) => (Raise e, u2)
              end
          end
      | (Skip, u1) => stream fs sink l' u1 out
      | (Fail e, u1) => (Raise e, u1)
      end
  end.

(** [next()] on the chain over the list [xs] from [pos] on does what [scan]
    says, and leaves a chain that treats items as before. *)
Definition scanned (n : nat) (fs : list (Pipe.frame U)) (xs : list value)
    (pos : nat) (st : Pipe.state U) : Prop :=
  let '(sig, l', u') := scan fs (drop pos xs) (user (Pipe.env st)) in
  exists fs1 sg1 st1,
    pulls fs (Pipe.SrcGen (SeqSource xs) pos) st (sig, fs1, sg1, st1)
    /\ user (Pipe.env st1) = u'
    /\ match sig with
       | Pipe.Yield _ =>
           length fs1 = n /\ forallb itemwise fs1 = true
           /\ (forall x u, thread fs1 x u = thread fs x u)
           /\ exists pos', sg1 = Pipe.SrcGen (SeqSource xs) pos'
                           /\ drop pos' xs = l'
       | _ => True
       end.

(** *** Unbounded sources *)






End Itemwise.

(* ------------------------------------------------------------------ *)
(** ** What [catch] keeps and what it hands to [on_error] *)

(** The results of the items on which [f] returns, in order. *)
Fixpoint successes (f : value -> result value) (l : list value)
    : list value :=
  match l with
  | [] => []
  | x :: l' =>
      match f x with
      | Ok v => v :: successes f l'
      | Raise _ => successes f l'
      end
  end.

(** The items on which [f] raises, each with its exception, in order. *)
Fixpoint failures (f : value -> result value) (l : list value)
    : list (value * exn) :=
  match l with
  | [] => []
  | x :: l' =>
      match f x with
      | Ok _ => failures f l'
      | Raise e => (x, e) :: failures f l'
      end
  end.

(** [on_error(item, e)] for each failure in turn. *)
Definition handle_all {U : Type} (on_error : Pipe.handler U)
    (fails : list (value * exn)) (u : U) : U :=
  fold_left (fun u ve => snd (on_error (fst ve) (snd ve) u)) fails u.

(* ------------------------------------------------------------------ *)
(** ** Method chains on builder objects *)

(** [p.m1(...).m2(...)]: each method is called on the builder that the
    method before it returned. *)
Fixpoint add_ops {U : Type} (h : gmap nat (PipeObj.obj U)) (self : nat)
    (os : list (Pipe.op U)) : option (nat * gmap nat (PipeObj.obj U)) :=
  match os with
  | [] => Some (self, h)
  | o :: os' =>
      match PipeObj._add_op h self o with
      | Some (new, h') => add_ops h' new os'
      | None => None
      end
  end.
(* ------------------------------------------------------------------ *)
(** ** Concrete pipelines used to exercise the model *)

Module Examples.

(** A world whose user store is empty, at time 0. *)
Definition w0 : world unit := mkWorld tt (0 # 1)%Q ∅.

Definition ints (l : list Z) : list value := List.map VInt l.

(** A callable without side effects. *)
Definition lift {V : Type} (f : value -> result value) : Pipe.callable V :=
  fun v u => (f v, u).

(** [lambda x: [x, x]] *)
Definition twice {V : Type} : Pipe.callable V :=
  lift (fun v => Ok (VList [v; v])).

(** [lambda x: x % 2 == 0] *)
Definition is_even {V : Type} : Pipe.callable V :=
  lift (fun v =>
          match v with
          | VInt z => Ok (VInt (if z mod 2 =? 0 then 1 else 0))
          | _ => Raise (mkExn TypeError "unsupported operand type(s) for %")
          end).

(** [lambda x: x < k] *)
Definition less_than {V : Type} (k : Z) : Pipe.callable V :=
  lift (fun v =>
          match v with
          | VInt z => Ok (VInt (if z <? k then 1 else 0))
          | _ => Raise (mkExn TypeError "'<' not supported")
          end).

(** [itertools.count()]-like contents: 0, 1, 2, ... *)
Definition naturals : nat -> value := fun i => VInt (Z.of_nat i).

(** [pipe(range(7)).filter(lambda x: x % 2 == 0).batch(3).take(1)] *)
Definition first_even_group {V : Type} : Pipe.t V :=
  Pipe.take
    (Pipe.batch
       (Pipe.filter (Pipe.pipe (SeqSource (ints [0; 1; 2; 3; 4; 5; 6])))
                    is_even) 3) 1.

(** [pipe(itertools.count()).filter(lambda x: x < 2).take(2)] *)
Definition two_small {V : Type} : Pipe.t V :=
  Pipe.take (Pipe.filter (Pipe.pipe (FnSource naturals)) (less_than 2)) 2.

(** The [flaky] of the tests: the store counts the calls; the first two
    calls raise [ValueError], later ones return [x * 10]. *)
Definition flaky : Pipe.callable Z :=
  fun v calls =>
    if calls + 1 <? 3
    then (Raise (mkExn ValueError "not yet"), calls + 1)
    else (match v with
          | VInt z => Ok (VInt (z * 10))
          | _ => Raise (mkExn TypeError "can't multiply")
          end, calls + 1).

(** A world for [traced flaky]: no call made, nothing recorded. *)
Definition w_traced : world (Z * list (value * result value)) :=
  mkWorld (0, []) (0 # 1)%Q ∅.

(** A sink that drops what it is given: [lambda item: None], on the store
    of [flaky]. *)
Definition discard : Pipe.callable Z :=
  fun _ calls => (Ok VNone, calls).

(** [lambda x: x * 3] *)
Definition triple {V : Type} : Pipe.callable V :=
  lift (fun v =>
          match v with
          | VInt z => Ok (VInt (z * 3))
          | _ => Raise (mkExn TypeError "can't multiply")
          end).

(** [pipe(range(10)).filter(lambda x: x % 2 == 0).map(lambda x: x * 3).batch(2)],
    as in the tests. *)
Definition even_tripled_pairs {V : Type} : Pipe.t V :=
  Pipe.batch
    (Pipe.map
       (Pipe.filter
          (Pipe.pipe (SeqSource (ints [0; 1; 2; 3; 4; 5; 6; 7; 8; 9]))) is_even)
       triple) 2.

(** [pipe(iter([1, 2, 3]))]: the source is an iterator object. *)
Definition over_iterator {V : Type} : Pipe.t V :=
  Pipe.pipe (IterSource 0 (fun i => ints [1; 2; 3] !! i)).

(** *** The callables of [tests/test_pipe.py] *)

(** A world whose user store is a Python list, empty at first. *)
Definition w_list : world (list value) := mkWorld [] (0 # 1)%Q ∅.

(** [some_list.append], on the list kept in the store. *)
Definition append : Pipe.callable (list value) :=
  fun v l => (Ok VNone, l ++ [v]).

(** [lambda item, _e: errors.append(item)] *)
Definition append_item : Pipe.handler (list value) :=
  fun v _ l => (Ok VNone, l ++ [v]).

Definition on_ints {V : Type} (f : Z -> Z) : Pipe.callable V :=
  fun v u =>
    (match v with
     | VInt z => Ok (VInt (f z))
     | _ => Raise (mkExn TypeError "unsupported operand type(s)")
     end, u).

(** [fail_on_2] *)
Definition fail_on_2 : Pipe.callable (list value) :=
  fun v u =>
    (match v with
     | VInt 2 => Raise (mkExn ValueError "bad")
     | VInt z => Ok (VInt (z * 10))
     | _ => Raise (mkExn TypeError "unsupported operand type(s)")
     end, u).

Definition always_raise {V : Type} (c : exc_class) (msg : string)
    : Pipe.callable V :=
  fun _ u => (Raise (mkExn c msg), u).

Definition ignore_error {V : Type} : Pipe.handler V :=
  fun _ _ u => (Ok VNone, u).

(** [lambda x: [] if x == 2 else [x]] *)
Definition unless_2 : Pipe.callable (list value) :=
  fun v u => (Ok (VList match v with VInt 2 => [] | _ => [v] end), u).

(** [range(n)] *)
Definition range (n : nat) : source :=
  SeqSource (List.map (fun i => VInt (Z.of_nat i)) (seq 0 n)).

(** What a test looks at: the counters and the items that reached the
    sink, or the exception; and the user store afterwards. *)
Definition outcome {V : Type}
    (r : option (result (RunStats * list value) * world V))
    : option (result (Z * Z * Z * Z * Z * list value) * V) :=
  match r with
  | Some (Ok (s, out), w) =>
      Some (Ok (processed s, emitted s, dropped s, batches s, errors s, out),
            user w)
  | Some (Raise e, w) => Some (Raise e, user w)
  | None => None
  end.

(** The heap after [p = pipe([1, 2, 3])], with the address of [p]. *)
Definition one_builder : nat * gmap nat (PipeObj.obj unit) :=
  PipeObj.pipe ∅ (SeqSource (ints [1; 2; 3])).

(** [pipe([1, 2, 3, 2, 4]).catch(fail_on_2, lambda item, _e:
    errors.append(item)).filter(lambda x: x < 35)] *)
Definition caught_and_filtered : Pipe.t (list value) :=
  Pipe.filter
    (Pipe.catch (Pipe.pipe (SeqSource (ints [1; 2; 3; 2; 4])))
                fail_on_2 append_item [ValueError])
    (less_than 35).



(** [pipe([1, 2, 3]).tap(seen.append).map(lambda x: x * 10)] *)
Definition tapped_then_scaled : Pipe.t (list value) :=
  Pipe.map (Pipe.tap (Pipe.pipe (SeqSource (ints [1; 2; 3]))) append)
           (on_ints (fun z => z * 10)).

(** [pipe([1, 2, 3]).map(fail_on_2)] *)
Definition scaled_but_2 : Pipe.t (list value) :=
  Pipe.map (Pipe.pipe (SeqSource (ints [1; 2; 3]))) fail_on_2.



End Examples.

(* ------------------------------------------------------------------ *)
(** ** More fuel never changes a result *)

Section Fuel.

Context {U : Type}.

Implicit Types (fs ups : list (Pipe.frame U)) (sg : Pipe.srcgen)
  (st : Pipe.state U) (r : Pipe.gen_result U).

Lemma on_item_extends rec1 rec2 fr item ups sg st r :
  extends rec1 rec2 ->
  Pipe.on_item rec1 fr item ups sg st = Some r ->
  Pipe.on_item rec2 fr item ups sg st = Some r.
Proof.
  intros Hext. unfold Pipe.on_item.
  destruct fr; try exact (fun H => H).
  - destruct (Pipe.call fn item st) as [[v|e] st1]; [|exact (fun H => H)].
    destruct (iter_value v); [apply Hext|exact (fun H => H)].
  - destruct (Pipe.call fn item st) as [[v|e] st1]; [|exact (fun H => H)].
    destruct (truthy v); [exact (fun H => H)|apply Hext].
  - cbv zeta. destruct (_ =? size); [exact (fun H => H)|apply Hext].
  - destruct (match key with Some k => _ | None => _ end) as [[kv|e] st1];
      [|exact (fun H => H)].
    destruct (hashable kv); [|exact (fun H => H)].
    destruct (negb _); [exact (fun H => H)|apply Hext].
  - destruct (Pipe.call fn item st) as [[v|e] st1]; [exact (fun H => H)|].
    destruct (matches exceptions e); [|exact (fun H => H)].
    destruct (Pipe.call_handler on_error item e st1) as [[v|e'] st2];
      [apply Hext|exact (fun H => H)].
Qed.

Lemma step_frame_extends rec1 rec2 fr ups sg st r :
  extends rec1 rec2 ->
  Pipe.step_frame rec1 fr ups sg st = Some r ->
  Pipe.step_frame rec2 fr ups sg st = Some r.
Proof.
  intros Hext. unfold Pipe.step_frame.
  assert (Hgen :
    match rec1 ups sg st with
    | Some (Pipe.Yield item, ups1, sg1, st1) =>
        Pipe.on_item rec1 fr item ups1 sg1 st1
    | Some (Pipe.Stop, ups1, sg1, st1) => Some (Pipe.on_stop fr ups1 sg1 st1)
    | Some (Pipe.Throw e, ups1, sg1, st1) =>
        Some (Pipe.Throw e, Pipe.FDone :: ups1, sg1, st1)
    | None => None
    end = Some r ->
    match rec2 ups sg st with
    | Some (Pipe.Yield item, ups1, sg1, st1) =>
        Pipe.on_item rec2 fr item ups1 sg1 st1
    | Some (Pipe.Stop, ups1, sg1, st1) => Some (Pipe.on_stop fr ups1 sg1 st1)
    | Some (Pipe.Throw e, ups1, sg1, st1) =>
        Some (Pipe.Throw e, Pipe.FDone :: ups1, sg1, st1)
    | None => None
    end = Some r).
  { destruct (rec1 ups sg st) as [[[[sig ups1] sg1] st1]|] eqn:E1;
      [|discriminate].
    rewrite (Hext _ _ _ _ E1).
    destruct sig; try exact (fun H => H).
    apply on_item_extends, Hext. }
  destruct fr; try exact Hgen; try exact (fun H => H).
  destruct pending; [exact Hgen|exact (fun H => H)].
Qed.

Lemma pull_S fuel fs sg st r :
  Pipe.pull fuel fs sg st = Some r -> Pipe.pull (S fuel) fs sg st = Some r.
Proof.
  revert fs sg st r.
  induction fuel as [|fuel IH]; intros fs sg st r; [discriminate|].
  destruct fs as [|fr ups]; [exact (fun H => H)|].
  change (Pipe.step_frame (Pipe.pull fuel) fr ups sg st = Some r ->
          Pipe.step_frame (Pipe.pull (S fuel)) fr ups sg st = Some r).
  apply step_frame_extends. exact IH.
Qed.

Lemma pull_mono fuel fuel' fs sg st r :
  (fuel <= fuel')%nat ->
  Pipe.pull fuel fs sg st = Some r -> Pipe.pull fuel' fs sg st = Some r.
Proof.
  induction 1 as [|m _ IH]; [exact (fun H => H)|].
  intros H. apply pull_S, IH, H.
Qed.

Lemma run_loop_S fuel sink fs sg st out res :
  Pipe.run_loop fuel sink fs sg st out = Some res ->
  Pipe.run_loop (S fuel) sink fs sg st out = Some res.
Proof.
  revert fs sg st out.
  induction fuel as [|fuel IH]; intros fs sg st out; [discriminate|].
  intros H. simpl in H.
  destruct (Pipe.pull fuel fs sg st) as [[[[sig fs1] sg1] st1]|] eqn:E;
    [|discriminate].
  change (match Pipe.pull (S fuel) fs sg st with
          | Some (Pipe.Yield item, fs1, sg1, st1) =>
              let st2 := Pipe.with_stats Pipe.inc_emitted st1 in
              match sink with
              | Some f =>
                  match Pipe.call f item st2 with
                  | (Ok _, st3) =>
                      Pipe.run_loop (S fuel) sink fs1 sg1 st3 (out ++ [item])
                  | (Raise e, st3) => Some (Raise e, st3)
                  end
              | None => Pipe.run_loop (S fuel) sink fs1 sg1 st2 (out ++ [item])
              end
          | Some (Pipe.Stop, _, _, st1) => Some (Ok out, st1)
          | Some (Pipe.Throw e, _, _, st1) => Some (Raise e, st1)
          | None => None
          end = Some res).
  rewrite (pull_S _ _ _ _ _ E).
  destruct sig; try exact H.
  cbv zeta in *. destruct sink as [f|].
  - destruct (Pipe.call f item _) as [[v|e] st3]; [apply IH, H|exact H].
  - apply IH, H.
Qed.

Lemma run_loop_mono fuel fuel' sink fs sg st out res :
  (fuel <= fuel')%nat ->
  Pipe.run_loop fuel sink fs sg st out = Some res ->
  Pipe.run_loop fuel' sink fs sg st out = Some res.
Proof.
  induction 1 as [|m _ IH]; [exact (fun H => H)|].
  intros H. apply run_loop_S, IH, H.
Qed.

Lemma run_mono fuel fuel' (p : Pipe.t U) sink w res :
  (fuel <= fuel')%nat ->
  Pipe.run fuel p sink w = Some res -> Pipe.run fuel' p sink w = Some res.
Proof.
  intros Hle. unfold Pipe.run.
  destruct (Pipe.run_loop fuel _ _ _ _ _) as [[ro st]|] eqn:E; [|discriminate].
  rewrite (run_loop_mono _ _ _ _ _ _ _ _ Hle E). exact (fun H => H).
Qed.

End Fuel.

(* ------------------------------------------------------------------ *)
(** ** Reasoning about [pull] by cases on the outermost generator *)

Section PullInduction.

Context {U : Type}.

(** A property of every answer of [pull] follows from the property for
    [_source()] and its preservation by one generator on top of a chain
    that has it. *)
Lemma pull_invariant
    (P : list (Pipe.frame U) -> Pipe.srcgen -> Pipe.state U ->
         Pipe.gen_result U -> Prop) :
  (forall sg st,
     P [] sg st (let '(sig, sg1, st1) := Pipe.pull_source sg st in
                 (sig, [], sg1, st1))) ->
  (forall rec,
     (forall fs sg st r, rec fs sg st = Some r -> P fs sg st r) ->
     forall fr ups sg st r,
       Pipe.step_frame rec fr ups sg st = Some r -> P (fr :: ups) sg st r) ->
  forall fuel fs sg st r, Pipe.pull fuel fs sg st = Some r -> P fs sg st r.
Proof.
  intros Hsrc Hstep.
  induction fuel as [|fuel IH]; intros fs sg st r H; [discriminate|].
  destruct fs as [|fr ups].
  - simpl in H. specialize (Hsrc sg st).
    destruct (Pipe.pull_source sg st) as [[sig sg1] st1].
    injection H as <-. exact Hsrc.
  - apply (Hstep (Pipe.pull fuel) IH). exact H.
Qed.

Lemma call_stats (fn : Pipe.callable U) item st :
  Pipe.stats (snd (Pipe.call fn item st)) = Pipe.stats st.
Proof. unfold Pipe.call. destruct (fn item _); reflexivity. Qed.

Lemma call_handler_stats (h : Pipe.handler U) item e st :
  Pipe.stats (snd (Pipe.call_handler h item e st)) = Pipe.stats st.
Proof. unfold Pipe.call_handler. destruct (h item e _); reflexivity. Qed.

Lemma retry_loop_counts (fn : Pipe.callable U) retries backoff excs item
    k attempt last st :
  let st' :=
    snd (Pipe.retry_loop fn retries backoff excs item k attempt last st) in
  processed (Pipe.stats st') = processed (Pipe.stats st) /\
  emitted (Pipe.stats st') = emitted (Pipe.stats st).
Proof.
  revert attempt last st.
  induction k as [|k IH]; intros attempt last st; [split; reflexivity|].
  simpl. pose proof (call_stats fn item st) as Hc.
  destruct (Pipe.call fn item st) as [[v|e] st1]; simpl in Hc.
  - simpl. now rewrite Hc.
  - destruct (matches excs e).
    + destruct (IH (attempt + 1) (Some e)
                   (if (attempt <? retries) && negb (Qle_bool backoff (0 # 1))
                    then Pipe.sleep (Qmult backoff (inject_Z (2 ^ attempt)))
                           (Pipe.with_stats Pipe.inc_errors st1)
                    else Pipe.with_stats Pipe.inc_errors st1)) as [H1 H2].
      rewrite H1, H2.
      destruct (_ && _); simpl; now rewrite Hc.
    + simpl. now rewrite Hc.
Qed.

End PullInduction.

(* ------------------------------------------------------------------ *)
(** ** Delivered items against items pulled from the source *)

Section Accounting.

Context {U : Type}.

Implicit Types (fs ups : list (Pipe.frame U)) (fr : Pipe.frame U)
  (sg : Pipe.srcgen) (st : Pipe.state U).

Lemma holds_group_range fr : 0 <= holds_group fr <= 1.
Proof. destruct fr; simpl; try lia. destruct buffer; lia. Qed.

Lemma pull_source_pays sg st :
  pays [] sg st (let '(sig, sg1, st1) := Pipe.pull_source sg st in
                 (sig, [], sg1, st1)).
Proof.
  unfold Pipe.pull_source.
  destruct sg as [s pos|]; [destruct s as [xs|f|id f]|]; simpl.
  - destruct (xs !! pos); simpl; intros _; (split; [auto|split; lia]).
  - intros _; (split; [auto|split; lia]).
  - destruct (f _); simpl; intros _; (split; [auto|split; lia]).
  - intros _; (split; [auto|split; lia]).
Qed.

Ltac use_call fn item st :=
  let Hc := fresh "Hc" in
  pose proof (call_stats fn item st) as Hc;
  destruct (Pipe.call fn item st) as [[?v|?e] ?st]; simpl in Hc.

Ltac stats_facts :=
  repeat match goal with
  | H : Pipe.stats _ = Pipe.stats _ |- _ =>
      pose proof (f_equal processed H); pose proof (f_equal emitted H);
      clear H
  end.

(** Close a case that answers directly. *)
Ltac pays_now H :=
  injection H as <-; intros Hnf; stats_facts; simpl in *;
  split; [exact Hnf|split; lia].

(** Close a case that goes round the loop once more. *)
Ltac pays_rec Hrec H r :=
  apply Hrec in H; destruct r as [[[?sig ?fs] ?sg] ?st];
  intros Hnf; destruct (H Hnf) as (?H1 & ?H2 & ?H3);
  stats_facts; simpl in *; split; [assumption|split; lia].

Lemma on_item_pays rec fr item ups sg st r :
  (forall fs sg st r, rec fs sg st = Some r -> pays fs sg st r) ->
  Pipe.on_item rec fr item ups sg st = Some r ->
  let '(sig, fs1, sg1, st1) := r in
  no_flat_map (fr :: ups) = true ->
  no_flat_map fs1 = true /\
  emitted (Pipe.stats st1) = emitted (Pipe.stats st) /\
  processed (Pipe.stats st) - credit ups - 1 + yields sig
  <= processed (Pipe.stats st1) - credit fs1.
Proof.
  intros Hrec H. unfold Pipe.on_item in H.
  destruct fr.
  - use_call fn item st; pays_now H.
  - destruct r as [[[sig fs1] sg1] st1]. discriminate.
  - use_call fn item st; [destruct (truthy v)|];
      [pays_now H|pays_rec Hrec H r|pays_now H].
  - use_call fn item st; pays_now H.
  - cbv zeta in H. destruct (_ =? size); [pays_now H|].
    apply Hrec in H. destruct r as [[[sig fs1] sg1] st1].
    intros Hnf. destruct (H Hnf) as (H1 & H2 & H3). split; [exact H1|].
    simpl in H3. destruct (buffer ++ [item]) eqn:E.
    + destruct buffer; discriminate.
    + split; lia.
  - injection H as <-; intros Hnf; simpl in *. split; [exact Hnf|].
    destruct last_time as [t|]; [|split; lia].
    destruct (negb _); simpl; split; lia.
  - assert (Hk : forall kv st1,
        match key with
        | Some k => Pipe.call k item st
        | None => (Ok item, st)
        end = (kv, st1) -> Pipe.stats st1 = Pipe.stats st).
    { intros kv st1 E. destruct key as [k|].
      - pose proof (call_stats k item st) as Hc. rewrite E in Hc. exact Hc.
      - injection E as _ <-. reflexivity. }
    destruct (match key with Some k => _ | None => _ end) as [[kv|e] st1];
      specialize (Hk _ _ eq_refl).
    + destruct (hashable kv); [destruct (negb _)|];
        [pays_now H|pays_rec Hrec H r|pays_now H].
    + pays_now H.
  - pose proof (retry_loop_counts fn retries backoff exceptions item
                  (Z.to_nat (retries + 1)) 0 None st) as Hr.
    destruct (Pipe.retry_loop _ _ _ _ _ _ _ _ _) as [sig st1].
    simpl in Hr. destruct Hr as [Hr1 Hr2].
    destruct sig; pays_now H.
  - destruct (n <=? count); pays_now H.
  - use_call fn item st; [pays_now H|].
    destruct (matches exceptions e); [|pays_now H].
    pose proof (call_handler_stats on_error item e st0) as Hh.
    destruct (Pipe.call_handler on_error item e st0) as [[v|e'] st2];
      simpl in Hh; [pays_rec Hrec H r|pays_now H].
  - pays_now H.
Qed.

Lemma step_frame_pays rec :
  (forall fs sg st r, rec fs sg st = Some r -> pays fs sg st r) ->
  forall fr ups sg st r,
    Pipe.step_frame rec fr ups sg st = Some r -> pays (fr :: ups) sg st r.
Proof.
  intros Hrec fr ups sg st r H.
  assert (Hgen :
    match rec ups sg st with
    | Some (Pipe.Yield item, ups1, sg1, st1) =>
        Pipe.on_item rec fr item ups1 sg1 st1
    | Some (Pipe.Stop, ups1, sg1, st1) => Some (Pipe.on_stop fr ups1 sg1 st1)
    | Some (Pipe.Throw e, ups1, sg1, st1) =>
        Some (Pipe.Throw e, Pipe.FDone :: ups1, sg1, st1)
    | None => None
    end = Some r -> pays (fr :: ups) sg st r).
  { clear H. intros H.
    destruct (rec ups sg st) as [[[[sig ups1] sg1] st1]|] eqn:E;
      [|discriminate].
    apply Hrec in E. unfold pays in E.
    pose proof (holds_group_range fr) as Hfr.
    assert (Hk : no_flat_map (fr :: ups) = true ->
                 no_flat_map (fr :: ups1) = true /\
                 emitted (Pipe.stats st1) = emitted (Pipe.stats st) /\
                 processed (Pipe.stats st) - credit ups + yields sig
                 <= processed (Pipe.stats st1) - credit ups1).
    { intros Hnf. simpl in Hnf. apply andb_prop in Hnf as [Hnf1 Hnf2].
      destruct (E Hnf2) as (E1 & E2 & E3).
      split; [simpl; now rewrite Hnf1, E1|split; assumption]. }
    clear E. destruct sig.
    - apply on_item_pays in H; [|exact Hrec].
      destruct r as [[[sig fs1] sg1'] st1']. intros Hnf.
      destruct (Hk Hnf) as (K1 & K2 & K3).
      destruct (H K1) as (H1 & H2 & H3).
      split; [exact H1|]. simpl in *. split; lia.
    - injection H as <-. unfold Pipe.on_stop, pays.
      destruct fr as [| | | |size buffer| | | | | |];
        [| | | |destruct buffer| | | | | |];
        intros Hnf; destruct (Hk Hnf) as (K1 & K2 & K3); simpl in *;
        try discriminate; (split; [exact K1|split; lia]).
    - injection H as <-. intros Hnf.
      destruct (Hk Hnf) as (K1 & K2 & K3).
      simpl in K1. apply andb_prop in K1 as [_ K1].
      split; [exact K1|simpl in *; split; lia]. }
  unfold Pipe.step_frame in H.
  destruct fr; try (apply Hgen; exact H).
  - destruct r as [[[sig fs1] sg1] st1]. intros Hnf. discriminate.
  - injection H as <-. simpl. intros Hnf. split; [exact Hnf|split; lia].
Qed.

Lemma pull_pays fuel fs sg st r :
  Pipe.pull fuel fs sg st = Some r -> pays fs sg st r.
Proof.
  apply (pull_invariant pays).
  - exact pull_source_pays.
  - exact step_frame_pays.
Qed.

Lemma credit_nonneg fs : 0 <= credit fs.
Proof.
  induction fs as [|fr fs IH]; simpl; [lia|].
  pose proof (holds_group_range fr). lia.
Qed.

(** The loop of [run] keeps [emitted] below what the source has paid. *)
Lemma run_loop_emitted_le fuel sink fs sg st out out' st' :
  no_flat_map fs = true ->
  emitted (Pipe.stats st) <= processed (Pipe.stats st) - credit fs ->
  Pipe.run_loop fuel sink fs sg st out = Some (Ok out', st') ->
  emitted (Pipe.stats st') <= processed (Pipe.stats st').
Proof.
  revert fs sg st out.
  induction fuel as [|fuel IH]; intros fs sg st out Hnf Hle H; [discriminate|].
  simpl in H.
  destruct (Pipe.pull fuel fs sg st) as [[[[sig fs1] sg1] st1]|] eqn:E;
    [|discriminate].
  apply pull_pays in E. destruct (E Hnf) as (Hnf1 & He & Hp). simpl in Hp.
  pose proof (credit_nonneg fs1) as Hc1.
  destruct sig; simpl in Hp.
  - cbv zeta in H. destruct sink as [f|].
    + pose proof (call_stats f item (Pipe.with_stats Pipe.inc_emitted st1)) as Hc.
      destruct (Pipe.call f item _) as [[v|e] st3]; [|discriminate].
      simpl in Hc. apply IH in H; [exact H|exact Hnf1|].
      rewrite Hc. simpl. lia.
    + apply IH in H; [exact H|exact Hnf1|]. simpl. lia.
  - injection H as _ <-. lia.
  - discriminate.
Qed.

Lemma chain_no_flat_map (p : Pipe.t U) :
  forallb (fun o => negb (op_is_flat_map o)) (Pipe._ops p) = true ->
  no_flat_map (Pipe.chain p) = true.
Proof.
  unfold Pipe.chain, no_flat_map. rewrite !forallb_forall.
  intros H fr Hin. apply in_rev, in_map_iff in Hin as (o & <- & Hin).
  specialize (H o Hin). destruct o; simpl in *; congruence.
Qed.

End Accounting.

(* ------------------------------------------------------------------ *)
(** ** Rules for [pulls] and [runs] *)

Section BigStep.

Context {U : Type}.

Implicit Types (fs ups : list (Pipe.frame U)) (fr : Pipe.frame U)
  (sg : Pipe.srcgen) (st : Pipe.state U).

Lemma step_frame_waits rec fr ups sg st :
  waits fr = true ->
  Pipe.step_frame rec fr ups sg st =
  match rec ups sg st with
  | None => None
  | Some (Pipe.Yield item, ups1, sg1, st1) =>
      Pipe.on_item rec fr item ups1 sg1 st1
  | Some (Pipe.Stop, ups1, sg1, st1) => Some (Pipe.on_stop fr ups1 sg1 st1)
  | Some (Pipe.Throw e, ups1, sg1, st1) =>
      Some (Pipe.Throw e, Pipe.FDone :: ups1, sg1, st1)
  end.
Proof.
  destruct fr; try reflexivity; try discriminate.
  destruct pending; [reflexivity|discriminate].
Qed.

Lemma pulls_source sg st :
  pulls [] sg st (let '(sig, sg1, st1) := Pipe.pull_source sg st in
                  (sig, [], sg1, st1)).
Proof. exists 1%nat. simpl. now destruct (Pipe.pull_source sg st) as [[? ?] ?]. Qed.

Lemma pulls_on_yield fr ups sg st item ups1 sg1 st1 r :
  waits fr = true ->
  pulls ups sg st (Pipe.Yield item, ups1, sg1, st1) ->
  (exists fuel, Pipe.on_item (Pipe.pull fuel) fr item ups1 sg1 st1 = Some r) ->
  pulls (fr :: ups) sg st r.
Proof.
  intros Hw [f1 H1] [f2 H2]. exists (S (Nat.max f1 f2)).
  simpl. rewrite step_frame_waits by exact Hw.
  rewrite (pull_mono f1 (Nat.max f1 f2) _ _ _ _ (Nat.le_max_l _ _) H1).
  eapply on_item_extends; [|exact H2].
  intros fs' sg' st' r'. apply pull_mono, Nat.le_max_r.
Qed.

Lemma pulls_on_stop fr ups sg st ups1 sg1 st1 :
  waits fr = true ->
  pulls ups sg st (Pipe.Stop, ups1, sg1, st1) ->
  pulls (fr :: ups) sg st (Pipe.on_stop fr ups1 sg1 st1).
Proof.
  intros Hw [f1 H1]. exists (S f1).
  simpl. rewrite step_frame_waits by exact Hw. now rewrite H1.
Qed.

Lemma pulls_on_throw fr ups sg st e ups1 sg1 st1 :
  waits fr = true ->
  pulls ups sg st (Pipe.Throw e, ups1, sg1, st1) ->
  pulls (fr :: ups) sg st (Pipe.Throw e, Pipe.FDone :: ups1, sg1, st1).
Proof.
  intros Hw [f1 H1]. exists (S f1).
  simpl. rewrite step_frame_waits by exact Hw. now rewrite H1.
Qed.

(** An exception passes through every generator that is waiting for its
    input. *)
Lemma pulls_throw_through (outer inner : list (Pipe.frame U))
    sg st e inner' sg' st' :
  Forall (fun fr => waits fr = true) outer ->
  pulls inner sg st (Pipe.Throw e, inner', sg', st') ->
  pulls (outer ++ inner) sg st
        (Pipe.Throw e, List.map (fun _ => Pipe.FDone) outer ++ inner', sg', st').
Proof.
  intros Hw Hp. induction Hw as [|fr outer Hfr _ IH]; [exact Hp|].
  simpl. apply pulls_on_throw; assumption.
Qed.

Lemma pulls_done ups sg st :
  pulls (Pipe.FDone :: ups) sg st (Pipe.Stop, Pipe.FDone :: ups, sg, st).
Proof. exists 1%nat. reflexivity. Qed.

Lemma pulls_functional fs sg st r r' :
  pulls fs sg st r -> pulls fs sg st r' -> r = r'.
Proof.
  intros [f1 H1] [f2 H2].
  apply (pull_mono f1 (Nat.max f1 f2)) in H1; [|apply Nat.le_max_l].
  apply (pull_mono f2 (Nat.max f1 f2)) in H2; [|apply Nat.le_max_r].
  congruence.
Qed.

Lemma runs_stop sink fs sg st out fs1 sg1 st1 :
  pulls fs sg st (Pipe.Stop, fs1, sg1, st1) ->
  runs sink fs sg st out (Ok out, st1).
Proof. intros [f H]. exists (S f). simpl. now rewrite H. Qed.

Lemma runs_throw sink fs sg st out e fs1 sg1 st1 :
  pulls fs sg st (Pipe.Throw e, fs1, sg1, st1) ->
  runs sink fs sg st out (Raise e, st1).
Proof. intros [f H]. exists (S f). simpl. now rewrite H. Qed.

Lemma runs_yield fs sg st out item fs1 sg1 st1 res :
  pulls fs sg st (Pipe.Yield item, fs1, sg1, st1) ->
  runs None fs1 sg1 (Pipe.with_stats Pipe.inc_emitted st1) (out ++ [item]) res ->
  runs None fs sg st out res.
Proof.
  intros [f1 H1] [f2 H2]. exists (S (Nat.max f1 f2)). simpl.
  rewrite (pull_mono f1 (Nat.max f1 f2) _ _ _ _ (Nat.le_max_l _ _) H1).
  apply (run_loop_mono f2); [apply Nat.le_max_r|exact H2].
Qed.

(** A loop that starts by a [next()] which only repeats a later one ends
    as the later loop does. *)
Lemma runs_after_loop sink fs sg st fs' sg' st' out res :
  (forall r, pulls fs' sg' st' r -> pulls fs sg st r) ->
  runs sink fs' sg' st' out res -> runs sink fs sg st out res.
Proof.
  intros Hsim [f H]. destruct f as [|f]; [discriminate|]. simpl in H.
  destruct (Pipe.pull f fs' sg' st') as [r|] eqn:E; [|discriminate].
  destruct (Hsim r (ex_intro _ f E)) as [f1 E1].
  exists (S (Nat.max f f1)). simpl.
  rewrite (pull_mono f1 (Nat.max f f1) _ _ _ _ (Nat.le_max_r _ _) E1).
  destruct r as [[[sig fs1] sg1] st1].
  destruct sig; try exact H.
  cbv zeta in *. destruct sink as [g|].
  - destruct (Pipe.call g item _) as [[v|e] st3]; [|exact H].
    apply (run_loop_mono f); [apply Nat.le_max_l|exact H].
  - apply (run_loop_mono f); [apply Nat.le_max_l|exact H].
Qed.

Lemma set_user_same st : Pipe.set_user (user (Pipe.env st)) st = st.
Proof. destruct st as [s [u c cs]]. reflexivity. Qed.

(** Calling a callable without side effects. *)
Lemma call_pure (fn : Pipe.callable U) (f : value -> result value) item st :
  (forall v u, fn v u = (f v, u)) -> Pipe.call fn item st = (f item, st).
Proof.
  intros Hfn. unfold Pipe.call. rewrite Hfn. now rewrite set_user_same.
Qed.

Lemma runs_functional sink fs sg st out res res' :
  runs sink fs sg st out res -> runs sink fs sg st out res' -> res = res'.
Proof.
  intros [f1 H1] [f2 H2].
  apply (run_loop_mono f1 (Nat.max f1 f2)) in H1; [|apply Nat.le_max_l].
  apply (run_loop_mono f2 (Nat.max f1 f2)) in H2; [|apply Nat.le_max_r].
  congruence.
Qed.

Lemma returns_functional (p : Pipe.t U) sink w res res' :
  returns p sink w res -> returns p sink w res' -> res = res'.
Proof.
  intros [f1 H1] [f2 H2].
  apply (run_mono f1 (Nat.max f1 f2)) in H1; [|apply Nat.le_max_l].
  apply (run_mono f2 (Nat.max f1 f2)) in H2; [|apply Nat.le_max_r].
  congruence.
Qed.

(** [run] from what its loop does. *)
Lemma returns_ok (p : Pipe.t U) sink w out st :
  runs sink (Pipe.chain p) (Pipe.SrcGen (Pipe._source p) 0)
       (Pipe.mkState RunStats_new w) [] (Ok out, st) ->
  returns p sink w
    (Ok (Pipe.set_duration (Qminus (clock (Pipe.env st)) (clock w))
                           (Pipe.stats st), out), Pipe.env st).
Proof. intros [f H]. exists f. unfold Pipe.run. now rewrite H. Qed.

Lemma returns_raise (p : Pipe.t U) sink w e st :
  runs sink (Pipe.chain p) (Pipe.SrcGen (Pipe._source p) 0)
       (Pipe.mkState RunStats_new w) [] (Raise e, st) ->
  returns p sink w (Raise e, Pipe.env st).
Proof. intros [f H]. exists f. unfold Pipe.run. now rewrite H. Qed.

(** *** The source generator over a list *)

Lemma pull_source_list_next (done rest : list value) (v : value) st :
  Pipe.pull_source (Pipe.SrcGen (SeqSource (done ++ v :: rest)) (length done)) st
  = (Pipe.Yield v,
     Pipe.SrcGen (SeqSource (done ++ v :: rest)) (S (length done)),
     Pipe.with_stats Pipe.inc_processed st).
Proof.
  unfold Pipe.pull_source.
  now rewrite (list_lookup_middle done rest v (length done) eq_refl).
Qed.

Lemma pull_source_list_end (xs : list value) st :
  Pipe.pull_source (Pipe.SrcGen (SeqSource xs) (length xs)) st
  = (Pipe.Stop, Pipe.SrcDone, st).
Proof.
  unfold Pipe.pull_source.
  now rewrite (lookup_ge_None_2 xs (length xs) (Nat.le_refl _)).
Qed.

Lemma pulls_list_next (done rest : list value) (v : value) st :
  pulls [] (Pipe.SrcGen (SeqSource (done ++ v :: rest)) (length done)) st
    (Pipe.Yield v, [],
     Pipe.SrcGen (SeqSource (done ++ v :: rest)) (S (length done)),
     Pipe.with_stats Pipe.inc_processed st).
Proof.
  pose proof (pulls_source
    (Pipe.SrcGen (SeqSource (done ++ v :: rest)) (length done)) st) as H.
  now rewrite pull_source_list_next in H.
Qed.

Lemma pulls_list_end (xs : list value) st :
  pulls [] (Pipe.SrcGen (SeqSource xs) (length xs)) st
    (Pipe.Stop, [], Pipe.SrcDone, st).
Proof.
  pose proof (pulls_source (Pipe.SrcGen (SeqSource xs) (length xs)) st) as H.
  now rewrite pull_source_list_end in H.
Qed.

End BigStep.

(* ------------------------------------------------------------------ *)
(** ** [take] *)

Section Take.

Context {U : Type}.

Implicit Types (fs ups : list (Pipe.frame U)) (fr : Pipe.frame U)
  (sg : Pipe.srcgen) (st : Pipe.state U).

(** One [next()] on [take]'s generator pulls its input once, whatever the
    count is, and only then looks at the count. *)
Lemma take_pull n count ups sg st item ups1 sg1 st1 :
  pulls ups sg st (Pipe.Yield item, ups1, sg1, st1) ->
  pulls (Pipe.FTake n count :: ups) sg st
    (if n <=? count
     then (Pipe.Stop, Pipe.FDone :: ups1, sg1, st1)
     else (Pipe.Yield item, Pipe.FTake n (count + 1) :: ups1, sg1, st1)).
Proof.
  intros Hup. eapply pulls_on_yield; [reflexivity|exact Hup|].
  exists 0%nat. simpl. now destruct (n <=? count).
Qed.

Lemma take_runs_list n (rest : list value) :
  forall (done : list value) count st out,
    0 <= count <= n ->
    exists st',
      runs None [Pipe.FTake n count]
           (Pipe.SrcGen (SeqSource (done ++ rest)) (length done)) st out
           (Ok (out ++ firstn (Z.to_nat (n - count)) rest), st')
      /\ counts_up (Pipe.stats st) (Pipe.stats st')
           (Z.of_nat (Nat.min (length rest) (S (Z.to_nat (n - count)))))
           (Z.of_nat (Nat.min (length rest) (Z.to_nat (n - count)))) 0 0 0
      /\ Pipe.env st' = Pipe.env st.
Proof.
  induction rest as [|v rest IH]; intros done count st out Hc.
  - exists st. split; [|split; [|reflexivity]].
    + rewrite !app_nil_r, firstn_nil, app_nil_r.
      eapply runs_stop.
      apply (pulls_on_stop (Pipe.FTake n count) []); [reflexivity|].
      apply pulls_list_end.
    + unfold counts_up. simpl. lia.
  - pose proof (take_pull n count [] _ st v _ _ _
                  (pulls_list_next done rest v st)) as Hp.
    destruct (n <=? count) eqn:E.
    + apply Z.leb_le in E.
      exists (Pipe.with_stats Pipe.inc_processed st).
      split; [|split; [|reflexivity]].
      * replace (Z.to_nat (n - count)) with 0%nat by lia.
        simpl. rewrite app_nil_r. eapply runs_stop. exact Hp.
      * unfold counts_up. simpl.
        replace (Z.to_nat (n - count)) with 0%nat by lia. simpl. lia.
    + apply Z.leb_gt in E.
      destruct (IH (done ++ [v]) (count + 1)
                   (Pipe.with_stats Pipe.inc_emitted
                      (Pipe.with_stats Pipe.inc_processed st))
                   (out ++ [v])) as (st' & Hr & Hcnt & Hw); [lia|].
      rewrite <- app_assoc, length_app, Nat.add_1_r in Hr. simpl in Hr.
      exists st'. split; [|split; [|exact Hw]].
      * replace (Z.to_nat (n - count)) with (S (Z.to_nat (n - (count + 1))))
          by lia.
        simpl. eapply runs_yield; [exact Hp|].
        rewrite <- app_assoc in Hr. exact Hr.
      * unfold counts_up in *. simpl in *.
        replace (Z.to_nat (n - count)) with (S (Z.to_nat (n - (count + 1))))
          by lia.
        simpl. lia.
Qed.

Lemma pulls_fn_next (f : nat -> value) pos st :
  pulls [] (Pipe.SrcGen (FnSource f) pos) st
    (Pipe.Yield (f pos), [], Pipe.SrcGen (FnSource f) (S pos),
     Pipe.with_stats Pipe.inc_processed st).
Proof. exact (pulls_source (Pipe.SrcGen (FnSource f) pos) st). Qed.

Lemma take_runs_fn n (f : nat -> value) (k : nat) :
  forall pos count st out,
    n - count = Z.of_nat k ->
    exists st',
      runs None [Pipe.FTake n count] (Pipe.SrcGen (FnSource f) pos) st out
           (Ok (out ++ List.map f (seq pos k)), st')
      /\ counts_up (Pipe.stats st) (Pipe.stats st')
           (Z.of_nat k + 1) (Z.of_nat k) 0 0 0
      /\ Pipe.env st' = Pipe.env st.
Proof.
  induction k as [|k IH]; intros pos count st out Hk.
  - pose proof (take_pull n count [] _ st _ _ _ _ (pulls_fn_next f pos st)) as Hp.
    replace (n <=? count) with true in Hp by (symmetry; apply Z.leb_le; lia).
    exists (Pipe.with_stats Pipe.inc_processed st).
    split; [|split; [|reflexivity]].
    + simpl. rewrite app_nil_r. eapply runs_stop. exact Hp.
    + unfold counts_up. simpl. lia.
  - pose proof (take_pull n count [] _ st _ _ _ _ (pulls_fn_next f pos st)) as Hp.
    replace (n <=? count) with false in Hp by (symmetry; apply Z.leb_gt; lia).
    destruct (IH (S pos) (count + 1)
                 (Pipe.with_stats Pipe.inc_emitted
                    (Pipe.with_stats Pipe.inc_processed st))
                 (out ++ [f pos])) as (st' & Hr & Hcnt & Hw); [lia|].
    exists st'. split; [|split; [|exact Hw]].
    + eapply runs_yield; [exact Hp|].
      simpl. rewrite <- app_assoc in Hr. exact Hr.
    + unfold counts_up in *. simpl in *. lia.
Qed.

(** [pipe(xs).take(n).run()] for [n >= 0]: the first [n] items are
    delivered, and the source is pulled once more when it has more. *)
Lemma take_returns_list n (xs : list value) (w : world U) :
  0 <= n ->
  exists s,
    returns (Pipe.take (Pipe.pipe (SeqSource xs)) n) None w
            (Ok (s, firstn (Z.to_nat n) xs), w)
    /\ counts_up RunStats_new s
         (Z.of_nat (Nat.min (length xs) (S (Z.to_nat n))))
         (Z.of_nat (Nat.min (length xs) (Z.to_nat n))) 0 0 0.
Proof.
  intros Hn.
  destruct (take_runs_list n xs [] 0 (Pipe.mkState RunStats_new w) [])
    as (st' & Hr & Hcnt & Hw); [lia|].
  rewrite Z.sub_0_r in Hr, Hcnt. simpl in Hr, Hw.
  apply (returns_ok (Pipe.take (Pipe.pipe (SeqSource xs)) n)) in Hr.
  rewrite Hw in Hr. eexists. split; [exact Hr|]. exact Hcnt.
Qed.

Lemma take_returns_fn n (f : nat -> value) (w : world U) :
  0 <= n ->
  exists s,
    returns (Pipe.take (Pipe.pipe (FnSource f)) n) None w
            (Ok (s, List.map f (seq 0 (Z.to_nat n))), w)
    /\ counts_up RunStats_new s (n + 1) n 0 0 0.
Proof.
  intros Hn.
  destruct (take_runs_fn n f (Z.to_nat n) 0%nat 0
              (Pipe.mkState RunStats_new w) [])
    as (st' & Hr & Hcnt & Hw); [lia|].
  simpl in Hr, Hw.
  apply (returns_ok (Pipe.take (Pipe.pipe (FnSource f)) n)) in Hr.
  rewrite Hw in Hr. eexists. split; [exact Hr|].
  rewrite Z2Nat.id in Hcnt by lia. exact Hcnt.
Qed.

End Take.

(** *** [take] above a filter that has nothing more to let through *)

Section TakeOverFilter.

Context {U : Type}.

(** Past 2, [filter(lambda x: x < 2)] over 0, 1, 2, ... never answers. *)
Lemma filter_small_never_answers fuel :
  forall pos (st : Pipe.state U), (2 <= pos)%nat ->
    Pipe.pull fuel [Pipe.FFilter (Examples.less_than 2)]
              (Pipe.SrcGen (FnSource Examples.naturals) pos) st = None.
Proof.
  induction fuel as [|fuel IH]; intros pos st Hpos; [reflexivity|].
  destruct fuel as [|fuel]; [reflexivity|].
  change (Pipe.on_item (Pipe.pull (S fuel)) (Pipe.FFilter (Examples.less_than 2))
            (Examples.naturals pos) []
            (Pipe.SrcGen (FnSource Examples.naturals) (S pos))
            (Pipe.with_stats Pipe.inc_processed st) = None).
  unfold Pipe.on_item, Pipe.call, Examples.less_than, Examples.lift,
    Examples.naturals.
  replace (Z.of_nat pos <? 2) with false by (symmetry; apply Z.ltb_ge; lia).
  cbn [truthy Z.eqb negb]. apply IH. lia.
Qed.

Lemma take_over_filter_never_answers fuel n count pos (st : Pipe.state U) :
  (2 <= pos)%nat ->
  Pipe.pull fuel [Pipe.FTake n count; Pipe.FFilter (Examples.less_than 2)]
            (Pipe.SrcGen (FnSource Examples.naturals) pos) st = None.
Proof.
  intros Hpos. destruct fuel as [|fuel]; [reflexivity|].
  simpl. now rewrite filter_small_never_answers.
Qed.

End TakeOverFilter.

(* ------------------------------------------------------------------ *)
(** ** [batch] *)

Section Batch.

Context {U : Type}.

Implicit Types (fs ups : list (Pipe.frame U)) (fr : Pipe.frame U)
  (sg : Pipe.srcgen) (st : Pipe.state U).

(** A group that becomes full: the generator pulls exactly the items that
    were missing and yields. *)
Lemma batch_pull_fill size (items : list value) :
  forall (done buffer rest : list value) st,
    items <> [] ->
    Z.of_nat (length buffer + length items) = size ->
    exists st',
      pulls [Pipe.FBatch size buffer]
            (Pipe.SrcGen (SeqSource (done ++ items ++ rest)) (length done)) st
            (Pipe.Yield (VList (buffer ++ items)), [Pipe.FBatch size []],
             Pipe.SrcGen (SeqSource (done ++ items ++ rest))
                         (length done + length items),
             st')
      /\ counts_up (Pipe.stats st) (Pipe.stats st')
                   (Z.of_nat (length items)) 0 0 1 0
      /\ Pipe.env st' = Pipe.env st.
Proof.
  induction items as [|v items IH]; intros done buffer rest st Hne Hlen;
    [congruence|].
  pose proof (pulls_list_next (U := U) done (items ++ rest) v st) as Hsrc.
  destruct items as [|v' items].
  - exists (Pipe.with_stats Pipe.inc_batches
              (Pipe.with_stats Pipe.inc_processed st)).
    split; [|split; [|reflexivity]].
    + simpl. rewrite Nat.add_1_r.
      eapply pulls_on_yield; [reflexivity|exact Hsrc|].
      exists 0%nat. simpl.
      replace (Z.of_nat (length (buffer ++ [v])) =? size) with true; [reflexivity|].
      symmetry. apply Z.eqb_eq. rewrite length_app. simpl in *. lia.
    + unfold counts_up. simpl. lia.
  - destruct (IH (done ++ [v]) (buffer ++ [v]) rest
                 (Pipe.with_stats Pipe.inc_processed st))
      as (st' & [f Hp] & Hcnt & Hw); [discriminate| |].
    { rewrite length_app. simpl in *. lia. }
    exists st'. split; [|split; [|exact Hw]].
    + rewrite <- !app_assoc, length_app, Nat.add_1_r in Hp. simpl in Hp.
      eapply pulls_on_yield; [reflexivity|exact Hsrc|].
      exists f. simpl.
      replace (Z.of_nat (length (buffer ++ [v])) =? size) with false.
      * rewrite Hp. repeat f_equal. lia.
      * symmetry. apply Z.eqb_neq. rewrite length_app. simpl in *. lia.
    + unfold counts_up in *. simpl in *. lia.
Qed.

(** A group that cannot become full before the input ends: the generator
    pulls the input to its end and yields what it holds, if anything. *)
Lemma batch_pull_flush size (rest : list value) :
  forall (done buffer : list value) st,
    size <= Z.of_nat (length buffer)
    \/ Z.of_nat (length buffer + length rest) < size ->
    exists st',
      pulls [Pipe.FBatch size buffer]
            (Pipe.SrcGen (SeqSource (done ++ rest)) (length done)) st
            (Pipe.on_stop (Pipe.FBatch size (buffer ++ rest)) [] Pipe.SrcDone st')
      /\ counts_up (Pipe.stats st) (Pipe.stats st')
                   (Z.of_nat (length rest)) 0 0 0 0
      /\ Pipe.env st' = Pipe.env st.
Proof.
  induction rest as [|v rest IH]; intros done buffer st Hsize.
  - exists st. split; [|split; [|reflexivity]].
    + rewrite !app_nil_r.
      apply (pulls_on_stop (Pipe.FBatch size buffer) []); [reflexivity|].
      apply pulls_list_end.
    + unfold counts_up. simpl. lia.
  - pose proof (pulls_list_next (U := U) done rest v st) as Hsrc.
    destruct (IH (done ++ [v]) (buffer ++ [v])
                 (Pipe.with_stats Pipe.inc_processed st))
      as (st' & [f Hp] & Hcnt & Hw).
    { rewrite length_app. simpl in *. lia. }
    exists st'. split; [|split; [|exact Hw]].
    + rewrite <- !app_assoc, length_app, Nat.add_1_r in Hp. simpl in Hp.
      eapply pulls_on_yield; [reflexivity|exact Hsrc|].
      exists f. simpl.
      replace (Z.of_nat (length (buffer ++ [v])) =? size) with false.
      * exact Hp.
      * symmetry. apply Z.eqb_neq. rewrite length_app. simpl in *. lia.
    + unfold counts_up in *. simpl in *. lia.
Qed.

(** When no group can become full, the run delivers the whole input as one
    group, after the source is exhausted. *)
Lemma batch_runs_whole size (rest done : list value) st out :
  size <= 0 \/ Z.of_nat (length rest) < size ->
  exists st',
    runs None [Pipe.FBatch size []]
         (Pipe.SrcGen (SeqSource (done ++ rest)) (length done)) st out
         (Ok (out ++ match rest with [] => [] | _ :: _ => [VList rest] end), st')
    /\ counts_up (Pipe.stats st) (Pipe.stats st')
         (Z.of_nat (length rest))
         (match rest with [] => 0 | _ :: _ => 1 end) 0
         (match rest with [] => 0 | _ :: _ => 1 end) 0
    /\ Pipe.env st' = Pipe.env st.
Proof.
  intros Hsize.
  destruct (batch_pull_flush size rest done [] st) as (st1 & Hp & Hcnt & Hw).
  { simpl. lia. }
  simpl in Hp. destruct rest as [|v rest].
  - exists st1. split; [|split; [exact Hcnt|exact Hw]].
    rewrite (app_nil_r out). eapply runs_stop. exact Hp.
  - eexists. split; [|split].
    + eapply runs_yield; [exact Hp|]. eapply runs_stop. apply pulls_done.
    + unfold counts_up in *. simpl in *. lia.
    + simpl. exact Hw.
Qed.

(** The run of [batch(size)] for a positive [size]. *)
Lemma batch_runs_groups size (k : nat) :
  0 < size ->
  forall (rest done : list value) st out,
    (length rest <= k)%nat ->
    exists groups st',
      runs None [Pipe.FBatch size []]
           (Pipe.SrcGen (SeqSource (done ++ rest)) (length done)) st out
           (Ok (out ++ List.map VList groups), st')
      /\ concat groups = rest
      /\ chunked (Z.to_nat size) groups
      /\ counts_up (Pipe.stats st) (Pipe.stats st')
           (Z.of_nat (length rest)) (Z.of_nat (length groups)) 0
           (Z.of_nat (length groups)) 0
      /\ Pipe.env st' = Pipe.env st.
Proof.
  intros Hpos. induction k as [|k IH]; intros rest done st out Hk.
  - destruct rest; [|simpl in Hk; lia].
    destruct (batch_runs_whole size [] done st out) as (st' & Hr & Hcnt & Hw);
      [simpl; lia|].
    exists [], st'. repeat split; try assumption; apply Hcnt.
  - destruct (Z_lt_le_dec (Z.of_nat (length rest)) size) as [Hlt|Hge].
    + destruct (batch_runs_whole size rest done st out)
        as (st' & Hr & Hcnt & Hw); [lia|].
      destruct rest as [|v rest].
      * exists [], st'. repeat split; try assumption; apply Hcnt.
      * exists [v :: rest], st'. simpl. rewrite app_nil_r.
        repeat split; try assumption; try apply Hcnt; simpl in *; lia.
    + set (sz := Z.to_nat size).
      assert (Hsplit : rest = firstn sz rest ++ skipn sz rest)
        by (symmetry; apply firstn_skipn).
      assert (Hlen1 : length (firstn sz rest) = sz)
        by (rewrite length_firstn; lia).
      assert (Hlen2 : (length (skipn sz rest) <= k)%nat)
        by (rewrite length_skipn; lia).
      destruct (batch_pull_fill size (firstn sz rest) done [] (skipn sz rest) st)
        as (st1 & Hp & Hcnt1 & Hw1).
      { intros E. rewrite E in Hlen1. simpl in Hlen1. lia. }
      { simpl. lia. }
      rewrite <- Hsplit in Hp. simpl in Hp.
      destruct (IH (skipn sz rest) (done ++ firstn sz rest)
                   (Pipe.with_stats Pipe.inc_emitted st1)
                   (out ++ [VList (firstn sz rest)]) Hlen2)
        as (groups & st' & Hr & Hcat & Hch & Hcnt & Hw).
      rewrite <- app_assoc, <- Hsplit, length_app in Hr.
      exists (firstn sz rest :: groups), st'.
      split; [|split; [|split; [|split]]].
      * eapply runs_yield; [exact Hp|].
        simpl. rewrite <- app_assoc in Hr. exact Hr.
      * simpl. rewrite Hcat. symmetry. exact Hsplit.
      * simpl. destruct groups; [lia|]. split; [exact Hlen1|exact Hch].
      * rewrite length_skipn in Hcnt.
        unfold counts_up in *. simpl in *. lia.
      * rewrite Hw. simpl. exact Hw1.
Qed.

(** The number of groups of a chunked list. *)
Lemma chunked_count (size : nat) (groups : list (list value)) :
  (0 < size)%nat ->
  chunked size groups ->
  Z.of_nat (length groups)
  = ceil_div (Z.of_nat (length (concat groups))) (Z.of_nat size).
Proof.
  intros Hpos. unfold ceil_div.
  induction groups as [|g groups IH]; intros Hch.
  - simpl. symmetry. apply Z.div_small. lia.
  - destruct groups as [|g' groups].
    + simpl in *. rewrite app_nil_r.
      apply (Z.div_unique _ _ 1 (Z.of_nat (length g) - 1)); lia.
    + destruct Hch as [Hg Hch]. specialize (IH Hch).
      change (concat (g :: g' :: groups)) with (g ++ concat (g' :: groups)).
      rewrite length_app, Hg.
      change (length (g :: g' :: groups)) with (S (length (g' :: groups))).
      rewrite Nat2Z.inj_succ, IH, Nat2Z.inj_add.
      replace (Z.of_nat size + Z.of_nat (length (concat (g' :: groups)))
               + Z.of_nat size - 1)
        with (1 * Z.of_nat size
              + (Z.of_nat (length (concat (g' :: groups))) + Z.of_nat size - 1))
        by lia.
      rewrite Z.div_add_l by lia. lia.
Qed.

Lemma chunked_nonempty (size : nat) (groups : list (list value)) :
  (0 < size)%nat -> chunked size groups -> Forall (fun g => g <> []) groups.
Proof.
  intros Hpos. induction groups as [|g groups IH]; intros Hch; [constructor|].
  destruct groups as [|g' groups].
  - constructor; [|constructor]. simpl in Hch. destruct g; simpl in *; [lia|discriminate].
  - destruct Hch as [Hg Hch]. constructor; [|exact (IH Hch)].
    destruct g; simpl in *; [lia|discriminate].
Qed.

(** [pipe(xs).batch(size).run()] for a positive [size]. *)
Lemma batch_returns_groups size (xs : list value) (w : world U) :
  0 < size ->
  exists s groups,
    returns (Pipe.batch (Pipe.pipe (SeqSource xs)) size) None w
            (Ok (s, List.map VList groups), w)
    /\ concat groups = xs
    /\ chunked (Z.to_nat size) groups
    /\ counts_up RunStats_new s
         (Z.of_nat (length xs)) (Z.of_nat (length groups)) 0
         (Z.of_nat (length groups)) 0.
Proof.
  intros Hpos.
  destruct (batch_runs_groups size (length xs) Hpos xs []
              (Pipe.mkState RunStats_new w) [] (Nat.le_refl _))
    as (groups & st' & Hr & Hcat & Hch & Hcnt & Hw).
  simpl in Hr, Hw.
  apply (returns_ok (Pipe.batch (Pipe.pipe (SeqSource xs)) size)) in Hr.
  rewrite Hw in Hr. eexists. exists groups. split; [exact Hr|].
  split; [exact Hcat|]. split; [exact Hch|exact Hcnt].
Qed.

(** [pipe(xs).batch(size).run()] when no group can become full. *)
Lemma batch_returns_whole size (xs : list value) (w : world U) :
  size <= 0 \/ Z.of_nat (length xs) < size ->
  exists s,
    returns (Pipe.batch (Pipe.pipe (SeqSource xs)) size) None w
            (Ok (s, match xs with [] => [] | _ :: _ => [VList xs] end), w)
    /\ counts_up RunStats_new s
         (Z.of_nat (length xs))
         (match xs with [] => 0 | _ :: _ => 1 end) 0
         (match xs with [] => 0 | _ :: _ => 1 end) 0.
Proof.
  intros Hsize.
  destruct (batch_runs_whole size xs [] (Pipe.mkState RunStats_new w) [] Hsize)
    as (st' & Hr & Hcnt & Hw).
  simpl in Hr, Hw.
  apply (returns_ok (Pipe.batch (Pipe.pipe (SeqSource xs)) size)) in Hr.
  rewrite Hw in Hr. eexists. split; [exact Hr|exact Hcnt].
Qed.

End Batch.

(* ------------------------------------------------------------------ *)
(** ** [dedupe] *)

Section ValueEquality.

Lemma value_eqb_eq : forall a b : value, value_eqb a b = true <-> a = b.
Proof.
  fix IH 1. intros a b.
  destruct a as [|x|s|l], b as [|y|t|m]; simpl;
    try (split; [discriminate|congruence]).
  - split; reflexivity.
  - rewrite Z.eqb_eq. split; congruence.
  - rewrite String.eqb_eq. split; congruence.
  - revert m. induction l as [|a l IHl]; intros [|b m].
    + split; reflexivity.
    + split; discriminate.
    + split; discriminate.
    + rewrite andb_true_iff, IH, IHl. split.
      * intros [-> E]. now injection E as ->.
      * intros E. injection E as -> ->. split; reflexivity.
Qed.

Lemma value_eqb_refl (a : value) : value_eqb a a = true.
Proof. now apply value_eqb_eq. Qed.

Lemma existsb_value_eqb (x : value) (l : list value) :
  existsb (value_eqb x) l = true <-> In x l.
Proof.
  rewrite existsb_exists. split.
  - intros (y & Hin & E). apply value_eqb_eq in E. now subst.
  - intros Hin. exists x. split; [exact Hin|apply value_eqb_refl].
Qed.

End ValueEquality.

Section Dedupe.

Context {U : Type}.

Implicit Types (fs ups : list (Pipe.frame U)) (fr : Pipe.frame U)
  (sg : Pipe.srcgen) (st : Pipe.state U).

Lemma key_call (key : option (Pipe.callable U)) kf item st :
  key_value_of key kf ->
  match key with
  | Some k => Pipe.call k item st
  | None => (Ok item, st)
  end = (Ok (kf item), st).
Proof.
  intros Hkey. destruct key as [k|]; simpl in Hkey.
  - apply (call_pure k (fun v => Ok (kf v))). exact Hkey.
  - now rewrite Hkey.
Qed.

(** The run of [dedupe] over a list whose keys are hashable. *)
Lemma dedupe_runs key kf max_size (rest : list value) :
  key_value_of key kf ->
  forall (done seen : list value) st out,
    Forall (fun x => hashable (kf x) = true) rest ->
    exists st',
      runs None [Pipe.FDedupe key max_size seen]
           (Pipe.SrcGen (SeqSource (done ++ rest)) (length done)) st out
           (Ok (out ++ dedupe_list kf max_size seen rest), st')
      /\ counts_up (Pipe.stats st) (Pipe.stats st')
           (Z.of_nat (length rest))
           (Z.of_nat (length (dedupe_list kf max_size seen rest)))
           (Z.of_nat (length rest)
            - Z.of_nat (length (dedupe_list kf max_size seen rest))) 0 0
      /\ Pipe.env st' = Pipe.env st.
Proof.
  intros Hkey.
  induction rest as [|v rest IH]; intros done seen st out Hhash.
  - exists st. split; [|split; [|reflexivity]].
    + simpl. rewrite !app_nil_r. eapply runs_stop.
      apply (pulls_on_stop (Pipe.FDedupe key max_size seen) []); [reflexivity|].
      apply pulls_list_end.
    + unfold counts_up. simpl. lia.
  - inversion Hhash as [|? ? Hv Hrest]; subst.
    pose proof (pulls_list_next (U := U) done rest v st) as Hsrc.
    simpl dedupe_list.
    destruct (negb (existsb (value_eqb (kf v)) seen)) eqn:Enew.
    + destruct (IH (done ++ [v])
                  (match max_size with
                   | Some m =>
                       if m <? Z.of_nat (length (seen ++ [kf v]))
                       then tail (seen ++ [kf v]) else seen ++ [kf v]
                   | None => seen ++ [kf v]
                   end)
                  (Pipe.with_stats Pipe.inc_emitted
                     (Pipe.with_stats Pipe.inc_processed st))
                  (out ++ [v]) Hrest) as (st' & Hr & Hcnt & Hw).
      rewrite <- !app_assoc, (length_app done [v]), Nat.add_1_r in Hr.
      simpl in Hr.
      exists st'. split; [|split; [|exact Hw]].
      * eapply runs_yield; [|exact Hr].
        eapply pulls_on_yield; [reflexivity|exact Hsrc|].
        exists 0%nat. unfold Pipe.on_item.
        rewrite (key_call key kf v _ Hkey), Hv, Enew. reflexivity.
      * unfold counts_up in *. simpl in *. lia.
    + destruct (IH (done ++ [v]) seen
                  (Pipe.with_stats Pipe.inc_dropped
                     (Pipe.with_stats Pipe.inc_processed st))
                  out Hrest) as (st' & Hr & Hcnt & Hw).
      rewrite <- !app_assoc, (length_app done [v]), Nat.add_1_r in Hr.
      simpl in Hr.
      exists st'. split; [|split; [|exact Hw]].
      * eapply runs_after_loop; [|exact Hr].
        intros r [f Hp].
        eapply pulls_on_yield; [reflexivity|exact Hsrc|].
        exists f. unfold Pipe.on_item.
        rewrite (key_call key kf v _ Hkey), Hv, Enew. exact Hp.
      * unfold counts_up in *. simpl in *.
        pose proof (length_zero_iff_nil (dedupe_list kf max_size seen rest)).
        lia.
Qed.

(** [pipe(xs).dedupe(key, max_size).run()] over hashable keys. *)
Lemma dedupe_returns key kf max_size (xs : list value) (w : world U) :
  key_value_of key kf ->
  Forall (fun x => hashable (kf x) = true) xs ->
  exists s,
    returns (Pipe.dedupe (Pipe.pipe (SeqSource xs)) key max_size) None w
            (Ok (s, dedupe_list kf max_size [] xs), w)
    /\ counts_up RunStats_new s
         (Z.of_nat (length xs))
         (Z.of_nat (length (dedupe_list kf max_size [] xs)))
         (Z.of_nat (length xs)
          - Z.of_nat (length (dedupe_list kf max_size [] xs))) 0 0.
Proof.
  intros Hkey Hhash.
  destruct (dedupe_runs key kf max_size xs Hkey [] []
              (Pipe.mkState RunStats_new w) [] Hhash)
    as (st' & Hr & Hcnt & Hw).
  simpl in Hr, Hw.
  apply (returns_ok (Pipe.dedupe (Pipe.pipe (SeqSource xs)) key max_size)) in Hr.
  rewrite Hw in Hr. eexists. split; [exact Hr|exact Hcnt].
Qed.

End Dedupe.

Section DedupeLists.

Variable kf : value -> value.

(** Without a bound, [dedupe] keeps the first occurrences. *)
Lemma dedupe_list_first_occurrences (l : list value) :
  forall seen earlier,
    (forall k, In k seen <-> In k (List.map kf earlier)) ->
    dedupe_list kf None seen l = first_occurrences_from kf earlier l.
Proof.
  induction l as [|x l IH]; intros seen earlier Hsame; [reflexivity|].
  simpl. unfold is_first_occurrence.
  assert (E : existsb (value_eqb (kf x)) seen
              = existsb (value_eqb (kf x)) (List.map kf earlier)).
  { apply eq_true_iff_eq. rewrite !existsb_value_eqb. apply Hsame. }
  rewrite <- E.
  destruct (existsb (value_eqb (kf x)) seen) eqn:Ex; simpl.
  - apply IH. intros k. rewrite map_app, in_app_iff, <- Hsame. simpl.
    apply existsb_value_eqb in Ex. split; [tauto|].
    intros [H|[<-|[]]]; assumption.
  - f_equal. apply IH. intros k.
    rewrite map_app, !in_app_iff, <- Hsame. reflexivity.
Qed.

(** The first occurrences have distinct keys, none of them the key of an
    earlier item, and every key of the list is among them or earlier. *)
Lemma first_occurrences_from_keys (l : list value) :
  forall earlier,
    (forall y, In y (first_occurrences_from kf earlier l) ->
               ~ In (kf y) (List.map kf earlier))
    /\ NoDup (List.map kf (first_occurrences_from kf earlier l))
    /\ (forall x, In x l ->
                  In (kf x) (List.map kf earlier)
                  \/ In (kf x) (List.map kf (first_occurrences_from kf earlier l))).
Proof.
  induction l as [|x l IH]; intros earlier.
  - simpl. split; [tauto|]. split; [constructor|tauto].
  - destruct (IH (earlier ++ [x])) as (H1 & H2 & H3).
    assert (Hkeys : forall k, In k (List.map kf (earlier ++ [x]))
                              <-> In k (List.map kf earlier) \/ k = kf x).
    { intros k. rewrite map_app, in_app_iff. simpl. intuition. }
    simpl. unfold is_first_occurrence.
    destruct (existsb (value_eqb (kf x)) (List.map kf earlier)) eqn:E; simpl.
    + apply existsb_value_eqb in E.
      split; [|split; [exact H2|]].
      * intros y Hy Hin. apply (H1 y Hy). apply Hkeys. now left.
      * intros x' [<-|Hx']; [now left|].
        destruct (H3 x' Hx') as [Hk|Hk]; [|now right].
        apply Hkeys in Hk as [Hk| ->]; now left.
    + assert (Hnew : ~ In (kf x) (List.map kf earlier)).
      { intros Hin. apply existsb_value_eqb in Hin. congruence. }
      split; [|split].
      * intros y [<-|Hy]; [exact Hnew|].
        intros Hin. apply (H1 y Hy). apply Hkeys. now left.
      * apply NoDup_cons. split; [|exact H2].
        intros Hin%list_elem_of_In. apply in_map_iff in Hin as (y & Ey & Hy).
        apply (H1 y Hy). apply Hkeys. now right.
      * intros x' [<-|Hx']; [right; now left|].
        destruct (H3 x' Hx') as [Hk|Hk]; [|right; now right].
        apply Hkeys in Hk as [Hk| ->]; [now left|right; now left].
Qed.

(** [first_occurrences] keeps one item for every key of the list. *)
Lemma first_occurrences_distinct_and_complete (l : list value) :
  NoDup (List.map kf (first_occurrences kf l))
  /\ forall x, In x l -> In (kf x) (List.map kf (first_occurrences kf l)).
Proof.
  destruct (first_occurrences_from_keys l []) as (_ & H2 & H3).
  split; [exact H2|].
  intros x Hx. destruct (H3 x Hx) as [[]|H]. exact H.
Qed.

(** With a bound, [dedupe] remembers the most recent keys only. *)
Lemma dedupe_list_window (m : Z) (l : list value) :
  forall seen,
    (length seen <= Z.to_nat m)%nat ->
    dedupe_list kf (Some m) seen l = dedupe_window kf (Z.to_nat m) seen l.
Proof.
  induction l as [|x l IH]; intros seen Hlen; [reflexivity|].
  simpl. destruct (existsb (value_eqb (kf x)) seen); simpl.
  - apply IH. exact Hlen.
  - f_equal.
    assert (E : (if m <? Z.of_nat (length (seen ++ [kf x]))
                 then tail (seen ++ [kf x]) else seen ++ [kf x])
                = last_n (Z.to_nat m) (seen ++ [kf x])).
    { unfold last_n. rewrite length_app. simpl.
      destruct (m <? Z.of_nat (length seen + 1)) eqn:Em.
      - apply Z.ltb_lt in Em.
        replace (length seen + 1 - Z.to_nat m)%nat with 1%nat by lia.
        reflexivity.
      - apply Z.ltb_ge in Em.
        replace (length seen + 1 - Z.to_nat m)%nat with 0%nat by lia.
        reflexivity. }
    rewrite E. apply IH.
    unfold last_n. rewrite length_skipn, length_app. simpl. lia.
Qed.

End DedupeLists.

(* ------------------------------------------------------------------ *)
(** ** [retry_map] *)

Section Retry.

Context {U : Type}.

Implicit Types (st : Pipe.state (U * list (value * result value))).

(** What the attempts on one item do: some failures that match
    [exceptions], each counted in [errors], followed by a success, by a
    failure that does not match, or by nothing when no attempt is left. *)
Lemma retry_loop_trace (fn : Pipe.callable U) retries backoff excs item
    (k : nat) :
  forall attempt last_exc st sig st',
    Pipe.retry_loop (traced fn) retries backoff excs item k attempt last_exc st
    = (sig, st') ->
    exists fails,
      Forall (fun e => matches excs e = true) fails
      /\ errors (Pipe.stats st')
         = errors (Pipe.stats st) + Z.of_nat (length fails)
      /\ ((exists v,
             sig = Pipe.Yield v
             /\ trace_log st'
                = trace_log st
                  ++ List.map (fun e => (item, Raise e)) fails
                  ++ [(item, Ok v)]
             /\ (length fails < k)%nat)
          \/ (exists e,
             sig = Pipe.Throw e
             /\ matches excs e = false
             /\ trace_log st'
                = trace_log st
                  ++ List.map (fun e => (item, Raise e)) fails
                  ++ [(item, Raise e)]
             /\ (length fails < k)%nat)
          \/ (sig = Pipe.Throw (last_failure fails last_exc)
              /\ trace_log st'
                 = trace_log st ++ List.map (fun e => (item, Raise e)) fails
              /\ length fails = k)).
Proof.
  induction k as [|k IH]; intros attempt last_exc st sig st' H.
  - injection H as <- <-.
    exists []. split; [constructor|]. split; [simpl; lia|].
    right. right. simpl. rewrite app_nil_r. repeat split.
  - simpl in H. unfold Pipe.call, traced in H.
    destruct (fn item (fst (user (Pipe.env st)))) as [[v|e] u] eqn:Ef.
    + injection H as <- <-.
      exists []. split; [constructor|]. split; [simpl; lia|].
      left. exists v. simpl. repeat split. lia.
    + destruct (matches excs e) eqn:Em.
      * match type of H with
        | Pipe.retry_loop _ _ _ _ _ _ _ _ ?s = _ => set (st3 := s) in H
        end.
        assert (Hlog3 : trace_log st3 = trace_log st ++ [(item, Raise e)]).
        { subst st3. destruct (_ && _); reflexivity. }
        assert (Herr3 : errors (Pipe.stats st3) = errors (Pipe.stats st) + 1).
        { subst st3. destruct (_ && _); reflexivity. }
        clearbody st3.
        destruct (IH _ _ _ _ _ H) as (fails & Hall & Herr & Hcase).
        exists (e :: fails). split; [constructor; assumption|].
        split; [rewrite Herr, Herr3; simpl length; lia|].
        rewrite Hlog3 in Hcase. simpl List.map.
        destruct Hcase
          as [(v & H1 & H2 & H3)|[(e' & H1 & H2 & H3 & H4)|(H1 & H2 & H3)]].
        -- left. exists v. rewrite <- app_assoc in H2.
           split; [exact H1|]. split; [exact H2|simpl; lia].
        -- right. left. exists e'. rewrite <- app_assoc in H3.
           split; [exact H1|]. split; [exact H2|].
           split; [exact H3|simpl; lia].
        -- right. right. rewrite <- app_assoc in H2.
           split; [|split; [exact H2|simpl; lia]].
           rewrite H1. f_equal. unfold last_failure. f_equal.
           destruct fails as [|e1 fails]; [reflexivity|].
           change (last (e :: e1 :: fails)) with (last (e1 :: fails)).
           destruct (last (e1 :: fails)) eqn:El; [reflexivity|].
           apply last_None in El. discriminate.
      * injection H as <- <-.
        exists []. split; [constructor|]. split; [simpl; lia|].
        right. left. exists e. simpl. repeat split; [exact Em|lia].
Qed.

End Retry.

(* ------------------------------------------------------------------ *)
(** ** Two runs of one pipeline *)

Section SameRuns.

Context {U : Type}.

Implicit Types (fs ups fsA fsB upsA upsB : list (Pipe.frame U))
  (fr frA frB a b : Pipe.frame U)
  (sg : Pipe.srcgen) (st stA stB : Pipe.state U).

Lemma same_frame_cases a b :
  same_frame a b ->
  (exists m t t', a = Pipe.FRateLimit m t /\ b = Pipe.FRateLimit m t')
  \/ a = b.
Proof.
  destruct a, b; simpl; intros H; try contradiction; try (right; exact H).
  left. subst. eauto.
Qed.

Lemma same_frame_refl a : same_frame a a.
Proof. destruct a; reflexivity. Qed.

Lemma same_chain_cons a b upsA upsB :
  same_frame a b -> pure_frame a -> same_chain upsA upsB ->
  same_chain (a :: upsA) (b :: upsB).
Proof. intros Hf Hp [H1 H2]. split; constructor; assumption. Qed.

Lemma same_chain_keep a upsA upsB :
  pure_frame a -> same_chain upsA upsB -> same_chain (a :: upsA) (a :: upsB).
Proof. intros. apply same_chain_cons; [apply same_frame_refl| |]; assumption. Qed.

Lemma same_chain_done upsA upsB :
  same_chain upsA upsB -> same_chain (Pipe.FDone :: upsA) (Pipe.FDone :: upsB).
Proof. intros. now apply same_chain_keep. Qed.

Lemma retry_loop_same (fn : Pipe.callable U) f retries backoff excs item
    (k : nat) :
  (forall v u, fn v u = (f v, u)) ->
  forall attempt last_exc stA stB,
    Pipe.stats stA = Pipe.stats stB ->
    fst (Pipe.retry_loop fn retries backoff excs item k attempt last_exc stA)
    = fst (Pipe.retry_loop fn retries backoff excs item k attempt last_exc stB)
    /\ Pipe.stats
         (snd (Pipe.retry_loop fn retries backoff excs item k attempt last_exc stA))
       = Pipe.stats
           (snd (Pipe.retry_loop fn retries backoff excs item k attempt last_exc stB)).
Proof.
  intros Hfn. induction k as [|k IH]; intros attempt last_exc stA stB Hst.
  - simpl. split; [reflexivity|exact Hst].
  - simpl. rewrite !(call_pure fn f item _ Hfn).
    destruct (f item) as [v|e]; [simpl; split; [reflexivity|exact Hst]|].
    destruct (matches excs e); [|simpl; split; [reflexivity|exact Hst]].
    apply IH. destruct (_ && _); simpl; now rewrite Hst.
Qed.

Lemma pull_source_same sg stA stB :
  restartable sg ->
  Pipe.stats stA = Pipe.stats stB ->
  let '(sigA, sgA, stA') := Pipe.pull_source sg stA in
  let '(sigB, sgB, stB') := Pipe.pull_source sg stB in
  sigA = sigB /\ sgA = sgB /\ restartable sgA
  /\ Pipe.stats stA' = Pipe.stats stB'.
Proof.
  intros Hsg Hst. destruct sg as [s pos|]; simpl.
  - destruct s as [xs|f|id f]; simpl in *; [| |discriminate].
    + destruct (xs !! pos); simpl; rewrite ?Hst; repeat split; assumption.
    + rewrite Hst. repeat split.
  - repeat split; assumption.
Qed.

Lemma rate_limit_on_item rec m t item ups sg st :
  exists c st1,
    Pipe.on_item rec (Pipe.FRateLimit m t) item ups sg st
    = Some (Pipe.Yield item, Pipe.FRateLimit m (Some c) :: ups, sg, st1)
    /\ Pipe.stats st1 = Pipe.stats st.
Proof.
  simpl. destruct t as [t|]; [destruct (negb _)|];
    eexists _, _; split; reflexivity.
Qed.

(** Close a case in which both generators answer at once. *)
Ltac same_now :=
  simpl;
  (split; [reflexivity|]);
  (split; [first [apply same_chain_keep; assumption
                 |apply same_chain_done; assumption]|]);
  (split; [reflexivity|]);
  (split; [assumption|]);
  simpl; congruence.

(** Close a case in which both generators go round their loop. *)
Ltac same_loop Hrec :=
  apply Hrec;
  [apply same_chain_keep; assumption|assumption|simpl; congruence].

Lemma on_item_same recA recB frA frB item upsA upsB sg stA stB :
  same_rec recA recB ->
  same_frame frA frB -> pure_frame frA ->
  same_chain upsA upsB -> restartable sg ->
  Pipe.stats stA = Pipe.stats stB ->
  same_answer (Pipe.on_item recA frA item upsA sg stA)
              (Pipe.on_item recB frB item upsB sg stB).
Proof.
  intros Hrec Hfr Hpure Hups Hsg Hst.
  assert (Hrate : forall m t t',
    same_answer (Pipe.on_item recA (Pipe.FRateLimit m t) item upsA sg stA)
                (Pipe.on_item recB (Pipe.FRateLimit m t') item upsB sg stB)).
  { intros m t t'.
    destruct (rate_limit_on_item recA m t item upsA sg stA)
      as (cA & stA1 & -> & HA).
    destruct (rate_limit_on_item recB m t' item upsB sg stB)
      as (cB & stB1 & -> & HB).
    simpl. split; [reflexivity|].
    split; [apply same_chain_cons; [reflexivity|exact I|assumption]|].
    split; [reflexivity|]. split; [assumption|congruence]. }
  destruct (same_frame_cases _ _ Hfr) as [(m & t & t' & -> & ->)| <-];
    [apply Hrate|].
  destruct frA.
  - pose proof Hpure as [f Hf]. unfold Pipe.on_item.
    rewrite !(call_pure fn f item _ Hf).
    destruct (f item); same_now.
  - pose proof Hpure as [f Hf]. unfold Pipe.on_item.
    rewrite !(call_pure fn f item _ Hf).
    destruct (f item) as [v|e]; [|same_now].
    destruct (iter_value v); [|same_now].
    apply Hrec; [|assumption|assumption].
    apply same_chain_keep; [exact Hpure|assumption].
  - pose proof Hpure as [f Hf]. unfold Pipe.on_item.
    rewrite !(call_pure fn f item _ Hf).
    destruct (f item) as [v|e]; [|same_now].
    destruct (truthy v); [same_now|same_loop Hrec].
  - pose proof Hpure as [f Hf]. unfold Pipe.on_item.
    rewrite !(call_pure fn f item _ Hf).
    destruct (f item); same_now.
  - unfold Pipe.on_item. cbv zeta.
    destruct (_ =? size); [same_now|].
    apply Hrec; [|assumption|assumption].
    apply same_chain_keep; [exact I|assumption].
  - apply Hrate.
  - unfold Pipe.on_item.
    assert (Hk : exists r,
               (match key with
                | Some k => Pipe.call k item stA
                | None => (Ok item, stA)
                end = (r, stA))
               /\ (match key with
                   | Some k => Pipe.call k item stB
                   | None => (Ok item, stB)
                   end = (r, stB))).
    { destruct key as [k|].
      - destruct Hpure as [f Hf]. exists (f item).
        now rewrite !(call_pure k f item _ Hf).
      - exists (Ok item). split; reflexivity. }
    destruct Hk as (r & -> & ->).
    destruct r as [kv|e]; [|same_now].
    destruct (hashable kv); [|same_now].
    destruct (negb _); [same_now|same_loop Hrec].
  - pose proof Hpure as [f Hf]. unfold Pipe.on_item.
    destruct (retry_loop_same fn f retries backoff exceptions item
                (Z.to_nat (retries + 1)) Hf 0 None stA stB Hst) as [H1 H2].
    destruct (Pipe.retry_loop _ _ _ _ _ _ _ _ stA) as [sigA stA'].
    destruct (Pipe.retry_loop _ _ _ _ _ _ _ _ stB) as [sigB stB'].
    simpl in H1, H2. subst sigB.
    destruct sigA; same_now.
  - unfold Pipe.on_item. destruct (n <=? count); same_now.
  - pose proof Hpure as [[f Hf] [h Hh]]. unfold Pipe.on_item.
    rewrite !(call_pure fn f item _ Hf).
    destruct (f item) as [v|e]; [same_now|].
    destruct (matches exceptions e); [|same_now].
    unfold Pipe.call_handler. rewrite !Hh, !set_user_same.
    destruct (h item e); [same_loop Hrec|same_now].
  - same_now.
Qed.

Lemma step_frame_same recA recB frA frB upsA upsB sg stA stB :
  same_rec recA recB ->
  same_frame frA frB -> pure_frame frA ->
  same_chain upsA upsB -> restartable sg ->
  Pipe.stats stA = Pipe.stats stB ->
  same_answer (Pipe.step_frame recA frA upsA sg stA)
              (Pipe.step_frame recB frB upsB sg stB).
Proof.
  intros Hrec Hfr Hpure Hups Hsg Hst.
  destruct (waits frA) eqn:Hw.
  - assert (Hw' : waits frB = true).
    { destruct (same_frame_cases _ _ Hfr) as [(m & t & t' & -> & ->)| <-];
        [reflexivity|exact Hw]. }
    rewrite !step_frame_waits by assumption.
    pose proof (Hrec upsA upsB sg stA stB Hups Hsg Hst) as Hup.
    destruct (recA upsA sg stA) as [[[[sigA upsA1] sgA1] stA1]|],
             (recB upsB sg stB) as [[[[sigB upsB1] sgB1] stB1]|];
      simpl in Hup; try contradiction; [|exact I].
    destruct Hup as (<- & Hups1 & <- & Hsg1 & Hst1).
    destruct sigA.
    + apply on_item_same; assumption.
    + destruct (same_frame_cases _ _ Hfr) as [(m & t & t' & -> & ->)| <-].
      * same_now.
      * unfold Pipe.on_stop. destruct frA; try same_now.
        destruct buffer; same_now.
    + same_now.
  - destruct (same_frame_cases _ _ Hfr) as [(m & t & t' & -> & ->)| <-];
      [discriminate|].
    destruct frA; try discriminate.
    + destruct pending; [discriminate|]. same_now.
    + same_now.
Qed.

Lemma pull_same fuel : same_rec (Pipe.pull (U := U) fuel) (Pipe.pull fuel).
Proof.
  induction fuel as [|fuel IH]; intros fsA fsB sg stA stB Hfs Hsg Hst;
    [exact I|].
  destruct Hfs as [H2 Hp]. destruct H2 as [|frA frB upsA upsB Hfr Hups].
  - simpl. pose proof (pull_source_same sg stA stB Hsg Hst) as H.
    destruct (Pipe.pull_source sg stA) as [[sigA sgA] stA'].
    destruct (Pipe.pull_source sg stB) as [[sigB sgB] stB'].
    destruct H as (-> & -> & Hr & Hs). simpl.
    repeat split; try assumption; constructor.
  - inversion Hp; subst.
    apply step_frame_same; try assumption. split; assumption.
Qed.

Lemma sinks_agree_pure (sink : option (Pipe.callable U)) :
  pure_sink sink -> sinks_agree sink sink.
Proof.
  intros Hs item uA uB. destruct sink as [g|]; [|reflexivity].
  destruct Hs as [f Hf]. simpl. now rewrite !Hf.
Qed.

Lemma sinks_agree_quiet (sink : option (Pipe.callable U)) :
  quiet_sink sink -> sinks_agree None sink.
Proof.
  intros Hs item uA uB. destruct sink as [g|]; [|reflexivity].
  simpl. destruct (Hs item uB) as (v & u & ->). reflexivity.
Qed.

Lemma sinks_agree_never (sink : option (Pipe.callable U)) :
  quiet_sink sink -> sinks_agree sink sink.
Proof.
  intros Hs item uA uB. destruct sink as [g|]; [|reflexivity].
  simpl. destruct (Hs item uA) as (vA & uA' & ->).
  destruct (Hs item uB) as (vB & uB' & ->). reflexivity.
Qed.

(** What delivering an item to the sink does, by what the sink raises. *)
Lemma call_sink_cases (g : Pipe.callable U) item st :
  match Pipe.call g item st with
  | (Ok _, st1) =>
      sink_raises (Some g) item (user (Pipe.env st)) = None
      /\ Pipe.stats st1 = Pipe.stats st
  | (Raise e, st1) =>
      sink_raises (Some g) item (user (Pipe.env st)) = Some e
      /\ Pipe.stats st1 = Pipe.stats st
  end.
Proof.
  unfold Pipe.call, sink_raises.
  destruct (g item (user (Pipe.env st))) as [[v|e] u]; split; reflexivity.
Qed.

(** The loops of two runs end alike. *)
Lemma run_loop_same fuel (sinkA sinkB : option (Pipe.callable U)) :
  sinks_agree sinkA sinkB ->
  forall fsA fsB sg stA stB out,
    same_chain fsA fsB -> restartable sg ->
    Pipe.stats stA = Pipe.stats stB ->
    match Pipe.run_loop fuel sinkA fsA sg stA out,
          Pipe.run_loop fuel sinkB fsB sg stB out with
    | Some (resA, stA'), Some (resB, stB') =>
        resA = resB /\ Pipe.stats stA' = Pipe.stats stB'
    | None, None => True
    | _, _ => False
    end.
Proof.
  intros Hsink.
  induction fuel as [|fuel IH]; intros fsA fsB sg stA stB out Hfs Hsg Hst;
    [exact I|].
  simpl. pose proof (pull_same fuel fsA fsB sg stA stB Hfs Hsg Hst) as Hp.
  destruct (Pipe.pull fuel fsA sg stA) as [[[[sigA fsA1] sgA1] stA1]|],
           (Pipe.pull fuel fsB sg stB) as [[[[sigB fsB1] sgB1] stB1]|];
    simpl in Hp; try contradiction; [|exact I].
  destruct Hp as (<- & Hfs1 & <- & Hsg1 & Hst1).
  destruct sigA; [|split; [reflexivity|exact Hst1]
                  |split; [reflexivity|exact Hst1]].
  set (stA2 := Pipe.with_stats Pipe.inc_emitted stA1).
  set (stB2 := Pipe.with_stats Pipe.inc_emitted stB1).
  assert (Hst2 : Pipe.stats stA2 = Pipe.stats stB2)
    by (subst stA2 stB2; simpl; congruence).
  specialize (Hsink item (user (Pipe.env stA2)) (user (Pipe.env stB2))).
  destruct sinkA as [gA|], sinkB as [gB|].
  - pose proof (call_sink_cases gA item stA2) as HA.
    pose proof (call_sink_cases gB item stB2) as HB.
    destruct (Pipe.call gA item stA2) as [[vA|eA] stA3],
             (Pipe.call gB item stB2) as [[vB|eB] stB3];
      destruct HA as [HA1 HA2], HB as [HB1 HB2]; try congruence.
    + apply IH; [assumption|assumption|congruence].
    + split; congruence.
  - pose proof (call_sink_cases gA item stA2) as HA.
    destruct (Pipe.call gA item stA2) as [[vA|eA] stA3];
      destruct HA as [HA1 HA2]; [|rewrite HA1 in Hsink; discriminate].
    apply IH; [assumption|assumption|congruence].
  - pose proof (call_sink_cases gB item stB2) as HB.
    destruct (Pipe.call gB item stB2) as [[vB|eB] stB3];
      destruct HB as [HB1 HB2]; [|rewrite HB1 in Hsink; discriminate].
    apply IH; [assumption|assumption|congruence].
  - apply IH; assumption.
Qed.

(** Whatever the sinks are, two loops that both end normally have
    delivered the same items and counted the same. *)
Lemma run_loop_agree fuel (sinkA sinkB : option (Pipe.callable U)) :
  forall fsA fsB sg stA stB out outA outB stA' stB',
    same_chain fsA fsB -> restartable sg ->
    Pipe.stats stA = Pipe.stats stB ->
    Pipe.run_loop fuel sinkA fsA sg stA out = Some (Ok outA, stA') ->
    Pipe.run_loop fuel sinkB fsB sg stB out = Some (Ok outB, stB') ->
    outA = outB /\ Pipe.stats stA' = Pipe.stats stB'.
Proof.
  induction fuel as [|fuel IH];
    intros fsA fsB sg stA stB out outA outB stA' stB' Hfs Hsg Hst HA HB;
    [discriminate|].
  simpl in HA, HB.
  pose proof (pull_same fuel fsA fsB sg stA stB Hfs Hsg Hst) as Hp.
  destruct (Pipe.pull fuel fsA sg stA) as [[[[sigA fsA1] sgA1] stA1]|],
           (Pipe.pull fuel fsB sg stB) as [[[[sigB fsB1] sgB1] stB1]|];
    simpl in Hp; try contradiction; try discriminate.
  destruct Hp as (<- & Hfs1 & <- & Hsg1 & Hst1).
  destruct sigA; [|injection HA as <- <-; injection HB as <- <-;
                   split; [reflexivity|exact Hst1]
                  |discriminate].
  cbv zeta in HA, HB.
  assert (HA' : exists stA2,
             Pipe.stats stA2 = Pipe.inc_emitted (Pipe.stats stA1)
             /\ Pipe.run_loop fuel sinkA fsA1 sgA1 stA2 (out ++ [item])
                = Some (Ok outA, stA')).
  { destruct sinkA as [g|];
      [|exists (Pipe.with_stats Pipe.inc_emitted stA1);
        split; [reflexivity|exact HA]].
    pose proof (call_stats g item (Pipe.with_stats Pipe.inc_emitted stA1)) as Hc.
    destruct (Pipe.call g item _) as [[v|e] st3]; [|discriminate].
    exists st3. split; [exact Hc|exact HA]. }
  assert (HB' : exists stB2,
             Pipe.stats stB2 = Pipe.inc_emitted (Pipe.stats stB1)
             /\ Pipe.run_loop fuel sinkB fsB1 sgA1 stB2 (out ++ [item])
                = Some (Ok outB, stB')).
  { destruct sinkB as [g|];
      [|exists (Pipe.with_stats Pipe.inc_emitted stB1);
        split; [reflexivity|exact HB]].
    pose proof (call_stats g item (Pipe.with_stats Pipe.inc_emitted stB1)) as Hc.
    destruct (Pipe.call g item _) as [[v|e] st3]; [|discriminate].
    exists st3. split; [exact Hc|exact HB]. }
  destruct HA' as (stA2 & HsA & HrA), HB' as (stB2 & HsB & HrB).
  apply (IH fsA1 fsB1 sgA1 stA2 stB2 (out ++ [item])); try assumption.
  congruence.
Qed.

Lemma chain_pure (p : Pipe.t U) :
  Forall pure_op (Pipe._ops p) -> same_chain (Pipe.chain p) (Pipe.chain p).
Proof.
  intros Hp. unfold Pipe.chain. split.
  - apply Forall2_same_length_lookup. split; [reflexivity|].
    intros i x y Hx Hy. rewrite Hx in Hy. injection Hy as <-.
    apply same_frame_refl.
  - apply Forall_rev.
    induction Hp as [|o ops Ho _ IH]; [constructor|].
    simpl. constructor; [|exact IH].
    destruct o; try exact Ho; try exact I.
Qed.

(** Two runs of a pipeline with pure callables over a re-iterable source
    differ in timing and in the world only, also under two sinks that raise
    alike. *)
Lemma run_same (p : Pipe.t U) sinkA sinkB fuel (w1 w2 : world U) :
  reiterable (Pipe._source p) = true ->
  Forall pure_op (Pipe._ops p) ->
  sinks_agree sinkA sinkB ->
  observe (Pipe.run fuel p sinkA w1) = observe (Pipe.run fuel p sinkB w2).
Proof.
  intros Hsrc Hops Hsink. unfold Pipe.run.
  pose proof (run_loop_same fuel sinkA sinkB Hsink (Pipe.chain p) (Pipe.chain p)
                (Pipe.SrcGen (Pipe._source p) 0)
                (Pipe.mkState RunStats_new w1) (Pipe.mkState RunStats_new w2) []
                (chain_pure p Hops) Hsrc eq_refl) as H.
  destruct (Pipe.run_loop fuel sinkA _ _ (Pipe.mkState RunStats_new w1) _)
    as [[resA stA]|],
    (Pipe.run_loop fuel sinkB _ _ (Pipe.mkState RunStats_new w2) _)
    as [[resB stB]|]; try contradiction; [|reflexivity].
  destruct H as [<- Hst]. destruct resA as [out|e]; [|reflexivity].
  simpl. unfold counters. simpl. now rewrite Hst.
Qed.

(** Two runs that both return, whatever their sinks and worlds are, have
    delivered the same items and return the same counters. *)
Lemma run_agree (p : Pipe.t U) sinkA sinkB fuelA fuelB (wA wB wA' wB' : world U)
    sA sB outA outB :
  reiterable (Pipe._source p) = true ->
  Forall pure_op (Pipe._ops p) ->
  Pipe.run fuelA p sinkA wA = Some (Ok (sA, outA), wA') ->
  Pipe.run fuelB p sinkB wB = Some (Ok (sB, outB), wB') ->
  outA = outB /\ counters sA = counters sB.
Proof.
  intros Hsrc Hops HA HB.
  apply (run_mono fuelA (Nat.max fuelA fuelB)) in HA; [|apply Nat.le_max_l].
  apply (run_mono fuelB (Nat.max fuelA fuelB)) in HB; [|apply Nat.le_max_r].
  unfold Pipe.run in HA, HB.
  destruct (Pipe.run_loop _ sinkA _ _ _ _) as [[[oA|eA] stA]|] eqn:EA;
    try discriminate.
  destruct (Pipe.run_loop _ sinkB _ _ _ _) as [[[oB|eB] stB]|] eqn:EB;
    try discriminate.
  destruct (run_loop_agree _ sinkA sinkB _ _
              (Pipe.SrcGen (Pipe._source p) 0)
              (Pipe.mkState RunStats_new wA) (Pipe.mkState RunStats_new wB)
              _ _ _ _ _
              (chain_pure p Hops) Hsrc eq_refl EA EB) as [Ho Hs].
  injection HA as <- <- _. injection HB as <- <- _.
  split; [exact Ho|]. unfold counters. simpl. now rewrite Hs.
Qed.

(** What a run without a sink delivers, a run with a sink that never raises
    delivers too, with the same counters. *)
Lemma returns_with_sink (p : Pipe.t U) sink (w w1 : world U) s out :
  reiterable (Pipe._source p) = true ->
  Forall pure_op (Pipe._ops p) ->
  quiet_sink sink ->
  returns p None w (Ok (s, out), w1) ->
  exists s' w',
    returns p sink w (Ok (s', out), w') /\ counters s' = counters s.
Proof.
  intros Hsrc Hops Hsink [fuel H].
  pose proof (run_same p None sink fuel w w Hsrc Hops
                (sinks_agree_quiet sink Hsink)) as E.
  rewrite H in E. cbn [observe] in E.
  destruct (Pipe.run fuel p sink w) as [[[[s' out']|e] w']|] eqn:E';
    try discriminate.
  cbn [observe] in E. injection E as E1 E2 E3 E4 E5 E6. subst out'.
  exists s', w'. split; [exists fuel; exact E'|].
  unfold counters. congruence.
Qed.

End SameRuns.

(* ------------------------------------------------------------------ *)
(** ** Builder objects: what [_add_op] allocates and what it keeps *)

Section ObjectFrame.

Context {U : Type}.

Lemma alloc_fresh (h : gmap nat (PipeObj.obj U)) (o : PipeObj.obj U) :
  h !! fst (PipeObj.alloc h o) = None.
Proof. simpl. apply not_elem_of_dom, is_fresh. Qed.

Lemma add_op_appends (h : gmap nat (PipeObj.obj U)) (self : nat)
    (p : Pipe.t U) (o : Pipe.op U) :
  PipeObj.view h self = Some p ->
  appends_one h self p o (PipeObj._add_op h self o).
Proof.
  unfold PipeObj.view, PipeObj._add_op. intros Hv.
  destruct (h !! self) as [[|src l]|] eqn:Eself; try discriminate.
  destruct (h !! l) as [[items|]|] eqn:El; try discriminate.
  injection Hv as <-. simpl.
  set (l1 := fresh (dom h)).
  set (h1 := <[l1 := PipeObj.OList (items ++ [o])]> h).
  set (new := fresh (dom h1)).
  assert (Hl1 : h !! l1 = None) by apply not_elem_of_dom, is_fresh.
  assert (Hnew1 : h1 !! new = None) by apply not_elem_of_dom, is_fresh.
  assert (Hne : new <> l1).
  { intros E. rewrite E in Hnew1. subst h1.
    rewrite lookup_insert_eq in Hnew1. discriminate. }
  assert (Hnew : h !! new = None).
  { subst h1. rewrite lookup_insert_ne in Hnew1 by congruence. exact Hnew1. }
  assert (Hkeep : forall a x,
             h !! a = Some x ->
             <[new := PipeObj.OPipe src l1]> h1 !! a = Some x).
  { intros a x Ha.
    rewrite lookup_insert_ne by (intros ->; congruence).
    subst h1. rewrite lookup_insert_ne by (intros ->; congruence).
    exact Ha. }
  assert (Hview : PipeObj.view (<[new := PipeObj.OPipe src l1]> h1) self
                  = Some (Pipe.mkPipe src items)).
  { unfold PipeObj.view.
    now rewrite (Hkeep _ _ Eself), (Hkeep _ _ El). }
  exists new, (<[new := PipeObj.OPipe src l1]> h1).
  split; [reflexivity|]. split; [exact Hnew|]. split; [|split; [exact Hkeep|]].
  - unfold PipeObj.view. rewrite lookup_insert_eq.
    rewrite lookup_insert_ne by congruence.
    subst h1. now rewrite lookup_insert_eq.
  - split; [exact Hview|].
    intros fuel sink w. unfold PipeObj.run. rewrite Hview.
    unfold PipeObj.view. now rewrite Eself, El.
Qed.

End ObjectFrame.

(* ------------------------------------------------------------------ *)
(** ** The same runs, with a sink *)

Section WithSink.

Context {U : Type}.

Lemma returns_quiet (p : Pipe.t U) sink (w w1 : world U) s out dp de dd db dx :
  reiterable (Pipe._source p) = true ->
  Forall pure_op (Pipe._ops p) ->
  quiet_sink sink ->
  returns p None w (Ok (s, out), w1) ->
  counts_up RunStats_new s dp de dd db dx ->
  exists s' w',
    returns p sink w (Ok (s', out), w')
    /\ counts_up RunStats_new s' dp de dd db dx.
Proof.
  intros Hsrc Hops Hsink Hr Hc.
  destruct (returns_with_sink p sink w w1 s out Hsrc Hops Hsink Hr)
    as (s' & w' & Hr' & E).
  exists s', w'. split; [exact Hr'|].
  unfold counters in E. injection E as E1 E2 E3 E4 E5.
  unfold counts_up in *. rewrite E1, E2, E3, E4, E5. exact Hc.
Qed.

Lemma take_delivers_list n (xs : list value) sink (w : world U) :
  0 <= n ->
  quiet_sink sink ->
  exists s w',
    returns (Pipe.take (Pipe.pipe (SeqSource xs)) n) sink w
            (Ok (s, firstn (Z.to_nat n) xs), w')
    /\ counts_up RunStats_new s
         (Z.of_nat (Nat.min (length xs) (S (Z.to_nat n))))
         (Z.of_nat (Nat.min (length xs) (Z.to_nat n))) 0 0 0.
Proof.
  intros Hn Hsink.
  destruct (take_returns_list n xs w Hn) as (s & Hr & Hc).
  eapply returns_quiet; try eassumption; [reflexivity|repeat constructor].
Qed.

Lemma take_delivers_fn n (f : nat -> value) sink (w : world U) :
  0 <= n ->
  quiet_sink sink ->
  exists s w',
    returns (Pipe.take (Pipe.pipe (FnSource f)) n) sink w
            (Ok (s, List.map f (seq 0 (Z.to_nat n))), w')
    /\ counts_up RunStats_new s (n + 1) n 0 0 0.
Proof.
  intros Hn Hsink.
  destruct (take_returns_fn n f w Hn) as (s & Hr & Hc).
  eapply returns_quiet; try eassumption; [reflexivity|repeat constructor].
Qed.

Lemma batch_delivers_groups size (xs : list value) sink (w : world U) :
  0 < size ->
  quiet_sink sink ->
  exists s groups w',
    returns (Pipe.batch (Pipe.pipe (SeqSource xs)) size) sink w
            (Ok (s, List.map VList groups), w')
    /\ concat groups = xs
    /\ chunked (Z.to_nat size) groups
    /\ counts_up RunStats_new s
         (Z.of_nat (length xs)) (Z.of_nat (length groups)) 0
         (Z.of_nat (length groups)) 0.
Proof.
  intros Hpos Hsink.
  destruct (batch_returns_groups size xs w Hpos)
    as (s & groups & Hr & Hcat & Hch & Hc).
  destruct (returns_quiet (Pipe.batch (Pipe.pipe (SeqSource xs)) size)
              sink _ _ _ _ _ _ _ _ _ eq_refl
              ltac:(repeat constructor) Hsink Hr Hc) as (s' & w' & Hr' & Hc').
  exists s', groups, w'.
  split; [exact Hr'|]. split; [exact Hcat|]. split; [exact Hch|exact Hc'].
Qed.

Lemma batch_delivers_whole size (xs : list value) sink (w : world U) :
  size <= 0 \/ Z.of_nat (length xs) < size ->
  quiet_sink sink ->
  exists s w',
    returns (Pipe.batch (Pipe.pipe (SeqSource xs)) size) sink w
            (Ok (s, match xs with [] => [] | _ :: _ => [VList xs] end), w')
    /\ counts_up RunStats_new s
         (Z.of_nat (length xs))
         (match xs with [] => 0 | _ :: _ => 1 end) 0
         (match xs with [] => 0 | _ :: _ => 1 end) 0.
Proof.
  intros Hsize Hsink.
  destruct (batch_returns_whole size xs w Hsize) as (s & Hr & Hc).
  eapply returns_quiet; try eassumption; [reflexivity|repeat constructor].
Qed.

Lemma dedupe_delivers key kf max_size (xs : list value) sink (w : world U) :
  key_value_of key kf ->
  Forall (fun x => hashable (kf x) = true) xs ->
  quiet_sink sink ->
  exists s w',
    returns (Pipe.dedupe (Pipe.pipe (SeqSource xs)) key max_size) sink w
            (Ok (s, dedupe_list kf max_size [] xs), w')
    /\ counts_up RunStats_new s
         (Z.of_nat (length xs))
         (Z.of_nat (length (dedupe_list kf max_size [] xs)))
         (Z.of_nat (length xs)
          - Z.of_nat (length (dedupe_list kf max_size [] xs))) 0 0.
Proof.
  intros Hkey Hhash Hsink.
  destruct (dedupe_returns key kf max_size xs w Hkey Hhash) as (s & Hr & Hc).
  eapply returns_quiet; try eassumption; [reflexivity|].
  constructor; [|constructor].
  destruct key as [k|]; [|exact I].
  exists (fun v => Ok (kf v)). exact Hkey.
Qed.

End WithSink.

(* ------------------------------------------------------------------ *)
(** ** The repository's tests, on the model *)

Section Tests.

Import Examples.

Example test_map_transforms_items :
  outcome (Pipe.run 20 (Pipe.map (Pipe.pipe (SeqSource (ints [1; 2; 3])))
                                 (on_ints (fun x => x * 2)))
                    (Some append) w_list)
  = Some (Ok (3, 3, 0, 0, 0, ints [2; 4; 6]), ints [2; 4; 6]).
Proof. vm_compute. reflexivity. Qed.

Example test_flat_map_expands_items :
  outcome (Pipe.run 20 (Pipe.flat_map (Pipe.pipe (SeqSource (ints [1; 2; 3])))
                                      twice) None w0)
  = Some (Ok (3, 6, 0, 0, 0, ints [1; 1; 2; 2; 3; 3]), tt).
Proof. vm_compute. reflexivity. Qed.

Example test_flat_map_empty_expansion :
  outcome (Pipe.run 20 (Pipe.flat_map (Pipe.pipe (SeqSource (ints [1; 2; 3])))
                                      unless_2) (Some append) w_list)
  = Some (Ok (3, 2, 0, 0, 0, ints [1; 3]), ints [1; 3]).
Proof. vm_compute. reflexivity. Qed.

Example test_filter_keeps_matching_items :
  outcome (Pipe.run 20 (Pipe.filter (Pipe.pipe (SeqSource (ints [1; 2; 3; 4])))
                                    is_even) None w0)
  = Some (Ok (4, 2, 2, 0, 0, ints [2; 4]), tt).
Proof. vm_compute. reflexivity. Qed.

Example test_filter_drops_all :
  outcome (Pipe.run 20 (Pipe.filter (Pipe.pipe (SeqSource (ints [1; 3; 5])))
                                    is_even) None w0)
  = Some (Ok (3, 0, 3, 0, 0, []), tt).
Proof. vm_compute. reflexivity. Qed.

Example test_tap_calls_fn_and_passes_through :
  outcome (Pipe.run 20 (Pipe.tap (Pipe.pipe (SeqSource (ints [1; 2; 3])))
                                 append) None w_list)
  = Some (Ok (3, 3, 0, 0, 0, ints [1; 2; 3]), ints [1; 2; 3]).
Proof. vm_compute. reflexivity. Qed.

Example test_batch_groups_items :
  outcome (Pipe.run 20 (Pipe.batch (Pipe.pipe (range 7)) 3) None w0)
  = Some (Ok (7, 3, 0, 3, 0,
              [VList (ints [0; 1; 2]); VList (ints [3; 4; 5]);
               VList (ints [6])]), tt).
Proof. vm_compute. reflexivity. Qed.

Example test_batch_exact_multiple :
  outcome (Pipe.run 20 (Pipe.batch (Pipe.pipe (range 6)) 3) None w0)
  = Some (Ok (6, 2, 0, 2, 0,
              [VList (ints [0; 1; 2]); VList (ints [3; 4; 5])]), tt).
Proof. vm_compute. reflexivity. Qed.

Example test_batch_size_one :
  outcome (Pipe.run 20 (Pipe.batch (Pipe.pipe (SeqSource (ints [10; 20]))) 1)
                    None w0)
  = Some (Ok (2, 2, 0, 2, 0, [VList (ints [10]); VList (ints [20])]), tt).
Proof. vm_compute. reflexivity. Qed.

Example test_batch_larger_than_source :
  outcome (Pipe.run 20 (Pipe.batch (Pipe.pipe (SeqSource (ints [1; 2]))) 10)
                    None w0)
  = Some (Ok (2, 1, 0, 1, 0, [VList (ints [1; 2])]), tt).
Proof. vm_compute. reflexivity. Qed.

Example test_dedupe_removes_duplicates :
  outcome (Pipe.run 20
             (Pipe.dedupe (Pipe.pipe (SeqSource (ints [1; 2; 1; 3; 2])))
                          None None) None w0)
  = Some (Ok (5, 3, 2, 0, 0, ints [1; 2; 3]), tt).
Proof. vm_compute. reflexivity. Qed.

Example test_dedupe_preserves_first_seen :
  outcome (Pipe.run 20
             (Pipe.dedupe (Pipe.pipe (SeqSource (ints [3; 1; 2; 1; 3])))
                          None None) None w0)
  = Some (Ok (5, 3, 2, 0, 0, ints [3; 1; 2]), tt).
Proof. vm_compute. reflexivity. Qed.

Example test_dedupe_bounded_evicts_oldest :
  outcome (Pipe.run 20
             (Pipe.dedupe (Pipe.pipe (SeqSource (ints [1; 2; 3; 1])))
                          None (Some 2)) None w0)
  = Some (Ok (4, 4, 0, 0, 0, ints [1; 2; 3; 1]), tt).
Proof. vm_compute. reflexivity. Qed.

Example test_stats_dropped_by_dedupe :
  outcome (Pipe.run 20
             (Pipe.dedupe (Pipe.pipe (SeqSource (ints [1; 1; 2; 2; 3])))
                          None None) None w0)
  = Some (Ok (5, 3, 2, 0, 0, ints [1; 2; 3]), tt).
Proof. vm_compute. reflexivity. Qed.

Example test_rate_limit_passes_all_items :
  match Pipe.rate_limit (Pipe.pipe (SeqSource (ints [1; 2; 3])))
                        (1000000 # 1)%Q (1 # 1)%Q with
  | Ok p => outcome (Pipe.run 20 p None w0)
  | Raise e => Some (Raise e, tt)
  end
  = Some (Ok (3, 3, 0, 0, 0, ints [1; 2; 3]), tt).
Proof. vm_compute. reflexivity. Qed.

Example test_retry_map_success_on_first_try :
  outcome (Pipe.run 20
             (Pipe.retry_map (Pipe.pipe (SeqSource (ints [1; 2; 3])))
                             (on_ints (fun x => x * 10)) 2 (0 # 1)%Q
                             [PyException]) None w0)
  = Some (Ok (3, 3, 0, 0, 0, ints [10; 20; 30]), tt).
Proof. vm_compute. reflexivity. Qed.

Example test_retry_map_succeeds_after_retries :
  outcome (Pipe.run 20
             (Pipe.retry_map (Pipe.pipe (SeqSource (ints [1])))
                             flaky 3 (0 # 1)%Q [PyException])
             None (mkWorld 0 (0 # 1)%Q ∅))
  = Some (Ok (1, 1, 0, 0, 2, ints [10]), 3).
Proof. vm_compute. reflexivity. Qed.

Example test_retry_map_raises_after_exhausted :
  outcome (Pipe.run 20
             (Pipe.retry_map (Pipe.pipe (SeqSource (ints [1])))
                             (always_raise ValueError "always") 2 (0 # 1)%Q
                             [PyException]) None w0)
  = Some (Raise (mkExn ValueError "always"), tt).
Proof. vm_compute. reflexivity. Qed.

Example test_retry_map_only_catches_specified_exceptions :
  outcome (Pipe.run 20
             (Pipe.retry_map (Pipe.pipe (SeqSource (ints [1])))
                             (always_raise TypeError "wrong type") 2 (0 # 1)%Q
                             [ValueError]) None w0)
  = Some (Raise (mkExn TypeError "wrong type"), tt).
Proof. vm_compute. reflexivity. Qed.

Example test_take_limits_items :
  outcome (Pipe.run 20 (Pipe.take (Pipe.pipe (range 100)) 3) None w0)
  = Some (Ok (4, 3, 0, 0, 0, ints [0; 1; 2]), tt).
Proof. vm_compute. reflexivity. Qed.

Example test_take_more_than_source :
  outcome (Pipe.run 20 (Pipe.take (Pipe.pipe (SeqSource (ints [1; 2]))) 10)
                    None w0)
  = Some (Ok (2, 2, 0, 0, 0, ints [1; 2]), tt).
Proof. vm_compute. reflexivity. Qed.

Example test_take_zero :
  outcome (Pipe.run 20 (Pipe.take (Pipe.pipe (SeqSource (ints [1; 2; 3]))) 0)
                    None w0)
  = Some (Ok (1, 0, 0, 0, 0, []), tt).
Proof. vm_compute. reflexivity. Qed.

Example test_catch_passes_successful_items :
  outcome (Pipe.run 20
             (Pipe.catch (Pipe.pipe (SeqSource (ints [1; 2; 3])))
                         (on_ints (fun x => x * 2)) append_item [PyException])
             None w_list)
  = Some (Ok (3, 3, 0, 0, 0, ints [2; 4; 6]), []).
Proof. vm_compute. reflexivity. Qed.

Example test_catch_routes_failed_items_to_handler :
  outcome (Pipe.run 20
             (Pipe.catch (Pipe.pipe (SeqSource (ints [1; 2; 3])))
                         fail_on_2 append_item [PyException])
             None w_list)
  = Some (Ok (3, 2, 0, 0, 1, ints [10; 30]), ints [2]).
Proof. vm_compute. reflexivity. Qed.

Example test_catch_counts_errors_in_stats :
  outcome (Pipe.run 20
             (Pipe.catch (Pipe.pipe (SeqSource (ints [1; 2; 3])))
                         (always_raise ValueError "nope") ignore_error
                         [PyException]) None w0)
  = Some (Ok (3, 0, 0, 0, 3, []), tt).
Proof. vm_compute. reflexivity. Qed.

Example test_catch_only_catches_specified_exceptions :
  outcome (Pipe.run 20
             (Pipe.catch (Pipe.pipe (SeqSource (ints [1])))
                         (always_raise TypeError "wrong") ignore_error
                         [ValueError]) None w0)
  = Some (Raise (mkExn TypeError "wrong"), tt).
Proof. vm_compute. reflexivity. Qed.

Example test_chaining_filter_map_batch :
  outcome (Pipe.run 40 even_tripled_pairs None w0)
  = Some (Ok (10, 3, 5, 3, 0,
              [VList (ints [0; 6]); VList (ints [12; 18]); VList (ints [24])]),
          tt).
Proof. vm_compute. reflexivity. Qed.

Example test_chaining_tap_does_not_alter_output :
  outcome (Pipe.run 20
             (Pipe.map (Pipe.tap (Pipe.pipe (SeqSource (ints [1; 2; 3]))) append)
                       (on_ints (fun x => x + 10))) None w_list)
  = Some (Ok (3, 3, 0, 0, 0, ints [11; 12; 13]), ints [1; 2; 3]).
Proof. vm_compute. reflexivity. Qed.

Example test_stats_emitted_with_filter :
  outcome (Pipe.run 40 (Pipe.filter (Pipe.pipe (range 10)) (less_than 5))
                    None w0)
  = Some (Ok (10, 5, 5, 0, 0, ints [0; 1; 2; 3; 4]), tt).
Proof. vm_compute. reflexivity. Qed.

Example test_empty_source :
  outcome (Pipe.run 20 (Pipe.map (Pipe.pipe (SeqSource []))
                                 (on_ints (fun x => x)))
                    (Some append) w_list)
  = Some (Ok (0, 0, 0, 0, 0, []), []).
Proof. vm_compute. reflexivity. Qed.

End Tests.

(* ------------------------------------------------------------------ *)
(** ** What [next()] does to the counters and to the clock *)

Section Counters.

Context {U : Type}.

Implicit Types (fs ups : list (Pipe.frame U)) (fr : Pipe.frame U)
  (sg : Pipe.srcgen) (st : Pipe.state U).

Lemma advances_refl st : advances st st.
Proof. unfold advances. repeat split; try lia. apply Qle_refl. Qed.

Lemma advances_trans st1 st2 st3 :
  advances st1 st2 -> advances st2 st3 -> advances st1 st3.
Proof.
  unfold advances. intros (A1 & A2 & A3 & A4 & A5 & A6) (B1 & B2 & B3 & B4 & B5 & B6).
  repeat split; try lia. eapply Qle_trans; eassumption.
Qed.

Lemma advances_processed st :
  advances st (Pipe.with_stats Pipe.inc_processed st).
Proof. unfold advances. simpl. repeat split; try lia. apply Qle_refl. Qed.

Lemma advances_dropped st : advances st (Pipe.with_stats Pipe.inc_dropped st).
Proof. unfold advances. simpl. repeat split; try lia. apply Qle_refl. Qed.

Lemma advances_batches st : advances st (Pipe.with_stats Pipe.inc_batches st).
Proof. unfold advances. simpl. repeat split; try lia. apply Qle_refl. Qed.

Lemma advances_errors st : advances st (Pipe.with_stats Pipe.inc_errors st).
Proof. unfold advances. simpl. repeat split; try lia. apply Qle_refl. Qed.

Lemma advances_cursor id pos st : advances st (Pipe.set_cursor id pos st).
Proof. unfold advances. simpl. repeat split; try lia. apply Qle_refl. Qed.

Lemma advances_sleep d st : Qle (0 # 1) d -> advances st (Pipe.sleep d st).
Proof. unfold advances. simpl. intros Hd. repeat split; try lia. lra. Qed.

Lemma advances_call (fn : Pipe.callable U) item st :
  advances st (snd (Pipe.call fn item st)).
Proof.
  unfold Pipe.call. destruct (fn item _) as [r u].
  unfold advances. simpl. repeat split; try lia. apply Qle_refl.
Qed.

Lemma advances_call_handler (h : Pipe.handler U) item e st :
  advances st (snd (Pipe.call_handler h item e st)).
Proof.
  unfold Pipe.call_handler. destruct (h item e _) as [r u].
  unfold advances. simpl. repeat split; try lia. apply Qle_refl.
Qed.

Lemma advances_retry_loop (fn : Pipe.callable U) retries backoff excs item
    (k : nat) :
  forall attempt last_exc st,
    advances st
      (snd (Pipe.retry_loop fn retries backoff excs item k attempt last_exc st)).
Proof.
  induction k as [|k IH]; intros attempt last_exc st; [apply advances_refl|].
  simpl. pose proof (advances_call fn item st) as Hc.
  destruct (Pipe.call fn item st) as [[v|e] st1]; simpl in Hc; [exact Hc|].
  destruct (matches excs e); [|exact Hc].
  eapply advances_trans; [exact Hc|].
  eapply advances_trans; [apply advances_errors|].
  eapply advances_trans; [|apply IH].
  destruct (attempt <? retries) eqn:Ea; simpl; [|apply advances_refl].
  destruct (Qle_bool backoff (0 # 1)) eqn:Eb; simpl; [apply advances_refl|].
  apply advances_sleep.
  assert (Hb : Qlt (0 # 1) backoff).
  { apply Qnot_le_lt. intros H. apply Qle_bool_iff in H. congruence. }
  apply Qmult_le_0_compat; [lra|].
  change (0 # 1)%Q with (inject_Z 0). rewrite <- Zle_Qle.
  apply Z.pow_nonneg. lia.
Qed.

Lemma pull_source_advances sg st :
  advances st (snd (Pipe.pull_source sg st)).
Proof.
  destruct sg as [s pos|]; [|apply advances_refl].
  destruct s as [xs|f|id f]; simpl.
  - destruct (xs !! pos); simpl;
      [apply advances_processed|apply advances_refl].
  - apply advances_processed.
  - destruct (f _); simpl; [|apply advances_refl].
    eapply advances_trans; [apply advances_cursor|apply advances_processed].
Qed.

Create HintDb advance.
#[local] Hint Resolve advances_processed advances_dropped
  advances_batches advances_errors : advance.

(** Go back from the state reached to the state left, along the facts at
    hand. *)
Ltac advance_back :=
  lazymatch goal with
  | |- advances ?s ?s => apply advances_refl
  | |- advances ?s (Pipe.with_stats _ ?t) =>
      eapply advances_trans; [|solve [eauto with advance]]; advance_back
  | |- advances ?s ?t =>
      first
        [ assumption
        | match goal with
          | H : advances ?a t |- _ =>
              eapply advances_trans; [|exact H]; advance_back
          end ]
  end.

(** Finish a case of [on_item], from what the generator answered. *)
Ltac advance_with Hc H :=
  first
    [ injection H as <-; simpl; advance_back
    | match goal with
      | Hrec : forall fs sg st r, _ = Some r -> _ |- _ =>
          apply Hrec in H; simpl in H; advance_back
      end ].

Lemma on_item_advances rec fr item ups sg st r :
  (forall fs sg st r, rec fs sg st = Some r -> advances st (snd r)) ->
  Pipe.on_item rec fr item ups sg st = Some r ->
  advances st (snd r).
Proof.
  intros Hrec H. unfold Pipe.on_item in H.
  destruct fr.
  - pose proof (advances_call fn item st) as Hc.
    destruct (Pipe.call fn item st) as [[v|e] st1]; simpl in Hc;
      advance_with Hc H.
  - pose proof (advances_call fn item st) as Hc.
    destruct (Pipe.call fn item st) as [[v|e] st1]; simpl in Hc;
      [destruct (iter_value v)|]; advance_with Hc H.
  - pose proof (advances_call fn item st) as Hc.
    destruct (Pipe.call fn item st) as [[v|e] st1]; simpl in Hc;
      [destruct (truthy v)|]; advance_with Hc H.
  - pose proof (advances_call fn item st) as Hc.
    destruct (Pipe.call fn item st) as [[v|e] st1]; simpl in Hc;
      advance_with Hc H.
  - cbv zeta in H. destruct (_ =? size); advance_with I H.
  - injection H as <-. simpl.
    destruct last_time as [t|]; [|apply advances_refl].
    destruct (Qle_bool min_interval (clock (Pipe.env st) - t)) eqn:E; simpl;
      [apply advances_refl|].
    apply advances_sleep.
    assert (Qlt (clock (Pipe.env st) - t) min_interval).
    { apply Qnot_le_lt. intros H. apply Qle_bool_iff in H. congruence. }
    lra.
  - assert (Hc : forall kv st1,
        match key with
        | Some k => Pipe.call k item st
        | None => (Ok item, st)
        end = (kv, st1) -> advances st st1).
    { intros kv st1 E. destruct key as [k|].
      - pose proof (advances_call k item st) as Hk. now rewrite E in Hk.
      - injection E as _ <-. apply advances_refl. }
    destruct (match key with Some k => _ | None => _ end) as [[kv|e] st1];
      specialize (Hc _ _ eq_refl);
      [destruct (hashable kv); [destruct (negb _)|]|]; advance_with Hc H.
  - pose proof (advances_retry_loop fn retries backoff exceptions item
                  (Z.to_nat (retries + 1)) 0 None st) as Hr.
    destruct (Pipe.retry_loop _ _ _ _ _ _ _ _ _) as [sig st1]. simpl in Hr.
    destruct sig; advance_with Hr H.
  - destruct (n <=? count); advance_with I H.
  - pose proof (advances_call fn item st) as Hc.
    destruct (Pipe.call fn item st) as [[v|e] st1]; simpl in Hc;
      [advance_with Hc H|].
    destruct (matches exceptions e); [|advance_with Hc H].
    pose proof (advances_call_handler on_error item e st1) as Hh.
    destruct (Pipe.call_handler on_error item e st1) as [[v|e'] st2];
      simpl in Hh; advance_with Hc H.
  - advance_with I H.
Qed.

Lemma pull_advances fuel fs sg st r :
  Pipe.pull fuel fs sg st = Some r -> advances st (snd r).
Proof.
  apply (pull_invariant (fun _ _ st r => advances st (snd r))).
  - intros sg0 st0. pose proof (pull_source_advances sg0 st0) as H.
    now destruct (Pipe.pull_source sg0 st0) as [[sig sg1] st1].
  - intros rec Hrec fr0 ups sg0 st0 r0 H.
    destruct (waits fr0) eqn:Hw.
    + rewrite step_frame_waits in H by exact Hw.
      destruct (rec ups sg0 st0) as [[[[sig ups1] sg1] st1]|] eqn:E;
        [|discriminate].
      apply Hrec in E. simpl in E.
      destruct sig.
      * apply on_item_advances in H; [|exact Hrec].
        eapply advances_trans; eassumption.
      * injection H as <-. unfold Pipe.on_stop.
        destruct fr0; simpl; try exact E.
        destruct buffer; simpl; [exact E|].
        eapply advances_trans; [exact E|apply advances_batches].
      * injection H as <-. exact E.
    + destruct fr0; try discriminate.
      * destruct pending; [discriminate|].
        injection H as <-. apply advances_refl.
      * injection H as <-. apply advances_refl.
Qed.

(** The loop of [run]: [emitted] counts the items it delivers, the other
    counters and the clock do not go back. *)
Lemma run_loop_counts fuel sink :
  forall fs sg st out out' st',
    Pipe.run_loop fuel sink fs sg st out = Some (Ok out', st') ->
    exists more,
      out' = out ++ more
      /\ emitted (Pipe.stats st')
         = emitted (Pipe.stats st) + Z.of_nat (length more)
      /\ processed (Pipe.stats st) <= processed (Pipe.stats st')
      /\ dropped (Pipe.stats st) <= dropped (Pipe.stats st')
      /\ batches (Pipe.stats st) <= batches (Pipe.stats st')
      /\ errors (Pipe.stats st) <= errors (Pipe.stats st')
      /\ Qle (clock (Pipe.env st)) (clock (Pipe.env st')).
Proof.
  induction fuel as [|fuel IH]; intros fs sg st out out' st' H; [discriminate|].
  simpl in H.
  destruct (Pipe.pull fuel fs sg st) as [[[[sig fs1] sg1] st1]|] eqn:E;
    [|discriminate].
  apply pull_advances in E. simpl in E.
  destruct E as (E1 & E2 & E3 & E4 & E5 & E6).
  destruct sig; [|injection H as <- <-|discriminate].
  - cbv zeta in H.
    assert (H' : exists st2,
               advances (Pipe.with_stats Pipe.inc_emitted st1) st2
               /\ Pipe.run_loop fuel sink fs1 sg1 st2 (out ++ [item])
                  = Some (Ok out', st')).
    { destruct sink as [g|].
      - pose proof (advances_call g item
                      (Pipe.with_stats Pipe.inc_emitted st1)) as Hc.
        destruct (Pipe.call g item _) as [[v|e] st3]; [|discriminate].
        exists st3. split; [exact Hc|exact H].
      - eexists. split; [apply advances_refl|exact H]. }
    destruct H' as (st2 & (A1 & A2 & A3 & A4 & A5 & A6) & Hr).
    destruct (IH _ _ _ _ _ _ Hr) as (more & -> & B1 & B2 & B3 & B4 & B5 & B6).
    exists (item :: more). simpl in *.
    split; [now rewrite <- app_assoc|].
    repeat split; try lia. lra.
  - exists []. rewrite app_nil_r. simpl. repeat split; try lia. exact E6.
Qed.

End Counters.

(* ------------------------------------------------------------------ *)
(** ** How far the source is consumed *)

Section SourceConsumption.

Context {U : Type}.

Implicit Types (fs ups : list (Pipe.frame U)) (fr : Pipe.frame U)
  (sg : Pipe.srcgen) (st : Pipe.state U).

Lemma tracks_processed xs base sg st st' :
  processed (Pipe.stats st') = processed (Pipe.stats st) ->
  tracks xs base sg st -> tracks xs base sg st'.
Proof. unfold tracks. intros E. destruct sg; rewrite E; exact (fun H => H). Qed.

Lemma pull_source_tracks xs base sg st :
  tracks xs base sg st ->
  tracks xs base (snd (fst (Pipe.pull_source sg st)))
         (snd (Pipe.pull_source sg st)).
Proof.
  destruct sg as [s pos|]; [|exact (fun H => H)].
  intros (-> & Hpos & Hp). simpl.
  destruct (xs !! pos) as [item|] eqn:E; simpl.
  - apply lookup_lt_Some in E. repeat split; [lia|lia].
  - apply lookup_ge_None in E.
    replace (length xs) with pos by lia. exact Hp.
Qed.

(** Close a case of [on_item] that answers at once: [processed] is as
    before. *)
Ltac tracks_now H :=
  injection H as <-; intros Ht; simpl;
  eapply tracks_processed; [|exact Ht]; simpl; congruence.

Ltac tracks_rec Hrec H r :=
  apply Hrec in H; destruct r as [[[?sig ?fs] ?sg] ?st];
  intros Ht; apply H;
  eapply tracks_processed; [|exact Ht]; simpl; congruence.

Lemma on_item_tracks xs base rec fr item ups sg st r :
  (forall fs sg st r,
      rec fs sg st = Some r ->
      let '(_, _, sg1, st1) := r in
      tracks xs base sg st -> tracks xs base sg1 st1) ->
  Pipe.on_item rec fr item ups sg st = Some r ->
  let '(_, _, sg1, st1) := r in
  tracks xs base sg st -> tracks xs base sg1 st1.
Proof.
  intros Hrec H. unfold Pipe.on_item in H.
  destruct fr.
  - pose proof (call_stats fn item st) as Hc.
    destruct (Pipe.call fn item st) as [[v|e] st1]; simpl in Hc; tracks_now H.
  - pose proof (call_stats fn item st) as Hc.
    destruct (Pipe.call fn item st) as [[v|e] st1]; simpl in Hc;
      [destruct (iter_value v)|];
      [tracks_rec Hrec H r|tracks_now H|tracks_now H].
  - pose proof (call_stats fn item st) as Hc.
    destruct (Pipe.call fn item st) as [[v|e] st1]; simpl in Hc;
      [destruct (truthy v)|];
      [tracks_now H|tracks_rec Hrec H r|tracks_now H].
  - pose proof (call_stats fn item st) as Hc.
    destruct (Pipe.call fn item st) as [[v|e] st1]; simpl in Hc; tracks_now H.
  - cbv zeta in H. destruct (_ =? size); [tracks_now H|tracks_rec Hrec H r].
  - injection H as <-. intros Ht. simpl.
    eapply tracks_processed; [|exact Ht].
    destruct last_time as [t|]; [destruct (negb _)|]; reflexivity.
  - assert (Hc : forall kv st1,
        match key with
        | Some k => Pipe.call k item st
        | None => (Ok item, st)
        end = (kv, st1) -> Pipe.stats st1 = Pipe.stats st).
    { intros kv st1 E. destruct key as [k|].
      - pose proof (call_stats k item st) as Hk. now rewrite E in Hk.
      - now injection E as _ <-. }
    destruct (match key with Some k => _ | None => _ end) as [[kv|e] st1];
      specialize (Hc _ _ eq_refl);
      [destruct (hashable kv); [destruct (negb _)|]|];
      [tracks_now H|tracks_rec Hrec H r|tracks_now H|tracks_now H].
  - pose proof (retry_loop_counts fn retries backoff exceptions item
                  (Z.to_nat (retries + 1)) 0 None st) as [Hc _].
    destruct (Pipe.retry_loop _ _ _ _ _ _ _ _ _) as [sig st1]. simpl in Hc.
    destruct sig; tracks_now H.
  - destruct (n <=? count); tracks_now H.
  - pose proof (call_stats fn item st) as Hc.
    destruct (Pipe.call fn item st) as [[v|e] st1]; simpl in Hc;
      [tracks_now H|].
    destruct (matches exceptions e); [|tracks_now H].
    pose proof (call_handler_stats on_error item e st1) as Hh.
    destruct (Pipe.call_handler on_error item e st1) as [[v|e'] st2];
      simpl in Hh; [tracks_rec Hrec H r|tracks_now H].
  - tracks_now H.
Qed.

Lemma pull_tracks xs base fuel fs sg st r :
  Pipe.pull fuel fs sg st = Some r ->
  let '(_, _, sg1, st1) := r in
  tracks xs base sg st -> tracks xs base sg1 st1.
Proof.
  apply (pull_invariant
           (fun _ sg st r =>
              let '(_, _, sg1, st1) := r in
              tracks xs base sg st -> tracks xs base sg1 st1)).
  - intros sg0 st0. pose proof (pull_source_tracks xs base sg0 st0) as H.
    now destruct (Pipe.pull_source sg0 st0) as [[sig sg1] st1].
  - intros rec Hrec fr0 ups sg0 st0 r0 H.
    destruct (waits fr0) eqn:Hw.
    + rewrite step_frame_waits in H by exact Hw.
      destruct (rec ups sg0 st0) as [[[[sig ups1] sg1] st1]|] eqn:E;
        [|discriminate].
      apply Hrec in E.
      destruct sig.
      * apply (on_item_tracks xs base) in H; [|exact Hrec].
        destruct r0 as [[[sig' fs'] sg'] st']. intros Ht. apply H, E, Ht.
      * injection H as <-. unfold Pipe.on_stop.
        destruct fr0; try exact E.
        destruct buffer; [exact E|].
        intros Ht. eapply tracks_processed; [|exact (E Ht)]. reflexivity.
      * injection H as <-. exact E.
    + destruct fr0; try discriminate.
      * destruct pending; [discriminate|]. injection H as <-.
        exact (fun Ht => Ht).
      * injection H as <-. exact (fun Ht => Ht).
Qed.

Lemma retry_loop_answers fn retries backoff exceptions item k :
  forall attempt last_exc st,
    fst (Pipe.retry_loop (U:=U) fn retries backoff exceptions item k attempt
           last_exc st) <> Pipe.Stop.
Proof.
  induction k as [|k IH]; intros attempt last_exc st; simpl; [discriminate|].
  destruct (Pipe.call fn item st) as [[v|e] st1]; simpl; [discriminate|].
  destruct (matches exceptions e); [apply IH|discriminate].
Qed.

Ltac drain_now H :=
  injection H as <-; intros [Hn Hs]; simpl in *;
  first [discriminate | split; [exact Hn|first [exact Hs|exact I]]].

Ltac drain_rec Hrec H r :=
  apply Hrec in H; destruct r as [[[?sig ?fs] ?sg] ?st];
  intros [Hn Hs]; apply H; split; [exact Hn|exact Hs].

Lemma on_item_drained rec fr item ups sg st r :
  (forall fs sg st r, rec fs sg st = Some r -> drained fs sg st r) ->
  Pipe.on_item rec fr item ups sg st = Some r ->
  drained (fr :: ups) sg st r.
Proof.
  intros Hrec H. unfold Pipe.on_item in H. unfold drained.
  destruct fr.
  - destruct (Pipe.call fn item st) as [[v|e] st1]; drain_now H.
  - destruct (Pipe.call fn item st) as [[v|e] st1];
      [destruct (iter_value v)|];
      [drain_rec Hrec H r|drain_now H|drain_now H].
  - destruct (Pipe.call fn item st) as [[v|e] st1];
      [destruct (truthy v)|];
      [drain_now H|drain_rec Hrec H r|drain_now H].
  - destruct (Pipe.call fn item st) as [[v|e] st1]; drain_now H.
  - cbv zeta in H. destruct (_ =? size); [drain_now H|drain_rec Hrec H r].
  - drain_now H.
  - destruct (match key with Some k => _ | None => _ end) as [[kv|e] st1];
      [destruct (hashable kv); [destruct (negb _)|]|];
      [drain_now H|drain_rec Hrec H r|drain_now H|drain_now H].
  - pose proof (retry_loop_answers fn retries backoff exceptions item
                  (Z.to_nat (retries + 1)) 0 None st) as Hr.
    destruct (Pipe.retry_loop _ _ _ _ _ _ _ _ _) as [sig st1]. simpl in Hr.
    destruct sig; [drain_now H|congruence|drain_now H].
  - destruct r as [[[sig fs] sg1] st1]. intros [Hn _]. discriminate Hn.
  - destruct (Pipe.call fn item st) as [[v|e] st1]; [drain_now H|].
    destruct (matches exceptions e); [|drain_now H].
    destruct (Pipe.call_handler on_error item e st1) as [[v|e'] st2];
      [drain_rec Hrec H r|drain_now H].
  - injection H as <-. intros [Hn [->|Hs]]; [|discriminate Hs].
    split; [exact Hn|reflexivity].
Qed.

Lemma pull_drained fuel fs sg st r :
  Pipe.pull fuel fs sg st = Some r -> drained fs sg st r.
Proof.
  apply (pull_invariant drained).
  - intros sg0 st0. unfold drained.
    destruct sg0 as [s pos|]; simpl.
    + destruct s as [xs|f|id f]; simpl.
      * destruct (xs !! pos); intros _; split; auto.
      * intros _. split; auto.
      * destruct (f _); intros _; split; auto.
    + intros _. split; reflexivity.
  - intros rec Hrec fr0 ups sg0 st0 r0 H.
    destruct (waits fr0) eqn:Hw.
    + rewrite step_frame_waits in H by exact Hw.
      destruct (rec ups sg0 st0) as [[[[sig ups1] sg1] st1]|] eqn:E;
        [|discriminate].
      apply Hrec in E. unfold drained in E.
      assert (Hfr : is_done fr0 = false) by (destruct fr0; easy).
      assert (Hups : drains (fr0 :: ups) sg0 ->
                     is_take fr0 = false /\ drains ups sg0).
      { unfold drains, no_take, no_done. simpl. rewrite Hfr. simpl.
        intros [Hn Hs]. apply andb_prop in Hn as [Hn1 Hn2].
        apply negb_true_iff in Hn1. auto. }
      destruct sig.
      * apply on_item_drained in H; [|exact Hrec].
        unfold drained in *. destruct r0 as [[[sig' fs'] sg'] st'].
        intros Hd. apply Hups in Hd as [Ht Hd]. apply E in Hd as [Hn Hs].
        apply H. unfold drains, no_take, no_done in *. simpl.
        rewrite Ht, Hfr. simpl. auto.
      * injection H as <-.
        assert (Hstop : drains (fr0 :: ups) sg0 ->
                        no_take ups1 = true /\ sg1 = Pipe.SrcDone)
          by (intros Hd; apply Hups in Hd as [_ Hd]; exact (E Hd)).
        unfold drained, Pipe.on_stop.
        destruct fr0; try destruct buffer; intros Hd;
          apply Hstop in Hd as [Hn ->]; unfold no_take in *; simpl; auto.
      * injection H as <-. unfold drained.
        intros Hd. apply Hups in Hd as [Ht Hd]. apply E in Hd as [Hn _].
        split; [exact Hn|exact I].
    + destruct fr0; try discriminate.
      * destruct pending; [discriminate|]. injection H as <-.
        unfold drained, drains. simpl. auto.
      * injection H as <-. unfold drained, drains. simpl.
        intros [Hn [->|Hs]]; [|discriminate Hs]. auto.
Qed.

(** A run over a list counts no more items than the list has, and counts
    them all when it returns and no operator is [take]. *)
Lemma run_loop_processed xs base fuel sink :
  forall fs sg st out r st',
    Pipe.run_loop fuel sink fs sg st out = Some (r, st') ->
    tracks xs base sg st ->
    processed (Pipe.stats st') <= base + Z.of_nat (length xs)
    /\ (drains fs sg -> forall out', r = Ok out' ->
        processed (Pipe.stats st') = base + Z.of_nat (length xs)).
Proof.
  assert (Hle : forall sg st, tracks xs base sg st ->
            processed (Pipe.stats st) <= base + Z.of_nat (length xs)).
  { intros [s pos|] st; simpl; [intros (_ & Hp & ->)|intros ->]; lia. }
  induction fuel as [|fuel IH]; intros fs sg st out r st' H Ht;
    [discriminate|].
  simpl in H.
  destruct (Pipe.pull fuel fs sg st) as [[[[sig fs1] sg1] st1]|] eqn:E;
    [|discriminate].
  pose proof (pull_tracks xs base _ _ _ _ _ E Ht) as Ht1.
  pose proof (pull_drained _ _ _ _ _ E) as Hd1. unfold drained in Hd1.
  destruct sig as [item| |e].
  - assert (Ht2 : tracks xs base sg1 (Pipe.with_stats Pipe.inc_emitted st1))
      by (eapply tracks_processed; [|exact Ht1]; reflexivity).
    destruct sink as [f|].
    + pose proof (call_stats f item (Pipe.with_stats Pipe.inc_emitted st1)) as Hc.
      destruct (Pipe.call f item _) as [[v|e] st3]; simpl in Hc.
      * apply IH in H;
          [|eapply tracks_processed; [|exact Ht2]; now rewrite Hc].
        destruct H as [H1 H2]. split; [exact H1|].
        intros Hd. apply H2. apply Hd1 in Hd. exact Hd.
      * injection H as <- <-. split; [|discriminate].
        apply (Hle sg1). eapply tracks_processed; [|exact Ht2].
        now rewrite Hc.
    + apply IH in H; [|exact Ht2].
      destruct H as [H1 H2]. split; [exact H1|].
      intros Hd. apply H2. apply Hd1 in Hd. exact Hd.
  - injection H as <- <-. split; [exact (Hle _ _ Ht1)|].
    intros Hd _ _. apply Hd1 in Hd as [_ ->]. exact Ht1.
  - injection H as <- <-. split; [exact (Hle _ _ Ht1)|discriminate].
Qed.

Lemma chain_no_take (p : Pipe.t U) :
  forallb (fun o => negb (op_is_take o)) (Pipe._ops p) = true ->
  drains (Pipe.chain p) (Pipe.SrcGen (Pipe._source p) 0).
Proof.
  intros H. unfold Pipe.chain.
  assert (Hall : forall fr, In fr (rev (List.map Pipe.start (Pipe._ops p))) ->
            is_take fr = false /\ is_done fr = false).
  { intros fr Hin. apply in_rev, in_map_iff in Hin as (o & <- & Hin).
    rewrite forallb_forall in H. specialize (H o Hin).
    destruct o; simpl in *; auto; discriminate. }
  split; [|right]; apply forallb_forall; intros fr Hin;
    apply Hall in Hin as [Ht Hd]; [rewrite Ht|rewrite Hd]; reflexivity.
Qed.

(** *** One-shot iterators: what is consumed is counted *)

Lemma paced_same id base sg st st' :
  processed (Pipe.stats st') = processed (Pipe.stats st) ->
  cursors (Pipe.env st') = cursors (Pipe.env st) ->
  paced id base sg st -> paced id base sg st'.
Proof.
  unfold paced, cursor. intros -> ->. exact (fun H => H).
Qed.

Lemma call_cursors (fn : Pipe.callable U) item st :
  cursors (Pipe.env (snd (Pipe.call fn item st))) = cursors (Pipe.env st).
Proof. unfold Pipe.call. now destruct (fn item _). Qed.

Lemma call_handler_cursors (h : Pipe.handler U) item e st :
  cursors (Pipe.env (snd (Pipe.call_handler h item e st)))
  = cursors (Pipe.env st).
Proof. unfold Pipe.call_handler. now destruct (h item e _). Qed.

Lemma retry_loop_cursors (fn : Pipe.callable U) retries backoff excs item k :
  forall attempt last st,
    cursors (Pipe.env (snd (Pipe.retry_loop fn retries backoff excs item k
                              attempt last st)))
    = cursors (Pipe.env st).
Proof.
  induction k as [|k IH]; intros attempt last st; [reflexivity|].
  simpl. pose proof (call_cursors fn item st) as Hc.
  destruct (Pipe.call fn item st) as [[v|e] st1]; simpl in Hc; [exact Hc|].
  destruct (matches excs e); [|exact Hc].
  rewrite IH. now destruct (_ && _).
Qed.

Ltac paced_now H :=
  injection H as <-; intros Ht; simpl;
  eapply paced_same; [| |exact Ht]; simpl; congruence.

Ltac paced_rec Hrec H r :=
  apply Hrec in H; destruct r as [[[?sig ?fs] ?sg] ?st];
  intros Ht; apply H;
  eapply paced_same; [| |exact Ht]; simpl; congruence.

Lemma on_item_paced id base rec fr item ups sg st r :
  (forall fs sg st r,
      rec fs sg st = Some r ->
      let '(_, _, sg1, st1) := r in
      paced id base sg st -> paced id base sg1 st1) ->
  Pipe.on_item rec fr item ups sg st = Some r ->
  let '(_, _, sg1, st1) := r in
  paced id base sg st -> paced id base sg1 st1.
Proof.
  intros Hrec H. unfold Pipe.on_item in H.
  destruct fr.
  - pose proof (call_stats fn item st) as Hc.
    pose proof (call_cursors fn item st) as Hk.
    destruct (Pipe.call fn item st) as [[v|e] st1]; simpl in Hc, Hk;
      paced_now H.
  - pose proof (call_stats fn item st) as Hc.
    pose proof (call_cursors fn item st) as Hk.
    destruct (Pipe.call fn item st) as [[v|e] st1]; simpl in Hc, Hk;
      [destruct (iter_value v)|];
      [paced_rec Hrec H r|paced_now H|paced_now H].
  - pose proof (call_stats fn item st) as Hc.
    pose proof (call_cursors fn item st) as Hk.
    destruct (Pipe.call fn item st) as [[v|e] st1]; simpl in Hc, Hk;
      [destruct (truthy v)|];
      [paced_now H|paced_rec Hrec H r|paced_now H].
  - pose proof (call_stats fn item st) as Hc.
    pose proof (call_cursors fn item st) as Hk.
    destruct (Pipe.call fn item st) as [[v|e] st1]; simpl in Hc, Hk;
      paced_now H.
  - cbv zeta in H. destruct (_ =? size); [paced_now H|paced_rec Hrec H r].
  - injection H as <-. intros Ht. simpl.
    eapply paced_same; [| |exact Ht];
      (destruct last_time as [t|]; [destruct (negb _)|]; reflexivity).
  - assert (Hc : forall kv st1,
        match key with
        | Some k => Pipe.call k item st
        | None => (Ok item, st)
        end = (kv, st1) ->
        Pipe.stats st1 = Pipe.stats st
        /\ cursors (Pipe.env st1) = cursors (Pipe.env st)).
    { intros kv st1 E. destruct key as [k|].
      - pose proof (call_stats k item st) as Hs.
        pose proof (call_cursors k item st) as Hk.
        rewrite E in Hs, Hk. now split.
      - now injection E as _ <-. }
    destruct (match key with Some k => _ | None => _ end) as [[kv|e] st1];
      destruct (Hc _ _ eq_refl) as [Hs Hk];
      [destruct (hashable kv); [destruct (negb _)|]|];
      [paced_now H|paced_rec Hrec H r|paced_now H|paced_now H].
  - pose proof (retry_loop_counts fn retries backoff exceptions item
                  (Z.to_nat (retries + 1)) 0 None st) as [Hc _].
    pose proof (retry_loop_cursors fn retries backoff exceptions item
                  (Z.to_nat (retries + 1)) 0 None st) as Hk.
    destruct (Pipe.retry_loop _ _ _ _ _ _ _ _ _) as [sig st1].
    simpl in Hc, Hk.
    destruct sig; paced_now H.
  - destruct (n <=? count); paced_now H.
  - pose proof (call_stats fn item st) as Hc.
    pose proof (call_cursors fn item st) as Hk.
    destruct (Pipe.call fn item st) as [[v|e] st1]; simpl in Hc, Hk;
      [paced_now H|].
    destruct (matches exceptions e); [|paced_now H].
    pose proof (call_handler_stats on_error item e st1) as Hh.
    pose proof (call_handler_cursors on_error item e st1) as Hhk.
    destruct (Pipe.call_handler on_error item e st1) as [[v|e'] st2];
      simpl in Hh, Hhk; [paced_rec Hrec H r|paced_now H].
  - paced_now H.
Qed.

Lemma pull_paced id base fuel fs sg st r :
  Pipe.pull fuel fs sg st = Some r ->
  let '(_, _, sg1, st1) := r in
  paced id base sg st -> paced id base sg1 st1.
Proof.
  apply (pull_invariant
           (fun _ sg st r =>
              let '(_, _, sg1, st1) := r in
              paced id base sg st -> paced id base sg1 st1)).
  - intros sg0 st0. unfold paced, cursor.
    destruct sg0 as [[xs|g|id' g] pos|]; simpl; [| | |exact (fun H => H)].
    + destruct (xs !! pos); intros [[f Hf] _]; discriminate Hf.
    + intros [[f Hf] _]. discriminate Hf.
    + destruct (g _) as [item|] eqn:Eg; intros [[f Hf] Hb];
        injection Hf as -> ->; simpl; [|now split].
      split; [now exists f|]. rewrite lookup_insert_eq. simpl. lia.
  - intros rec Hrec fr0 ups sg0 st0 r0 H.
    destruct (waits fr0) eqn:Hw.
    + rewrite step_frame_waits in H by exact Hw.
      destruct (rec ups sg0 st0) as [[[[sig ups1] sg1] st1]|] eqn:E;
        [|discriminate].
      apply Hrec in E.
      destruct sig.
      * apply (on_item_paced id base) in H; [|exact Hrec].
        destruct r0 as [[[sig' fs'] sg'] st']. intros Ht. apply H, E, Ht.
      * injection H as <-. unfold Pipe.on_stop.
        destruct fr0; try exact E.
        destruct buffer; [exact E|].
        intros Ht. eapply paced_same; [| |exact (E Ht)]; reflexivity.
      * injection H as <-. exact E.
    + destruct fr0; try discriminate.
      * destruct pending; [discriminate|]. injection H as <-.
        exact (fun Ht => Ht).
      * injection H as <-. exact (fun Ht => Ht).
Qed.

Lemma run_loop_paced id base fuel sink :
  forall fs sg st out r st',
    Pipe.run_loop fuel sink fs sg st out = Some (r, st') ->
    paced id base sg st ->
    Z.of_nat (cursor id (Pipe.env st')) - processed (Pipe.stats st') = base.
Proof.
  induction fuel as [|fuel IH]; intros fs sg st out r st' H Ht;
    [discriminate|].
  simpl in H.
  destruct (Pipe.pull fuel fs sg st) as [[[[sig fs1] sg1] st1]|] eqn:E;
    [|discriminate].
  pose proof (pull_paced id base _ _ _ _ _ E Ht) as Ht1.
  destruct sig as [item| |e].
  - assert (Ht2 : paced id base sg1 (Pipe.with_stats Pipe.inc_emitted st1))
      by (eapply paced_same; [| |exact Ht1]; reflexivity).
    destruct sink as [f|].
    + pose proof (call_stats f item (Pipe.with_stats Pipe.inc_emitted st1))
        as Hc.
      pose proof (call_cursors f item (Pipe.with_stats Pipe.inc_emitted st1))
        as Hk.
      destruct (Pipe.call f item _) as [[v|e] st3]; cbn [snd] in Hc, Hk.
      * apply IH in H; [exact H|].
        eapply paced_same; [| |exact Ht2]; [now rewrite Hc|exact Hk].
      * injection H as <- <-.
        assert (Ht3 : paced id base sg1 st3)
          by (eapply paced_same; [| |exact Ht2]; [now rewrite Hc|exact Hk]).
        exact (proj2 Ht3).
    + apply IH in H; [exact H|exact Ht2].
  - injection H as <- <-. exact (proj2 Ht1).
  - injection H as <- <-. exact (proj2 Ht1).
Qed.

End SourceConsumption.

(* ------------------------------------------------------------------ *)
(** ** Pipelines of pure callables follow their trace *)

Section TraceSemantics.

Context {U : Type}.

Variable u : U.

Implicit Types (fs ups : list (Pipe.frame U)) (fr : Pipe.frame U)
  (sg : Pipe.srcgen) (st : Pipe.state U).

Lemma answer_pure (fn : Pipe.callable U) f v :
  (forall v u', fn v u' = (f v, u')) -> answer u fn v = f v.
Proof. intros H. unfold answer. now rewrite H. Qed.

Lemma handles_pure (h : Pipe.handler U) f v e :
  (forall v e u', h v e u' = (f v e, u')) -> handles u h v e = f v e.
Proof. intros H. unfold handles. now rewrite H. Qed.

Lemma call_handler_pure (h : Pipe.handler U) f item e st :
  (forall v e u', h v e u' = (f v e, u')) ->
  Pipe.call_handler h item e st = (f item e, st).
Proof.
  intros H. unfold Pipe.call_handler. rewrite H. now rewrite set_user_same.
Qed.

(** With a pure [fn] the attempts of [retry_map] all end alike. *)
Lemma retry_loop_pure (fn : Pipe.callable U) f retries backoff excs item k :
  (forall v u', fn v u' = (f v, u')) ->
  forall attempt last st,
    let r := Pipe.retry_loop fn retries backoff excs item k attempt last st in
    user (Pipe.env (snd r)) = user (Pipe.env st)
    /\ fst r = match k with
              | O => Pipe.Throw (Pipe.py_raise last)
              | S _ =>
                  match f item with
                  | Ok v => Pipe.Yield v
                  | Raise ex => Pipe.Throw ex
                  end
              end.
Proof.
  intros Hf. induction k as [|k IH]; intros attempt last st;
    [split; reflexivity|].
  cbn [Pipe.retry_loop]. rewrite (call_pure fn f item st Hf).
  destruct (f item) as [v|ex] eqn:E; [split; reflexivity|].
  destruct (matches excs ex); [|split; reflexivity].
  match goal with
  | |- context [Pipe.retry_loop _ _ _ _ _ k ?a ?l ?s] =>
      destruct (IH a l s) as [H1 H2]
  end.
  cbv zeta. rewrite H1, H2. split.
  - now destruct (_ && _).
  - destruct k; reflexivity.
Qed.

Lemma follows_source sg st :
  over_list sg ->
  follows u 0 (user (Pipe.env st)) (source_trace sg)
    (let '(sig, sg1, st1) := Pipe.pull_source sg st in (sig, [], sg1, st1)).
Proof.
  destruct sg as [[xs|f|id f] pos|]; intros Hsg; try contradiction; simpl.
  - destruct (xs !! pos) as [x|] eqn:E; simpl.
    + rewrite (drop_S _ _ _ E).
      repeat split; constructor.
    + rewrite drop_ge by (now apply lookup_ge_None).
      repeat split; constructor.
  - repeat split; constructor.
Qed.

Lemma on_yield_now fr ups sg st item ups1 sg1 st1 r :
  waits fr = true ->
  pulls ups sg st (Pipe.Yield item, ups1, sg1, st1) ->
  (forall rec, Pipe.on_item rec fr item ups1 sg1 st1 = Some r) ->
  pulls (fr :: ups) sg st r.
Proof.
  intros Hw Hup H. eapply pulls_on_yield; [exact Hw|exact Hup|].
  exists 0%nat. apply H.
Qed.

Lemma on_yield_loop fr ups sg st item ups1 sg1 st1 fs' sg' st' r :
  waits fr = true ->
  pulls ups sg st (Pipe.Yield item, ups1, sg1, st1) ->
  (forall rec, Pipe.on_item rec fr item ups1 sg1 st1 = rec fs' sg' st') ->
  pulls fs' sg' st' r ->
  pulls (fr :: ups) sg st r.
Proof.
  intros Hw Hup H [fuel Hr]. eapply pulls_on_yield; [exact Hw|exact Hup|].
  exists fuel. now rewrite H.
Qed.

Lemma rest_cons fr ups sg :
  rest u (fr :: ups) sg = frame_trace u fr (rest u ups sg).
Proof. reflexivity. Qed.

Lemma follows_yield n u0 v t fs1 sg1 st1 :
  user (Pipe.env st1) = u0 -> length fs1 = n -> Forall pure_frame fs1 ->
  over_list sg1 -> rest u fs1 sg1 = t ->
  follows u n u0 (emit v t) (Pipe.Yield v, fs1, sg1, st1).
Proof.
  intros H1 H2 H3 H4 H5. unfold follows, emit, prepend. cbn [app fst snd].
  repeat split; try assumption. rewrite H5. now destruct t.
Qed.

Lemma follows_throw n u0 ex fs1 sg1 st1 :
  user (Pipe.env st1) = u0 -> length fs1 = n -> Forall pure_frame fs1 ->
  over_list sg1 ->
  follows u n u0 (fails ex) (Pipe.Throw ex, fs1, sg1, st1).
Proof. intros H1 H2 H3 H4. unfold follows, fails. repeat split; assumption. Qed.

Lemma follows_stop n u0 ups sg1 st1 :
  user (Pipe.env st1) = u0 -> length ups = n -> Forall pure_frame ups ->
  over_list sg1 ->
  follows u (S n) u0 ([], None) (Pipe.Stop, Pipe.FDone :: ups, sg1, st1).
Proof.
  intros H1 H2 H3 H4. unfold follows.
  repeat split; try assumption;
    [simpl; congruence|constructor; easy|].
  rewrite rest_cons. now destruct (rest u ups sg1).
Qed.

Lemma prepend_nil (t : trace) : prepend [] t = t.
Proof. now destruct t. Qed.

(** The generator answers the item [x] of its input at once. *)
Ltac answers_now rw :=
  match goal with
  | Hw : waits _ = true, Hup : pulls _ _ _ (Pipe.Yield _, _, _, _) |- _ =>
      eexists; split;
      [eapply on_yield_now;
       [exact Hw|exact Hup
       |intros rec; cbn [Pipe.on_item]; rw; reflexivity]|]
  end.

(** The generator goes on to the next item of its input, as [fr']. *)
Ltac answers_later fr' st' pure rw :=
  match goal with
  | Hw : waits _ = true,
    Hup : pulls _ _ ?st (Pipe.Yield _, ?ups1, ?sg1, ?st1),
    Hu1 : user (Pipe.env ?st1) = user (Pipe.env ?st),
    Hrest : rest _ ?ups1 ?sg1 = (?l, _),
    IHm : forall m0, (m0 < _)%nat -> _ |- _ =>
      let r := fresh "r" in
      let Hr := fresh "Hr" in
      let Hf := fresh "Hf" in
      destruct (IHm (length l) ltac:(assumption) fr' ups1 sg1 st'
                  ltac:(pure) ltac:(assumption) ltac:(assumption)
                  ltac:(assumption) ltac:(assumption)) as (r & Hr & Hf);
      exists r; split;
      [eapply on_yield_loop;
       [exact Hw|exact Hup
       |intros rec; cbn [Pipe.on_item]; rw; reflexivity|exact Hr]
      |rewrite rest_cons, Hrest in Hf;
       change (user (Pipe.env st')) with (user (Pipe.env st1)) in Hf;
       rewrite Hu1 in Hf; exact Hf]
  end.

Ltac follows_item pure :=
  apply follows_yield; try assumption;
  [simpl; congruence|constructor; [pure|assumption]
  |match goal with
   | Hrest : rest _ _ _ = _ |- _ => now rewrite rest_cons, Hrest
   end].

Ltac follows_raise :=
  apply follows_throw; try assumption; [simpl; congruence|constructor; easy].

(** [next()] on a chain of pure generators over a list answers, and
    answers as the trace says. *)
Lemma pulls_follow n :
  forall fs sg st,
    length fs = n -> Forall pure_frame fs -> over_list sg ->
    exists r,
      pulls fs sg st r
      /\ follows u n (user (Pipe.env st)) (rest u fs sg) r.
Proof.
  induction n as [|n IHn]; intros fs sg st Hlen Hpure Hsg.
  { destruct fs; [|discriminate]. eexists. split; [apply pulls_source|].
    apply follows_source, Hsg. }
  destruct fs as [|fr ups]; [discriminate|]. injection Hlen as Hlen.
  apply Forall_cons_iff in Hpure as [Hfr Hups].
  remember (length (fst (rest u ups sg))) as m eqn:Hm.
  revert fr ups sg st Hfr Hups Hsg Hm Hlen.
  induction m as [m IHm] using lt_wf_ind.
  intros fr ups sg st Hfr Hups Hsg Hm Hlen.
  destruct (waits fr) eqn:Hw.
  2:{ destruct fr; try discriminate Hw.
      - destruct pending as [|y pending]; [discriminate|].
        eexists. split; [exists 1%nat; reflexivity|].
        rewrite rest_cons. destruct (rest u ups sg) as [l e] eqn:ET.
        cbn [frame_trace].
        change (prepend (y :: pending) (flat_map_trace u fn l e))
          with (emit y (prepend pending (flat_map_trace u fn l e))).
        apply follows_yield; try easy; [simpl; congruence|now constructor|].
        rewrite rest_cons, ET. reflexivity.
      - eexists. split; [apply pulls_done|].
        rewrite rest_cons. destruct (rest u ups sg) as [l e].
        now apply follows_stop. }
  destruct (IHn ups sg st Hlen Hups Hsg)
    as ([[[sig ups1] sg1] st1] & Hup & Hfol).
  unfold follows in Hfol. destruct Hfol as (Hu1 & Hl1 & Hp1 & Hsg1 & Hfol).
  rewrite rest_cons.
  destruct (rest u ups sg) as [[|x l] e] eqn:ET.
  - destruct e as [ex|].
    + subst sig. eexists. split; [apply pulls_on_throw; eassumption|].
      replace (frame_trace u fr ([], Some ex)) with (fails ex)
        by (destruct fr; try reflexivity; try discriminate Hw;
            destruct pending; [reflexivity|discriminate Hw]).
      apply follows_throw; try assumption; [simpl; congruence|].
      constructor; easy.
    + destruct Hfol as [-> _].
      eexists. split; [apply pulls_on_stop; eassumption|].
      unfold Pipe.on_stop.
      destruct fr; try discriminate Hw;
        try (now apply follows_stop).
      * destruct pending; [|discriminate]. now apply follows_stop.
      * destruct buffer as [|b buffer]; [now apply follows_stop|].
        cbn [frame_trace batch_trace].
        change ([VList (b :: buffer)], @None exn)
          with (emit (VList (b :: buffer)) ([], None)).
        apply follows_yield; try assumption;
          [simpl; congruence|constructor; easy|].
        rewrite rest_cons. now destruct (rest u ups1 sg1).
  - destruct Hfol as [-> Hrest]. cbn [fst length] in Hm.
    assert (Hlt : (length l < m)%nat) by lia.
    assert (Hml : length l = length (fst (rest u ups1 sg1)))
      by now rewrite Hrest.
    destruct fr; try discriminate Hw.
    + (* map *)
      destruct Hfr as [f Hf].
      cbn [frame_trace map_trace]. rewrite (answer_pure fn f x Hf).
      destruct (f x) as [v|ex] eqn:Efx.
      * answers_now ltac:(rewrite (call_pure fn f x st1 Hf), Efx).
        follows_item ltac:(now exists f).
      * answers_now ltac:(rewrite (call_pure fn f x st1 Hf), Efx).
        follows_raise.
    + (* flat_map *)
      destruct pending; [|discriminate Hw]. destruct Hfr as [f Hf].
      cbn [frame_trace flat_map_trace]. rewrite (answer_pure fn f x Hf).
      rewrite prepend_nil.
      destruct (f x) as [v|ex] eqn:Efx; [destruct (iter_value v) as [ys|] eqn:Ev|].
      * answers_later (Pipe.FFlatMap fn ys) st1 ltac:(now exists f)
          ltac:(rewrite (call_pure fn f x st1 Hf), Efx, Ev).
      * answers_now ltac:(rewrite (call_pure fn f x st1 Hf), Efx, Ev).
        follows_raise.
      * answers_now ltac:(rewrite (call_pure fn f x st1 Hf), Efx).
        follows_raise.
    + (* filter *)
      destruct Hfr as [f Hf].
      cbn [frame_trace filter_trace]. rewrite (answer_pure fn f x Hf).
      destruct (f x) as [v|ex] eqn:Efx; [destruct (truthy v) eqn:Ev|].
      * answers_now ltac:(rewrite (call_pure fn f x st1 Hf), Efx, Ev).
        follows_item ltac:(now exists f).
      * answers_later (Pipe.FFilter fn) (Pipe.with_stats Pipe.inc_dropped st1)
          ltac:(now exists f)
          ltac:(rewrite (call_pure fn f x st1 Hf), Efx, Ev).
      * answers_now ltac:(rewrite (call_pure fn f x st1 Hf), Efx).
        follows_raise.
    + (* tap *)
      destruct Hfr as [f Hf].
      cbn [frame_trace tap_trace]. rewrite (answer_pure fn f x Hf).
      destruct (f x) as [v|ex] eqn:Efx.
      * answers_now ltac:(rewrite (call_pure fn f x st1 Hf), Efx).
        follows_item ltac:(now exists f).
      * answers_now ltac:(rewrite (call_pure fn f x st1 Hf), Efx).
        follows_raise.
    + (* batch *)
      cbn [frame_trace batch_trace]. cbv zeta.
      destruct (Z.of_nat (length (buffer ++ [x])) =? size) eqn:Efull.
      * answers_now ltac:(cbv zeta; rewrite Efull).
        follows_item ltac:(exact I).
      * answers_later (@Pipe.FBatch U size (buffer ++ [x])) st1 ltac:(exact I)
          ltac:(cbv zeta; rewrite Efull).
    + (* rate_limit *)
      cbn [frame_trace].
      change (x :: l, e) with (emit x (l, e)).
      answers_now idtac.
      apply follows_yield; try assumption;
        [|simpl; congruence|constructor; [exact I|assumption]
         |now rewrite rest_cons, Hrest].
      rewrite <- Hu1.
      destruct last_time as [t|]; [destruct (negb _)|]; reflexivity.
    + (* dedupe *)
      cbn [frame_trace dedupe_trace].
      assert (Hkey : exists kv,
                 match key with
                 | Some k => answer u k x
                 | None => Ok x
                 end = kv
                 /\ match key with
                    | Some k => Pipe.call k x st1
                    | None => (Ok x, st1)
                    end = (kv, st1)).
      { destruct key as [k|]; [|now exists (Ok x)].
        destruct Hfr as [f Hf]. exists (f x).
        now rewrite (answer_pure k f x Hf), (call_pure k f x st1 Hf). }
      destruct Hkey as (kv & -> & Hcall).
      destruct kv as [kv|ex];
        [destruct (hashable kv) eqn:Eh;
         [destruct (negb (existsb (value_eqb kv) seen)) eqn:Es|]|].
      * answers_now ltac:(rewrite Hcall, Eh, Es).
        follows_item ltac:(exact Hfr).
      * answers_later (Pipe.FDedupe key max_size seen)
          (Pipe.with_stats Pipe.inc_dropped st1) ltac:(exact Hfr)
          ltac:(rewrite Hcall, Eh, Es).
      * answers_now ltac:(rewrite Hcall, Eh).
        follows_raise.
      * answers_now ltac:(rewrite Hcall).
        follows_raise.
    + (* retry_map *)
      destruct Hfr as [f Hf].
      cbn [frame_trace retry_map_trace]. rewrite (answer_pure fn f x Hf).
      destruct (retry_loop_pure fn f retries backoff exceptions x
                  (Z.to_nat (retries + 1)) Hf 0 None st1) as [Hru Hrs].
      destruct (Pipe.retry_loop fn retries backoff exceptions x
                  (Z.to_nat (retries + 1)) 0 None st1) as [sig st2] eqn:Er.
      cbn [fst snd] in Hru, Hrs.
      destruct (retries + 1 <=? 0) eqn:Ek.
      * replace (Z.to_nat (retries + 1)) with 0%nat in Hrs by lia.
        subst sig.
        answers_now ltac:(rewrite Er).
        apply follows_throw; try assumption;
          [congruence|simpl; congruence|constructor; easy].
      * destruct (Z.to_nat (retries + 1)) eqn:Ek' in Hrs; [lia|].
        destruct (f x) as [v|ex]; subst sig.
        -- answers_now ltac:(rewrite Er).
           apply follows_yield; try assumption;
             [congruence|simpl; congruence
             |constructor; [now exists f|assumption]
             |now rewrite rest_cons, Hrest].
        -- answers_now ltac:(rewrite Er).
           apply follows_throw; try assumption;
             [congruence|simpl; congruence|constructor; easy].
    + (* take *)
      cbn [frame_trace take_trace].
      destruct (n0 <=? count) eqn:En.
      * answers_now ltac:(rewrite En).
        now apply follows_stop.
      * answers_now ltac:(rewrite En).
        follows_item ltac:(exact I).
    + (* catch *)
      destruct Hfr as [[f Hf] [h Hh]].
      cbn [frame_trace catch_trace]. rewrite (answer_pure fn f x Hf).
      destruct (f x) as [v|ex] eqn:Efx.
      * answers_now ltac:(rewrite (call_pure fn f x st1 Hf), Efx).
        follows_item ltac:(split; [now exists f|now exists h]).
      * destruct (matches exceptions ex) eqn:Em.
        -- rewrite (handles_pure on_error h x ex Hh).
           destruct (h x ex) as [v|ex'] eqn:Eh.
           ++ answers_later (Pipe.FCatch fn on_error exceptions)
                (Pipe.with_stats Pipe.inc_errors st1)
                ltac:(split; [now exists f|now exists h])
                ltac:(rewrite (call_pure fn f x st1 Hf), Efx, Em,
                        (call_handler_pure on_error h x ex st1 Hh), Eh).
           ++ answers_now
                ltac:(rewrite (call_pure fn f x st1 Hf), Efx, Em,
                        (call_handler_pure on_error h x ex st1 Hh), Eh).
              follows_raise.
        -- answers_now ltac:(rewrite (call_pure fn f x st1 Hf), Efx, Em).
           follows_raise.
Qed.

Lemma runs_yield_sink (f : Pipe.callable U) fs sg st out item fs1 sg1 st1
    v st3 res :
  pulls fs sg st (Pipe.Yield item, fs1, sg1, st1) ->
  Pipe.call f item (Pipe.with_stats Pipe.inc_emitted st1) = (Ok v, st3) ->
  runs (Some f) fs1 sg1 st3 (out ++ [item]) res ->
  runs (Some f) fs sg st out res.
Proof.
  intros [f1 H1] Hc [f2 H2]. exists (S (Nat.max f1 f2)). simpl.
  rewrite (pull_mono f1 (Nat.max f1 f2) _ _ _ _ (Nat.le_max_l _ _) H1).
  rewrite Hc.
  apply (run_loop_mono f2); [apply Nat.le_max_r|exact H2].
Qed.

Lemma runs_sink_raises (f : Pipe.callable U) fs sg st out item fs1 sg1 st1
    ex st3 :
  pulls fs sg st (Pipe.Yield item, fs1, sg1, st1) ->
  Pipe.call f item (Pipe.with_stats Pipe.inc_emitted st1) = (Raise ex, st3) ->
  runs (Some f) fs sg st out (Raise ex, st3).
Proof.
  intros [f1 H1] Hc. exists (S f1). simpl. now rewrite H1, Hc.
Qed.

(** The loop of [run] over a chain of pure generators delivers the trace of
    the chain to the sink. *)
Lemma runs_deliver sink l :
  forall e fs sg st out,
    Forall pure_frame fs -> over_list sg -> rest u fs sg = (l, e) ->
    exists st',
      runs sink fs sg st out
           (fst (deliver sink l e out (user (Pipe.env st))), st')
      /\ user (Pipe.env st') = snd (deliver sink l e out (user (Pipe.env st))).
Proof.
  induction l as [|x l IH]; intros e fs sg st out Hpure Hsg Hrest;
    destruct (pulls_follow (length fs) fs sg st eq_refl Hpure Hsg)
      as ([[[sig fs1] sg1] st1] & Hp & Hf);
    rewrite Hrest in Hf; destruct Hf as (Hu1 & Hl1 & Hp1 & Hsg1 & Hf).
  - destruct e as [ex|]; [subst sig|destruct Hf as [-> _]]; exists st1; simpl.
    + split; [eapply runs_throw, Hp|exact Hu1].
    + split; [eapply runs_stop, Hp|exact Hu1].
  - destruct Hf as [-> Hrest1]. cbn [deliver].
    destruct sink as [f|].
    + pose (st2 := Pipe.with_stats Pipe.inc_emitted st1).
      assert (Hc : Pipe.call f x st2
                   = (fst (f x (user (Pipe.env st))),
                      Pipe.set_user (snd (f x (user (Pipe.env st)))) st2)).
      { unfold Pipe.call. subst st2. cbn [Pipe.env Pipe.with_stats].
        rewrite Hu1. now destruct (f x _). }
      destruct (f x (user (Pipe.env st))) as [[v|ex] u'] eqn:Ef;
        cbn [fst snd] in Hc.
      * destruct (IH e fs1 sg1 (Pipe.set_user u' st2) (out ++ [x])
                    Hp1 Hsg1 Hrest1) as (st' & Hr & Hu').
        exists st'. split; [|exact Hu'].
        eapply runs_yield_sink; [exact Hp|exact Hc|exact Hr].
      * exists (Pipe.set_user u' st2). split; [|reflexivity].
        eapply runs_sink_raises; [exact Hp|exact Hc].
    + destruct (IH e fs1 sg1 (Pipe.with_stats Pipe.inc_emitted st1)
                  (out ++ [x]) Hp1 Hsg1 Hrest1) as (st' & Hr & Hu').
      cbn [Pipe.env Pipe.with_stats] in Hr, Hu'. rewrite Hu1 in Hr, Hu'.
      exists st'. split; [|exact Hu'].
      eapply runs_yield; [exact Hp|exact Hr].
Qed.

Lemma chain_pure_frames (p : Pipe.t U) :
  Forall pure_op (Pipe._ops p) -> Forall pure_frame (Pipe.chain p).
Proof. intros H. exact (proj2 (chain_pure p H)). Qed.

(** A pipeline of pure callables over a list returns or raises, and the
    caller sees what [deliver] computes from the trace of the pipeline. *)
Lemma returns_deliver (p : Pipe.t U) xs sink (w : world U) :
  Pipe._source p = SeqSource xs ->
  Forall pure_op (Pipe._ops p) ->
  exists res,
    returns p sink w res
    /\ delivered res
       = deliver sink (fst (denote u p xs)) (snd (denote u p xs)) []
                 (user w).
Proof.
  intros Hsrc Hops.
  destruct (runs_deliver sink (fst (denote u p xs)) (snd (denote u p xs))
              (Pipe.chain p) (Pipe.SrcGen (Pipe._source p) 0)
              (Pipe.mkState RunStats_new w) []
              (chain_pure_frames p Hops))
    as (st' & Hr & Hu).
  - rewrite Hsrc. exact I.
  - unfold rest, denote. rewrite Hsrc. cbn [source_trace drop].
    now destruct (chain_trace _ _ _).
  - cbn [Pipe.env] in Hr, Hu.
    destruct (deliver sink _ _ [] (user w)) as [[out|ex] u'] eqn:Ed;
      cbn [fst snd] in Hr, Hu.
    + eexists. split; [apply returns_ok, Hr|].
      unfold delivered. cbn [fst snd]. now rewrite Hu.
    + eexists. split; [apply returns_raise, Hr|].
      unfold delivered. cbn [fst snd]. now rewrite Hu.
Qed.

End TraceSemantics.

(* ------------------------------------------------------------------ *)
(** ** What [retry_map] does to the clock *)

Section Timing.

Context {U : Type}.

Implicit Types (fs ups : list (Pipe.frame U)) (fr : Pipe.frame U)
  (sg : Pipe.srcgen) (st : Pipe.state U).

Lemma retry_loop_S (fn : Pipe.callable U) retries backoff excs item k
    attempt last st :
  Pipe.retry_loop fn retries backoff excs item (S k) attempt last st
  = match Pipe.call fn item st with
    | (Ok v, st1) => (Pipe.Yield v, st1)
    | (Raise e, st1) =>
        if matches excs e then
          let st2 := Pipe.with_stats Pipe.inc_errors st1 in
          let st3 :=
            if (attempt <? retries) && negb (Qle_bool backoff (0 # 1))
            then Pipe.sleep (Qmult backoff (inject_Z (2 ^ attempt))) st2
            else st2 in
          Pipe.retry_loop fn retries backoff excs item k (attempt + 1)
                          (Some e) st3
        else (Pipe.Throw e, st1)
    end.
Proof. reflexivity. Qed.

(** When every attempt fails, [retry_map] makes all its attempts, counts
    each failure, sleeps between the attempts and raises. *)
Lemma retry_loop_backoff (fn : Pipe.callable U) retries backoff excs item k :
  keeps_failing fn excs item ->
  forall attempt last st,
    0 <= attempt -> attempt + Z.of_nat (S k) = retries + 1 ->
    let r := Pipe.retry_loop fn retries backoff excs item (S k) attempt last
               st in
    (exists e, fst r = Pipe.Throw e /\ matches excs e = true)
    /\ errors (Pipe.stats (snd r))
       = errors (Pipe.stats st) + Z.of_nat (S k)
    /\ Qeq (clock (Pipe.env (snd r)))
           (clock (Pipe.env st) + backoff_total backoff retries attempt).
Proof.
  intros Hfail. induction k as [|k IH]; intros attempt last st Ha Hk.
  - rewrite retry_loop_S. unfold Pipe.call.
    destruct (Hfail (user (Pipe.env st))) as (e & u' & -> & Hm).
    rewrite Hm. replace (attempt <? retries) with false
      by (symmetry; apply Z.ltb_ge; lia).
    cbn [andb fst snd Pipe.py_raise Pipe.retry_loop]. split; [now exists e|].
    split; [simpl; lia|].
    unfold backoff_total. replace attempt with retries by lia.
    cbn [Pipe.with_stats Pipe.set_user Pipe.env clock].
    destruct (Qle_bool backoff 0); lra.
  - rewrite retry_loop_S. unfold Pipe.call.
    destruct (Hfail (user (Pipe.env st))) as (e & u' & -> & Hm).
    rewrite Hm. replace (attempt <? retries) with true
      by (symmetry; apply Z.ltb_lt; lia).
    cbn [andb].
    match goal with
    | |- context [Pipe.retry_loop _ _ _ _ _ (S k) ?a ?l ?s] =>
        destruct (IH a l s ltac:(lia) ltac:(lia)) as (He & Hx & Hc)
    end.
    cbv zeta. split; [exact He|]. rewrite Hx. split.
    + destruct (negb _); simpl; lia.
    + rewrite Hc. unfold backoff_total.
      replace (2 ^ (attempt + 1)) with (2 * 2 ^ attempt)
        by (rewrite Z.pow_add_r by lia; lia).
      rewrite inject_Z_mult.
      destruct (Qle_bool backoff 0); simpl negb; cbv iota;
        cbn [Pipe.sleep Pipe.with_stats Pipe.set_user Pipe.env clock];
        change (inject_Z 2) with 2%Q; lra.
Qed.

End Timing.

(* ------------------------------------------------------------------ *)
(** ** Traces of operators whose callables always return *)

Section ListSemantics.

Context {U : Type}.

Variable u : U.









(** [map] yields the results of the items before the first one on which
    [fn] raises, and ends with that exception. *)
Lemma map_trace_fails (fn : Pipe.callable U) (pre post : list value)
    (x : value) (ex : exn) (e0 : option exn) :
  Forall (fun v => exists r, answer u fn v = Ok r) pre ->
  answer u fn x = Raise ex ->
  map_trace u fn (pre ++ x :: post) e0
  = (List.map (value_of u fn) pre, Some ex).
Proof.
  intros Hpre Hx. induction Hpre as [|v pre [r Hv] _ IH]; simpl.
  - now rewrite Hx.
  - rewrite Hv, IH. unfold value_of. now rewrite Hv.
Qed.


Lemma batch_trace_ends (size : Z) (l : list value) :
  forall buffer, snd (batch_trace size buffer l None) = None.
Proof.
  induction l as [|x l IH]; intros buffer; simpl batch_trace.
  - now destruct buffer.
  - destruct (_ =? size); [|apply IH]. exact (IH []).
Qed.

(** Whatever [size] is, the first item [batch] yields from an input that
    is not empty is a list. *)
Lemma batch_trace_first (size : Z) (l : list value) :
  forall buffer,
    l <> [] ->
    exists g rest, batch_trace size buffer l None = (VList g :: rest, None).
Proof.
  induction l as [|x l IH]; intros buffer Hl; [contradiction|].
  simpl batch_trace.
  destruct (Z.of_nat (length (buffer ++ [x])) =? size).
  - pose proof (batch_trace_ends size l []) as He.
    destruct (batch_trace size [] l None) as [rest e]. simpl in He. subst e.
    now exists (buffer ++ [x]), rest.
  - destruct l as [|y l].
    + simpl. destruct (buffer ++ [x]) eqn:Eb.
      * now destruct buffer.
      * now eexists _, [].
    + apply IH. discriminate.
Qed.


(** With [max_size <= 0] every key is evicted as soon as it is inserted,
    so [dedupe] drops nothing. *)
Lemma dedupe_list_forgets (kf : value -> value) (m : Z) (l : list value) :
  m <= 0 -> dedupe_list kf (Some m) [] l = l.
Proof.
  intros Hm. induction l as [|x l IH]; [reflexivity|].
  simpl.
  replace (m <? Z.of_nat 1) with true by (symmetry; apply Z.ltb_lt; lia).
  now rewrite IH.
Qed.

End ListSemantics.

(* ------------------------------------------------------------------ *)
(** ** One item at a time *)

Section ItemwiseSemantics.

Context {U : Type}.

Implicit Types (fs ups : list (Pipe.frame U)) (fr : Pipe.frame U)
  (sg : Pipe.srcgen) (st : Pipe.state U).

Lemma scan_cons fr ups (l : list value) :
  forall u : U,
    scan (fr :: ups) l u
    = match scan ups l u with
      | (Pipe.Yield v, l', u1) =>
          match thread_frame fr v u1 with
          | (Emit w, u2) => (Pipe.Yield w, l', u2)
          | (Skip, u2) => scan (fr :: ups) l' u2
          | (Fail e, u2) => (Pipe.Throw e, l', u2)
          end
      | other => other
      end.
Proof.
  induction l as [|x l IH]; intros u; [reflexivity|].
  cbn [scan thread].
  destruct (thread ups x u) as [[v| |e] u1]; [reflexivity|apply IH|reflexivity].
Qed.

Lemma scan_shorter fs (l : list value) :
  forall (u : U) v l' u',
    scan fs l u = (Pipe.Yield v, l', u') -> (length l' < length l)%nat.
Proof.
  induction l as [|x l IH]; intros u v l' u' H; [discriminate|].
  cbn [scan] in H.
  destruct (thread fs x u) as [[w| |e] u1].
  - injection H as _ <- _. simpl. lia.
  - apply IH in H. simpl. lia.
  - discriminate.
Qed.

Lemma scan_ext fs fs' (l : list value) :
  (forall x (u : U), thread fs' x u = thread fs x u) ->
  forall u, scan fs' l u = scan fs l u.
Proof.
  intros H. induction l as [|x l IH]; intros u; [reflexivity|].
  cbn [scan]. rewrite H.
  destruct (thread fs x u) as [[w| |e] u1]; [reflexivity|apply IH|reflexivity].
Qed.

Lemma stream_ext fs fs' sink (l : list value) :
  (forall x (u : U), thread fs' x u = thread fs x u) ->
  forall u out, stream fs' sink l u out = stream fs sink l u out.
Proof.
  intros H. induction l as [|x l IH]; intros u out; [reflexivity|].
  cbn [stream]. rewrite H.
  destruct (thread fs x u) as [[w| |e] u1]; [|apply IH|reflexivity].
  destruct sink as [f|]; [|apply IH].
  destruct (f w u1) as [[r|e] u2]; [apply IH|reflexivity].
Qed.

Lemma stream_scan fs sink (l : list value) :
  forall (u : U) out,
    stream fs sink l u out
    = match scan fs l u with
      | (Pipe.Yield v, l', u1) =>
          match sink with
          | None => stream fs sink l' u1 (out ++ [v])
          | Some f =>
              match f v u1 with
              | (Ok _, u2) => stream fs sink l' u2 (out ++ [v])
              | (Raise e, u2) => (Raise e, u2)
              end
          end
      | (Pipe.Stop, _, u1) => (Ok out, u1)
      | (Pipe.Throw e, _, u1) => (Raise e, u1)
      end.
Proof.
  induction l as [|x l IH]; intros u out; [reflexivity|].
  cbn [stream scan].
  destruct (thread fs x u) as [[w| |e] u1]; [reflexivity|apply IH|reflexivity].
Qed.

Lemma thread_cons_ext fr fr' ups ups' :
  (forall x (u : U), thread_frame fr' x u = thread_frame fr x u) ->
  (forall x (u : U), thread ups' x u = thread ups x u) ->
  forall x u, thread (fr' :: ups') x u = thread (fr :: ups) x u.
Proof.
  intros Hfr Hups x u. cbn [thread]. rewrite Hups.
  destruct (thread ups x u) as [[w| |e] u1]; [apply Hfr|reflexivity..].
Qed.

(** The body of [on_item] for an operator that handles each item on its
    own is [thread_frame]. *)
Lemma on_item_thread fr (v : value) ups sg st :
  itemwise fr = true ->
  match thread_frame fr v (user (Pipe.env st)) with
  | (Emit w, u2) =>
      exists fr' st2,
        (forall rec,
            Pipe.on_item rec fr v ups sg st
            = Some (Pipe.Yield w, fr' :: ups, sg, st2))
        /\ user (Pipe.env st2) = u2
        /\ itemwise fr' = true
        /\ (forall x u, thread_frame fr' x u = thread_frame fr x u)
  | (Skip, u2) =>
      exists st2,
        (forall rec,
            Pipe.on_item rec fr v ups sg st = rec (fr :: ups) sg st2)
        /\ user (Pipe.env st2) = u2
  | (Fail e, u2) =>
      exists st2,
        (forall rec,
            Pipe.on_item rec fr v ups sg st
            = Some (Pipe.Throw e, Pipe.FDone :: ups, sg, st2))
        /\ user (Pipe.env st2) = u2
  end.
Proof.
  intros Hfr. destruct fr; try discriminate Hfr;
    cbn [thread_frame Pipe.on_item]; unfold Pipe.call, Pipe.call_handler.
  - destruct (fn v (user (Pipe.env st))) as [[r|e] u1].
    + exists (Pipe.FMap fn), (Pipe.set_user u1 st). now repeat split.
    + exists (Pipe.set_user u1 st). now split.
  - destruct (fn v (user (Pipe.env st))) as [[r|e] u1];
      [destruct (truthy r)|].
    + exists (Pipe.FFilter fn), (Pipe.set_user u1 st). now repeat split.
    + exists (Pipe.with_stats Pipe.inc_dropped (Pipe.set_user u1 st)).
      now split.
    + exists (Pipe.set_user u1 st). now split.
  - destruct (fn v (user (Pipe.env st))) as [[r|e] u1].
    + exists (Pipe.FTap fn), (Pipe.set_user u1 st). now repeat split.
    + exists (Pipe.set_user u1 st). now split.
  - eexists _, _. split; [intros rec; reflexivity|].
    split; [|now split].
    destruct last_time as [t|]; [destruct (negb _)|]; reflexivity.
  - destruct (fn v (user (Pipe.env st))) as [[r|e] u1].
    + exists (Pipe.FCatch fn on_error exceptions), (Pipe.set_user u1 st).
      now repeat split.
    + destruct (matches exceptions e).
      * cbn [Pipe.env Pipe.set_user user].
        destruct (on_error v e u1) as [[r|e'] u2].
        -- exists (Pipe.with_stats Pipe.inc_errors
                     (Pipe.set_user u2 (Pipe.set_user u1 st))).
           now split.
        -- exists (Pipe.set_user u2 (Pipe.set_user u1 st)). now split.
      * exists (Pipe.set_user u1 st). now split.
Qed.

Lemma itemwise_waits fr : itemwise fr = true -> waits fr = true.
Proof. now destruct fr. Qed.

(** [next()] on a chain of such operators over a list does what [scan]
    says. *)
Lemma pulls_scan (xs : list value) n :
  forall fs pos st,
    length fs = n -> forallb itemwise fs = true -> scanned n fs xs pos st.
Proof.
  induction n as [|n IHn]; intros fs pos st Hlen Hit.
  { destruct fs; [|discriminate]. unfold scanned.
    pose proof (pulls_source (Pipe.SrcGen (SeqSource xs) pos) st) as Hp.
    cbn [Pipe.pull_source] in Hp.
    destruct (xs !! pos) as [x|] eqn:E.
    - rewrite (drop_S _ _ _ E). cbn [scan thread].
      eexists _, _, _. split; [exact Hp|]. split; [reflexivity|].
      repeat split. now exists (S pos).
    - rewrite drop_ge by (now apply lookup_ge_None). cbn [scan].
      eexists _, _, _. split; [exact Hp|]. now split. }
  destruct fs as [|fr ups]; [discriminate|]. injection Hlen as Hlen.
  cbn [forallb] in Hit. apply andb_prop in Hit as [Hfr Hups].
  remember (length (drop pos xs)) as m eqn:Hm.
  revert fr ups pos st Hfr Hups Hm Hlen.
  induction m as [m IHm] using lt_wf_ind.
  intros fr ups pos st Hfr Hups Hm Hlen.
  pose proof (itemwise_waits fr Hfr) as Hw.
  pose proof (IHn ups pos st Hlen Hups) as Hup. unfold scanned in Hup |- *.
  rewrite scan_cons.
  destruct (scan ups (drop pos xs) (user (Pipe.env st))) as [[sig0 l0] u0]
    eqn:Es.
  destruct Hup as (ups1 & sg1 & st1 & Hup & Hu1 & Hmore).
  destruct sig0 as [v| |e].
  - destruct Hmore as (Hl1 & Hit1 & Hth1 & pos' & -> & Hl0).
    apply scan_shorter in Es as Hlt. subst u0.
    pose proof (on_item_thread fr v ups1 (Pipe.SrcGen (SeqSource xs) pos')
                  st1 Hfr) as Hitem.
    destruct (thread_frame fr v (user (Pipe.env st1))) as [[w| |e] u2].
    + destruct Hitem as (fr' & st2 & Hon & Hu2 & Hfr' & Hth').
      eexists _, _, _. split; [eapply on_yield_now; eassumption|].
      split; [exact Hu2|]. split; [simpl; congruence|].
      split; [simpl; now rewrite Hfr'|].
      split; [now apply thread_cons_ext|]. now exists pos'.
    + destruct Hitem as (st2 & Hon & Hu2).
      assert (Hm' : length l0 = length (drop pos' xs)) by now rewrite Hl0.
      pose proof (IHm (length l0) ltac:(lia) fr ups1 pos' st2 Hfr Hit1 Hm' Hl1)
        as Hnext.
      unfold scanned in Hnext. rewrite Hl0, Hu2 in Hnext.
      rewrite (scan_ext (fr :: ups) (fr :: ups1)) in Hnext
        by (apply thread_cons_ext; [reflexivity|exact Hth1]).
      destruct (scan (fr :: ups) l0 u2) as [[sig l'] u'].
      destruct Hnext as (fs1 & sg2 & st3 & Hp & Hu3 & Hmore).
      exists fs1, sg2, st3.
      split; [eapply on_yield_loop; eassumption|]. split; [exact Hu3|].
      destruct sig; try exact I.
      destruct Hmore as (H1 & H2 & H3 & H4).
      repeat split; try assumption.
      intros x u. rewrite H3. now apply thread_cons_ext.
    + destruct Hitem as (st2 & Hon & Hu2).
      eexists _, _, _. split; [eapply on_yield_now; eassumption|].
      now split.
  - pose proof (pulls_on_stop fr ups _ st ups1 sg1 st1 Hw Hup) as Hstop.
    exists (Pipe.FDone :: ups1), sg1, st1.
    split; [|now split].
    destruct fr; try discriminate Hfr; exact Hstop.
  - eexists _, _, _. split; [eapply pulls_on_throw; eassumption|].
    now split.
Qed.

(** The loop of [run] over such a chain is [stream]. *)
Lemma runs_stream (xs : list value) sink m :
  forall fs pos st out,
    length (drop pos xs) = m ->
    forallb itemwise fs = true ->
    exists st',
      runs sink fs (Pipe.SrcGen (SeqSource xs) pos) st out
           (fst (stream fs sink (drop pos xs) (user (Pipe.env st)) out), st')
      /\ user (Pipe.env st')
         = snd (stream fs sink (drop pos xs) (user (Pipe.env st)) out).
Proof.
  induction m as [m IHm] using lt_wf_ind.
  intros fs pos st out Hm Hit.
  pose proof (pulls_scan xs (length fs) fs pos st eq_refl Hit) as Hp.
  unfold scanned in Hp. rewrite stream_scan.
  destruct (scan fs (drop pos xs) (user (Pipe.env st))) as [[sig l'] u']
    eqn:Es.
  destruct Hp as (fs1 & sg1 & st1 & Hp & Hu1 & Hmore).
  destruct sig as [v| |e].
  - destruct Hmore as (_ & Hit1 & Hth & pos' & -> & <-).
    apply scan_shorter in Es as Hlt.
    destruct sink as [f|].
    + pose (st2 := Pipe.with_stats Pipe.inc_emitted st1).
      assert (Hc : Pipe.call f v st2
                   = (fst (f v u'), Pipe.set_user (snd (f v u')) st2)).
      { unfold Pipe.call. subst st2. cbn [Pipe.env Pipe.with_stats].
        rewrite Hu1. now destruct (f v u'). }
      destruct (f v u') as [[r|e] u2] eqn:Ef; cbn [fst snd] in Hc.
      * destruct (IHm (length (drop pos' xs)) ltac:(lia) fs1 pos'
                    (Pipe.set_user u2 st2) (out ++ [v]) eq_refl Hit1)
          as (st' & Hr & Hu').
        rewrite (stream_ext fs fs1) in Hr, Hu' by exact Hth.
        exists st'. split; [|exact Hu'].
        eapply runs_yield_sink; [exact Hp|exact Hc|exact Hr].
      * exists (Pipe.set_user u2 st2). split; [|reflexivity].
        eapply runs_sink_raises; [exact Hp|exact Hc].
    + destruct (IHm (length (drop pos' xs)) ltac:(lia) fs1 pos'
                  (Pipe.with_stats Pipe.inc_emitted st1) (out ++ [v])
                  eq_refl Hit1) as (st' & Hr & Hu').
      rewrite (stream_ext fs fs1) in Hr, Hu' by exact Hth.
      cbn [Pipe.env Pipe.with_stats] in Hr, Hu'. rewrite Hu1 in Hr, Hu'.
      exists st'. split; [|exact Hu'].
      eapply runs_yield; [exact Hp|exact Hr].
  - exists st1. split; [eapply runs_stop, Hp|exact Hu1].
  - exists st1. split; [eapply runs_throw, Hp|exact Hu1].
Qed.

Lemma chain_itemwise (p : Pipe.t U) :
  forallb op_itemwise (Pipe._ops p) = true ->
  forallb itemwise (Pipe.chain p) = true.
Proof.
  intros H. unfold Pipe.chain. apply forallb_forall. intros fr Hin.
  apply in_rev, in_map_iff in Hin as (o & <- & Hin).
  rewrite forallb_forall in H. exact (H o Hin).
Qed.

(** *** Steady chains over an unbounded source *)








(** [catch] over a list, with a pure [fn] whose failures are all caught
    and an [on_error] that returns. *)
Lemma stream_catch (fn : Pipe.callable U) (f : value -> result value)
    (on_error : Pipe.handler U) (exceptions : list exc_class)
    (l : list value) :
  (forall v u, fn v u = (f v, u)) ->
  (forall v e, f v = Raise e -> matches exceptions e = true) ->
  (forall v e u, exists r u', on_error v e u = (Ok r, u')) ->
  forall u out,
    stream [Pipe.FCatch fn on_error exceptions] None l u out
    = (Ok (out ++ successes f l), handle_all on_error (failures f l) u).
Proof.
  intros Hfn Hm Hh. induction l as [|x l IH]; intros u out.
  - simpl. now rewrite app_nil_r.
  - cbn [stream thread thread_frame successes failures]. rewrite Hfn.
    destruct (f x) as [v|e] eqn:E.
    + rewrite IH. now rewrite <- app_assoc.
    + rewrite (Hm x e E).
      destruct (Hh x e u) as (r & u' & Eh). rewrite Eh.
      rewrite IH. unfold handle_all. cbn [fold_left fst snd].
      now rewrite Eh.
Qed.

(** What [run] returns is what its loop leaves. *)
Lemma run_returns_loop (fuel : nat) (p : Pipe.t U) sink (w w' : world U)
    (s : RunStats) (out : list value) :
  Pipe.run fuel p sink w = Some (Ok (s, out), w') ->
  exists st,
    Pipe.run_loop fuel sink (Pipe.chain p) (Pipe.SrcGen (Pipe._source p) 0)
                  (Pipe.mkState RunStats_new w) [] = Some (Ok out, st)
    /\ processed s = processed (Pipe.stats st)
    /\ emitted s = emitted (Pipe.stats st)
    /\ dropped s = dropped (Pipe.stats st)
    /\ batches s = batches (Pipe.stats st)
    /\ errors s = errors (Pipe.stats st)
    /\ w' = Pipe.env st.
Proof.
  unfold Pipe.run. intros H.
  destruct (Pipe.run_loop fuel sink _ _ _ _) as [[[o|e] st]|];
    try discriminate.
  injection H as <- <- <-. exists st. repeat split.
Qed.

End ItemwiseSemantics.

(* ------------------------------------------------------------------ *)
(** ** [retry_map] over a list, round by round *)

Section RetryRounds.

Context {U : Type}.

Implicit Types (st : Pipe.state (U * list (value * result value))).

Lemma call_beside (g : Pipe.callable U) (v : value) st :
  (forall v u, exists v' u', g v u = (Ok v', u')) ->
  exists r st',
    Pipe.call (beside g) v st = (Ok r, st')
    /\ Pipe.stats st' = Pipe.stats st
    /\ trace_log st' = trace_log st.
Proof.
  intros Hg. unfold Pipe.call, beside.
  destruct (Hg v (fst (user (Pipe.env st)))) as (v' & u' & ->).
  eexists _, _. repeat split.
Qed.

(** The loop of [run] over the generator of [retry_map] on a list: one
    round for each item, until the list ends or a round raises. *)
Lemma retry_rounds (fn : Pipe.callable U) (retries : Z) (backoff : Q)
    (excs : list exc_class) (sink : option (Pipe.callable U))
    (rest : list value) :
  0 <= retries ->
  quiet_sink sink ->
  forall (done : list value) st out,
    exists res st' rounds,
      runs (option_map beside sink)
           [Pipe.FRetryMap (traced fn) retries backoff excs]
           (Pipe.SrcGen (SeqSource (done ++ rest)) (length done)) st out
           (res, st')
      /\ Forall (round_ok retries excs) rounds
      /\ List.map r_item rounds = firstn (length rounds) rest
      /\ trace_log st' = trace_log st ++ concat (List.map round_calls rounds)
      /\ match res with
         | Ok out' =>
             exists vs,
               out' = out ++ vs
               /\ List.map r_end rounds = List.map (fun v => Some (Ok v)) vs
               /\ length rounds = length rest
               /\ processed (Pipe.stats st')
                  = processed (Pipe.stats st) + Z.of_nat (length rest)
               /\ emitted (Pipe.stats st')
                  = emitted (Pipe.stats st) + Z.of_nat (length rest)
               /\ errors (Pipe.stats st')
                  = errors (Pipe.stats st)
                    + Z.of_nat (length (concat (List.map r_fails rounds)))
         | Raise e =>
             exists before r,
               rounds = before ++ [r]
               /\ Forall (fun r' => exists v, r_end r' = Some (Ok v)) before
               /\ round_raises r e
         end.
Proof.
  intros Hr Hsink.
  induction rest as [|x rest IH]; intros done st out.
  - exists (Ok out), st, []. split.
    + rewrite app_nil_r. eapply runs_stop.
      apply (pulls_on_stop (Pipe.FRetryMap (traced fn) retries backoff excs) []);
        [reflexivity|apply pulls_list_end].
    + split; [constructor|]. split; [reflexivity|].
      split; [simpl; now rewrite app_nil_r|].
      exists []. rewrite app_nil_r. simpl. repeat split; lia.
  - pose (st1 := Pipe.with_stats Pipe.inc_processed st).
    destruct (Pipe.retry_loop (traced fn) retries backoff excs x
                (Z.to_nat (retries + 1)) 0 None st1) as [sig st2] eqn:E.
    pose proof (retry_loop_counts (traced fn) retries backoff excs x
                  (Z.to_nat (retries + 1)) 0 None st1) as [Hproc Hemit].
    rewrite E in Hproc, Hemit. cbn [snd] in Hproc, Hemit.
    assert (Hp : pulls [Pipe.FRetryMap (traced fn) retries backoff excs]
                   (Pipe.SrcGen (SeqSource (done ++ x :: rest)) (length done))
                   st
                   (sig,
                    [match sig with
                     | Pipe.Yield _ =>
                         Pipe.FRetryMap (traced fn) retries backoff excs
                     | _ => Pipe.FDone
                     end],
                    Pipe.SrcGen (SeqSource (done ++ x :: rest))
                                (S (length done)), st2)).
    { eapply on_yield_now; [reflexivity|apply pulls_list_next|].
      intros rec. cbn [Pipe.on_item]. fold st1. rewrite E. now destruct sig. }
    apply retry_loop_trace in E as (fails & Hall & Herr & Hcase).
    destruct Hcase as [(v & -> & Hlog & Hlen)|[(e & -> & Hm & Hlog & Hlen)
                                              |(-> & Hlog & Hlen)]].
    + (* a success: the item is delivered and the loop goes on *)
      assert (Hnext : exists st3,
                 (forall res st',
                     runs (option_map beside sink)
                       [Pipe.FRetryMap (traced fn) retries backoff excs]
                       (Pipe.SrcGen (SeqSource (done ++ x :: rest))
                                    (S (length done))) st3 (out ++ [v])
                       (res, st') ->
                     runs (option_map beside sink)
                       [Pipe.FRetryMap (traced fn) retries backoff excs]
                       (Pipe.SrcGen (SeqSource (done ++ x :: rest))
                                    (length done)) st out (res, st'))
                 /\ Pipe.stats st3 = Pipe.inc_emitted (Pipe.stats st2)
                 /\ trace_log st3 = trace_log st2).
      { destruct sink as [g|]; cbn [option_map].
        - destruct (call_beside g v (Pipe.with_stats Pipe.inc_emitted st2)
                      Hsink) as (r & st3 & Hc & Hs & Hl).
          exists st3. split; [|now split].
          intros res st' Hrun. eapply runs_yield_sink; eassumption.
        - exists (Pipe.with_stats Pipe.inc_emitted st2).
          split; [|now split].
          intros res st' Hrun. eapply runs_yield; eassumption. }
      destruct Hnext as (st3 & Hglue & Hs3 & Hl3).
      destruct (IH (done ++ [x]) st3 (out ++ [v]))
        as (res & st' & rounds & Hrun & Hok & Hitems & Htrace & Hres).
      rewrite <- app_assoc, length_app in Hrun. cbn [app length] in Hrun.
      rewrite Nat.add_1_r in Hrun.
      exists res, st', (mkRound x fails (Some (Ok v)) :: rounds).
      split; [apply Hglue, Hrun|].
      split; [constructor; [split; [exact Hall|simpl; lia]|exact Hok]|].
      split; [simpl; now rewrite Hitems|].
      split.
      { rewrite Htrace, Hl3, Hlog. subst st1.
        unfold trace_log, round_calls.
        cbn [List.map concat r_item r_fails r_end Pipe.env Pipe.with_stats].
        now rewrite <- !app_assoc. }
      destruct res as [out'|e].
      * destruct Hres as (vs & -> & Hends & Hlen' & Hp' & He' & Hx').
        exists (v :: vs). rewrite <- app_assoc. split; [reflexivity|].
        split; [simpl; now rewrite Hends|]. split; [simpl; now rewrite Hlen'|].
        rewrite Hs3 in Hp', He', Hx'. subst st1.
        cbn [processed emitted errors Pipe.inc_emitted Pipe.inc_processed
             Pipe.stats Pipe.with_stats] in *.
        cbn [List.map concat r_fails length]. rewrite length_app.
        repeat split; lia.
      * destruct Hres as (before & r & -> & Hbefore & Hraise).
        exists (mkRound x fails (Some (Ok v)) :: before), r.
        split; [reflexivity|]. split; [|exact Hraise].
        constructor; [now exists v|exact Hbefore].
    + (* a failure that is not caught *)
      exists (Raise e), st2, [mkRound x fails (Some (Raise e))].
      split; [eapply runs_throw, Hp|].
      split; [constructor; [split; [exact Hall|split; [exact Hm|simpl; lia]]
                           |constructor]|].
      split; [reflexivity|].
      split.
      { rewrite Hlog. subst st1. unfold trace_log, round_calls.
        cbn [List.map concat r_item r_fails r_end Pipe.env Pipe.with_stats].
        now rewrite app_nil_r. }
      exists [], (mkRound x fails (Some (Raise e))).
      split; [reflexivity|]. split; [constructor|now left].
    + (* no attempt is left *)
      destruct (last fails) as [e|] eqn:El.
      2:{ apply last_None in El. subst fails. simpl in Hlen. lia. }
      assert (Ee : last_failure fails None = e).
      { unfold last_failure. now rewrite El. }
      rewrite Ee in Hp.
      exists (Raise e), st2, [mkRound x fails None].
      split; [eapply runs_throw, Hp|].
      split; [constructor; [split; [exact Hall|simpl; lia]|constructor]|].
      split; [reflexivity|].
      split.
      { rewrite Hlog. subst st1. unfold trace_log, round_calls.
        cbn [List.map concat r_item r_fails r_end Pipe.env Pipe.with_stats].
        now rewrite !app_nil_r. }
      exists [], (mkRound x fails None).
      split; [reflexivity|]. split; [constructor|right; now split].
Qed.

End RetryRounds.

(* ------------------------------------------------------------------ *)
(** ** Which operator counts what *)

Section Ownership.

Context {U : Type}.

Implicit Types (fs ups : list (Pipe.frame U)) (fr : Pipe.frame U)
  (sg : Pipe.srcgen) (st : Pipe.state U).

Lemma read_stats c st st' :
  Pipe.stats st' = Pipe.stats st ->
  read c (Pipe.stats st') = read c (Pipe.stats st).
Proof. now intros ->. Qed.

Lemma retry_loop_reads (fn : Pipe.callable U) retries backoff excs item k :
  forall attempt last st,
    let st' :=
      snd (Pipe.retry_loop fn retries backoff excs item k attempt last st) in
    dropped (Pipe.stats st') = dropped (Pipe.stats st)
    /\ batches (Pipe.stats st') = batches (Pipe.stats st).
Proof.
  induction k as [|k IH]; intros attempt last st; [split; reflexivity|].
  simpl. pose proof (call_stats fn item st) as Hc.
  destruct (Pipe.call fn item st) as [[v|e] st1]; simpl in Hc.
  - simpl. now rewrite Hc.
  - destruct (matches excs e); [|simpl; now rewrite Hc].
    match goal with
    | |- context [Pipe.retry_loop _ _ _ _ _ k ?a ?l ?s] =>
        destruct (IH a l s) as [H1 H2]
    end.
    rewrite H1, H2. destruct (_ && _); simpl; now rewrite Hc.
Qed.

(** Close a case of [on_item] in which the generator answers at once. *)
Ltac owned r :=
  destruct r as [[[? ?] ?] ?]; intros Hq; simpl in Hq; discriminate Hq.

Ltac untouched_now H :=
  injection H as <-; intros Hq; split; [exact Hq|];
  simpl; congruence.

Ltac untouched_rec Hrec H r :=
  apply Hrec in H; destruct r as [[[?sig ?fs] ?sg] ?st];
  intros Hq; destruct (H Hq) as [Hq1 Hr1]; split; [exact Hq1|];
  rewrite Hr1; simpl; congruence.

Lemma on_item_untouched c rec fr item ups sg st r :
  (forall fs sg st r, rec fs sg st = Some r -> untouched c fs sg st r) ->
  Pipe.on_item rec fr item ups sg st = Some r ->
  untouched c (fr :: ups) sg st r.
Proof.
  intros Hrec H. unfold Pipe.on_item in H. unfold untouched.
  destruct fr.
  - destruct c;
      (pose proof (call_stats fn item st) as Hc;
       destruct (Pipe.call fn item st) as [[v|e] st1]; simpl in Hc;
       untouched_now H).
  - destruct c;
      (pose proof (call_stats fn item st) as Hc;
       destruct (Pipe.call fn item st) as [[v|e] st1]; simpl in Hc;
       [destruct (iter_value v)|];
       [untouched_rec Hrec H r|untouched_now H|untouched_now H]).
  - destruct c; try owned r;
      (pose proof (call_stats fn item st) as Hc;
       destruct (Pipe.call fn item st) as [[v|e] st1]; simpl in Hc;
       [destruct (truthy v)|];
       [untouched_now H|untouched_rec Hrec H r|untouched_now H]).
  - destruct c;
      (pose proof (call_stats fn item st) as Hc;
       destruct (Pipe.call fn item st) as [[v|e] st1]; simpl in Hc;
       untouched_now H).
  - cbv zeta in H.
    destruct c; try owned r;
      (destruct (_ =? size); [untouched_now H|untouched_rec Hrec H r]).
  - destruct c;
      (injection H as <-; intros Hq; split; [exact Hq|];
       destruct last_time as [t|]; [destruct (negb _)|]; reflexivity).
  - assert (Hc : forall kv st1,
        match key with
        | Some k => Pipe.call k item st
        | None => (Ok item, st)
        end = (kv, st1) -> Pipe.stats st1 = Pipe.stats st).
    { intros kv st1 E. destruct key as [k|].
      - pose proof (call_stats k item st) as Hk. now rewrite E in Hk.
      - now injection E as _ <-. }
    destruct c; try owned r;
      (destruct (match key with Some k => _ | None => _ end)
         as [[kv|e] st1];
       specialize (Hc _ _ eq_refl);
       [destruct (hashable kv); [destruct (negb _)|]|];
       [untouched_now H|untouched_rec Hrec H r
       |untouched_now H|untouched_now H]).
  - pose proof (retry_loop_reads fn retries backoff exceptions item
                  (Z.to_nat (retries + 1)) 0 None st) as [Hd Hb].
    destruct (Pipe.retry_loop _ _ _ _ _ _ _ _ _) as [sig st1].
    simpl in Hd, Hb.
    destruct c; try owned r; (destruct sig; untouched_now H).
  - destruct c; (destruct (n <=? count); untouched_now H).
  - destruct c; try owned r;
      (pose proof (call_stats fn item st) as Hc;
       destruct (Pipe.call fn item st) as [[v|e] st1]; simpl in Hc;
       [untouched_now H|];
       destruct (matches exceptions e); [|untouched_now H];
       pose proof (call_handler_stats on_error item e st1) as Hh;
       destruct (Pipe.call_handler on_error item e st1) as [[v|e'] st2];
       simpl in Hh; [untouched_rec Hrec H r|untouched_now H]).
  - destruct c; untouched_now H.
Qed.

Lemma nobody_owns_done c ups :
  nobody_owns c (Pipe.FDone :: ups) = nobody_owns c ups.
Proof. now destruct c. Qed.

Lemma pull_untouched c fuel fs sg st r :
  Pipe.pull fuel fs sg st = Some r -> untouched c fs sg st r.
Proof.
  apply (pull_invariant (untouched c)).
  - intros sg0 st0. unfold untouched.
    destruct sg0 as [s pos|]; simpl.
    + destruct s as [xs|f|id f]; simpl.
      * destruct (xs !! pos); intros _; split; try reflexivity;
          now destruct c.
      * intros _. split; try reflexivity; now destruct c.
      * destruct (f _); intros _; split; try reflexivity; now destruct c.
    + intros _. split; reflexivity.
  - intros rec Hrec fr0 ups sg0 st0 r0 H.
    destruct (waits fr0) eqn:Hw.
    + rewrite step_frame_waits in H by exact Hw.
      destruct (rec ups sg0 st0) as [[[[sig ups1] sg1] st1]|] eqn:E;
        [|discriminate].
      apply Hrec in E. unfold untouched in E.
      assert (Hups : nobody_owns c (fr0 :: ups) = true ->
                     owns c fr0 = false /\ nobody_owns c ups1 = true
                     /\ read c (Pipe.stats st1) = read c (Pipe.stats st0)).
      { unfold nobody_owns. simpl. intros Hq.
        apply andb_prop in Hq as [Hq1 Hq2].
        apply negb_true_iff in Hq1. split; [exact Hq1|]. exact (E Hq2). }
      destruct sig.
      * apply (on_item_untouched c) in H; [|exact Hrec].
        unfold untouched in *. destruct r0 as [[[sig' fs'] sg'] st'].
        intros Hq. apply Hups in Hq as (Ho & Hq & Hr).
        rewrite <- Hr. apply H. unfold nobody_owns in *. simpl.
        now rewrite Ho.
      * injection H as <-. unfold untouched, Pipe.on_stop.
        destruct fr0; try destruct buffer; intros Hq;
          apply Hups in Hq as (Ho & Hq & Hr);
          rewrite nobody_owns_done;
          (split; [exact Hq|]); try exact Hr.
        destruct c; try discriminate Ho; exact Hr.
      * injection H as <-. unfold untouched.
        intros Hq. apply Hups in Hq as (Ho & Hq & Hr).
        rewrite nobody_owns_done. split; [exact Hq|exact Hr].
    + destruct fr0; try discriminate.
      * destruct pending; [discriminate|]. injection H as <-.
        unfold untouched. intros Hq. split; [exact Hq|reflexivity].
      * injection H as <-. unfold untouched.
        intros Hq. split; [exact Hq|reflexivity].
Qed.

(** A counter that no operator of the chain counts stays as it is through
    the loop of [run]. *)
Lemma run_loop_untouched c fuel sink :
  forall fs sg st out r st',
    Pipe.run_loop fuel sink fs sg st out = Some (r, st') ->
    nobody_owns c fs = true ->
    read c (Pipe.stats st') = read c (Pipe.stats st).
Proof.
  induction fuel as [|fuel IH]; intros fs sg st out r st' H Hq;
    [discriminate|].
  simpl in H.
  destruct (Pipe.pull fuel fs sg st) as [[[[sig fs1] sg1] st1]|] eqn:E;
    [|discriminate].
  apply (pull_untouched c) in E. destruct (E Hq) as [Hq1 Hr1].
  destruct sig as [item| |e].
  - assert (Hr2 : read c (Pipe.stats (Pipe.with_stats Pipe.inc_emitted st1))
                  = read c (Pipe.stats st)) by (rewrite <- Hr1; now destruct c).
    destruct sink as [f|].
    + pose proof (call_stats f item (Pipe.with_stats Pipe.inc_emitted st1))
        as Hc.
      destruct (Pipe.call f item _) as [[v|e] st3]; cbn [snd] in Hc.
      * apply IH in H; [|exact Hq1]. now rewrite H, Hc.
      * injection H as <- <-. now rewrite Hc.
    + apply IH in H; [|exact Hq1]. now rewrite H.
  - now injection H as <- <-.
  - now injection H as <- <-.
Qed.

Lemma chain_nobody_owns c (p : Pipe.t U) :
  forallb (fun o => negb (op_owns c o)) (Pipe._ops p) = true ->
  nobody_owns c (Pipe.chain p) = true.
Proof.
  intros H. unfold nobody_owns, Pipe.chain.
  apply forallb_forall. intros fr Hin.
  apply in_rev, in_map_iff in Hin as (o & <- & Hin).
  rewrite forallb_forall in H. exact (H o Hin).
Qed.

(** *** [batch] as the last operator *)

Lemma is_group_snoc (buffer : list value) (x : value) :
  is_group (VList (buffer ++ [x])) = true.
Proof. now destruct buffer. Qed.

(** [next()] on the generator of [batch] counts a batch exactly when it
    yields, and what it yields is a group. *)
Lemma pull_batch_on_top size fuel :
  forall buffer ups sg st sig fs1 sg1 st1,
    nobody_owns Batches ups = true ->
    Pipe.pull fuel (Pipe.FBatch size buffer :: ups) sg st
    = Some (sig, fs1, sg1, st1) ->
    match sig with
    | Pipe.Yield v =>
        is_group v = true
        /\ batches (Pipe.stats st1) = batches (Pipe.stats st) + 1
        /\ batch_on_top size fs1
    | _ => batches (Pipe.stats st1) = batches (Pipe.stats st)
    end.
Proof.
  induction fuel as [|fuel IH];
    intros buffer ups sg st sig fs1 sg1 st1 Hq H; [discriminate|].
  cbn [Pipe.pull] in H. rewrite step_frame_waits in H by reflexivity.
  destruct (Pipe.pull fuel ups sg st) as [[[[sig0 ups1] sg0] st0]|] eqn:E;
    [|discriminate].
  apply (pull_untouched Batches) in E. destruct (E Hq) as [Hq1 Hb].
  simpl in Hb.
  destruct sig0 as [item| |e].
  - cbn [Pipe.on_item] in H. cbv zeta in H.
    destruct (_ =? size).
    + injection H as <- <- <- <-.
      split; [apply is_group_snoc|]. split; [simpl; lia|].
      exists (Pipe.FBatch size []), ups1. split; [reflexivity|].
      split; [right; now exists []|exact Hq1].
    + apply IH in H; [|exact Hq1]. rewrite <- Hb. exact H.
  - unfold Pipe.on_stop in H. destruct buffer as [|b buffer].
    + injection H as <- <- <- <-. exact Hb.
    + injection H as <- <- <- <-.
      split; [reflexivity|]. split; [simpl; lia|].
      exists Pipe.FDone, ups1. split; [reflexivity|]. split; [now left|exact Hq1].
  - injection H as <- <- <- <-. exact Hb.
Qed.

(** Through the loop of [run], every delivered item is a group and is
    counted in [batches]. *)
Lemma run_loop_batch_on_top size fuel sink :
  forall fs sg st out out' st',
    Pipe.run_loop fuel sink fs sg st out = Some (Ok out', st') ->
    batch_on_top size fs ->
    exists more,
      out' = out ++ more
      /\ forallb is_group more = true
      /\ batches (Pipe.stats st')
         = batches (Pipe.stats st) + Z.of_nat (length more).
Proof.
  induction fuel as [|fuel IH]; intros fs sg st out out' st' H Htop;
    [discriminate|].
  cbn [Pipe.run_loop] in H.
  destruct Htop as (fr & ups & -> & Hfr & Hq).
  destruct (Pipe.pull fuel (fr :: ups) sg st) as [[[[sig fs1] sg1] st1]|] eqn:E;
    [|discriminate].
  assert (Hpull : match sig with
                  | Pipe.Yield v =>
                      is_group v = true
                      /\ batches (Pipe.stats st1) = batches (Pipe.stats st) + 1
                      /\ batch_on_top size fs1
                  | _ => batches (Pipe.stats st1) = batches (Pipe.stats st)
                  end).
  { destruct Hfr as [->|[buffer ->]].
    - destruct fuel as [|fuel']; [discriminate|].
      cbn in E. now injection E as <- <- <- <-.
    - exact (pull_batch_on_top size fuel _ _ _ _ _ _ _ _ Hq E). }
  destruct sig as [item| |e]; [| |discriminate].
  - destruct Hpull as (Hg & Hb & Htop1). cbv zeta in H.
    assert (Hnext : exists st2,
               Pipe.run_loop fuel sink fs1 sg1 st2 (out ++ [item])
               = Some (Ok out', st')
               /\ batches (Pipe.stats st2) = batches (Pipe.stats st1)).
    { destruct sink as [f|]; [|eexists; split; [exact H|reflexivity]].
      pose proof (call_stats f item (Pipe.with_stats Pipe.inc_emitted st1))
        as Hc.
      destruct (Pipe.call f item _) as [[v|e] st3]; [|discriminate].
      exists st3. split; [exact H|]. cbn [snd] in Hc. now rewrite Hc. }
    destruct Hnext as (st2 & Hrun & Hb2).
    apply IH in Hrun as (more & -> & Hgs & Hbs); [|exact Htop1].
    exists (item :: more). split; [now rewrite <- app_assoc|].
    split; [simpl; now rewrite Hg|].
    rewrite Hbs, Hb2, Hb. simpl length. lia.
  - injection H as <- <-. exists []. rewrite app_nil_r.
    split; [reflexivity|]. split; [reflexivity|]. simpl. lia.
Qed.

(** *** Every item pulled is emitted, dropped or counted as an error *)

Lemma balance_stats st st' :
  Pipe.stats st' = Pipe.stats st -> balance st' = balance st.
Proof. unfold balance. now intros ->. Qed.

Ltac settles_now H Hc Hq :=
  injection H as <-; simpl;
  first [exact I | split; [exact Hq|apply balance_stats; exact Hc]].

Ltac settles_rec Hrec H r Hc Hq :=
  apply Hrec in H; destruct r as [[[?sig ?fs] ?sg] ?st];
  specialize (H Hq); unfold balance in *; simpl in H |- *;
  rewrite Hc in H; destruct sig;
  [split; [exact (proj1 H)|destruct H as [_ H]; lia]|lia|exact I].

Lemma on_item_settles rec fr item ups sg st r :
  (forall fs sg st r, rec fs sg st = Some r -> settles fs sg st r) ->
  Pipe.on_item rec fr item ups sg st = Some r ->
  waits fr = true ->
  forallb one_to_one (fr :: ups) = true ->
  settles_item st r.
Proof.
  intros Hrec H Hw Hq. unfold Pipe.on_item in H. unfold settles_item.
  destruct fr; try discriminate Hq; try discriminate Hw.
  - pose proof (call_stats fn item st) as Hc.
    destruct (Pipe.call fn item st) as [[v|e] st1]; simpl in Hc;
      settles_now H Hc Hq.
  - pose proof (call_stats fn item st) as Hc.
    destruct (Pipe.call fn item st) as [[v|e] st1]; simpl in Hc;
      [destruct (truthy v)|];
      [settles_now H Hc Hq|settles_rec Hrec H r Hc Hq|settles_now H Hc Hq].
  - pose proof (call_stats fn item st) as Hc.
    destruct (Pipe.call fn item st) as [[v|e] st1]; simpl in Hc;
      settles_now H Hc Hq.
  - injection H as <-. split; [exact Hq|]. apply balance_stats.
    destruct last_time as [t|]; [destruct (negb _)|]; reflexivity.
  - assert (Hc : forall kv st1,
        match key with
        | Some k => Pipe.call k item st
        | None => (Ok item, st)
        end = (kv, st1) -> Pipe.stats st1 = Pipe.stats st).
    { intros kv st1 E. destruct key as [k|].
      - pose proof (call_stats k item st) as Hk. now rewrite E in Hk.
      - now injection E as _ <-. }
    destruct (match key with Some k => _ | None => _ end) as [[kv|e] st1];
      specialize (Hc _ _ eq_refl);
      [destruct (hashable kv); [destruct (negb _)|]|];
      [settles_now H Hc Hq|settles_rec Hrec H r Hc Hq
      |settles_now H Hc Hq|settles_now H Hc Hq].
  - pose proof (call_stats fn item st) as Hc.
    destruct (Pipe.call fn item st) as [[v|e] st1]; simpl in Hc;
      [settles_now H Hc Hq|].
    destruct (matches exceptions e); [|settles_now H Hc Hq].
    pose proof (call_handler_stats on_error item e st1) as Hh.
    destruct (Pipe.call_handler on_error item e st1) as [[v|e'] st2];
      simpl in Hh; [|settles_now H Hc Hq].
    rewrite Hc in Hh. settles_rec Hrec H r Hh Hq.
Qed.

Lemma pull_settles fuel fs sg st r :
  Pipe.pull fuel fs sg st = Some r -> settles fs sg st r.
Proof.
  apply (pull_invariant settles).
  - intros sg0 st0. unfold settles, balance.
    destruct sg0 as [s pos|]; simpl; [|reflexivity].
    destruct s as [xs|f|id f]; simpl.
    + destruct (xs !! pos); intros _; simpl; [split; [reflexivity|lia]|lia].
    + intros _. split; [reflexivity|lia].
    + destruct (f _); intros _; simpl; [split; [reflexivity|lia]|lia].
  - intros rec Hrec fr0 ups sg0 st0 r0 H.
    destruct (waits fr0) eqn:Hw.
    + rewrite step_frame_waits in H by exact Hw.
      destruct (rec ups sg0 st0) as [[[[sig ups1] sg1] st1]|] eqn:E;
        [|discriminate].
      apply Hrec in E. unfold settles in E.
      destruct sig.
      * pose proof (fun Hq => on_item_settles _ _ _ _ _ _ _ Hrec H Hw Hq)
          as Hi.
        unfold settles, settles_item in *.
        destruct r0 as [[[sig' fs'] sg'] st'].
        intros Hq. simpl in Hq. apply andb_prop in Hq as [Hq1 Hq2].
        destruct (E Hq2) as [Hq3 Hb].
        assert (Hq' : forallb one_to_one (fr0 :: ups1) = true)
          by (simpl; now rewrite Hq1).
        specialize (Hi Hq').
        destruct sig'; [split; [exact (proj1 Hi)|destruct Hi; lia]|lia|exact I].
      * injection H as <-. unfold settles, Pipe.on_stop.
        destruct fr0; try destruct buffer;
          try (intros Hq; discriminate Hq);
          intros Hq; simpl in Hq; exact (E Hq).
      * injection H as <-. exact (fun _ => I).
    + destruct fr0; try discriminate.
      * destruct r0 as [[[? ?] ?] ?]. intros Hq. discriminate Hq.
      * injection H as <-. intros _. reflexivity.
Qed.

(** Through the loop of [run] over such a chain, what [balance] counts and
    what is emitted grow alike. *)
Lemma run_loop_settles fuel sink :
  forall fs sg st out out' st',
    Pipe.run_loop fuel sink fs sg st out = Some (Ok out', st') ->
    forallb one_to_one fs = true ->
    balance st' - emitted (Pipe.stats st')
    = balance st - emitted (Pipe.stats st).
Proof.
  induction fuel as [|fuel IH]; intros fs sg st out out' st' H Hq;
    [discriminate|].
  simpl in H.
  destruct (Pipe.pull fuel fs sg st) as [[[[sig fs1] sg1] st1]|] eqn:E;
    [|discriminate].
  pose proof (pull_advances _ _ _ _ _ E) as [He _]. cbn [snd] in He.
  apply pull_settles in E. specialize (E Hq).
  destruct sig as [item| |e]; cbn beta iota in E;
    [|injection H as <- <-; lia|discriminate].
  destruct E as [Hq1 Hb].
  destruct sink as [f|].
  - pose proof (call_stats f item (Pipe.with_stats Pipe.inc_emitted st1))
      as Hc.
    destruct (Pipe.call f item _) as [[v|e] st3]; cbn [snd] in Hc;
      [|discriminate].
    apply IH in H; [|exact Hq1]. rewrite H.
    unfold balance in *. rewrite Hc. simpl. lia.
  - apply IH in H; [|exact Hq1]. rewrite H.
    unfold balance in *. simpl. lia.
Qed.

Lemma chain_one_to_one (p : Pipe.t U) :
  forallb op_one_to_one (Pipe._ops p) = true ->
  forallb one_to_one (Pipe.chain p) = true.
Proof.
  intros H. unfold Pipe.chain. apply forallb_forall. intros fr Hin.
  apply in_rev, in_map_iff in Hin as (o & <- & Hin).
  rewrite forallb_forall in H. exact (H o Hin).
Qed.

End Ownership.

(* ------------------------------------------------------------------ *)
(** ** Statistics: delivered items against pulled items *)

Section EmittedProcessed.

(** C1, as amended: for every pipeline whose chain has no [flat_map], a run
    that returns a statistics record returns one with
    [emitted <= processed], whatever the other operators are ([batch]
    included). *)
Theorem emitted_le_processed_without_flat_map
    {U : Type} (fuel : nat) (p : Pipe.t U) (sink : option (Pipe.callable U))
    (w w' : world U) (s : RunStats) (out : list value) :
  forallb (fun o => negb (op_is_flat_map o)) (Pipe._ops p) = true ->
  Pipe.run fuel p sink w = Some (Ok (s, out), w') ->
  emitted s <= processed s.
Proof.
  intros Hops Hrun. unfold Pipe.run in Hrun.
  destruct (Pipe.run_loop fuel sink _ _ _ _) as [[[o|e] st]|] eqn:E;
    try discriminate.
  injection Hrun as <- _ _. simpl.
  eapply run_loop_emitted_le; [apply chain_no_flat_map, Hops| |exact E].
  pose proof (credit_nonneg (Pipe.chain p)). simpl.
  assert (Hc : credit (Pipe.chain p) = 0); [|lia].
  unfold Pipe.chain.
  rewrite <- (rev_involutive (Pipe._ops p)), map_rev, rev_involutive.
  induction (rev (Pipe._ops p)) as [|o' os IH]; [reflexivity|].
  simpl. rewrite IH. destruct o'; reflexivity.
Qed.

(** The amended C1 at [pipe(range(7)).filter(even).batch(3).take(1)]. *)
Lemma emitted_le_processed_without_flat_map_witness :
  exists s out w',
    Pipe.run 100 Examples.first_even_group None Examples.w0
    = Some (Ok (s, out), w')
    /\ emitted s <= processed s.
Proof.
  eexists _, _, _. split.
  - vm_compute. reflexivity.
  - eapply (emitted_le_processed_without_flat_map
             100 Examples.first_even_group None Examples.w0).
    + reflexivity.
    + vm_compute. reflexivity.
Defined.

(** C1 as stated fails: [pipe([1]).flat_map(lambda x: [x, x])] returns
    statistics with [processed = 1] and [emitted = 2]. *)
Lemma emitted_le_processed_fails_with_flat_map :
  ~ (forall (fuel : nat) (p : Pipe.t unit) (sink : option (Pipe.callable unit))
            (w w' : world unit) (s : RunStats) (out : list value),
        Pipe.run fuel p sink w = Some (Ok (s, out), w') ->
        emitted s <= processed s).
Proof.
  intros H.
  specialize (H 10%nat
                (Pipe.flat_map (Pipe.pipe (SeqSource [VInt 1])) Examples.twice)
                None Examples.w0).
  vm_compute in H. specialize (H _ _ _ eq_refl). apply H. reflexivity.
Qed.

End EmittedProcessed.

(* ------------------------------------------------------------------ *)
(** ** [take]: how far the input is pulled *)

Section TakePulls.

(** C9: for [n >= 0], every [next()] on the generator of [take(n)] first
    pulls its input once and then looks at the count, so the [next()] that
    follows the [n]-th item pulls one more item before it stops; over a list
    with more than [n] items, and over an unbounded source, the run delivers
    the first [n] items and ends with [processed = n + 1], [emitted = n];
    and [take(0)] over a non-empty list ends with [processed = 1],
    [emitted = 0].  The sink is any sink that does not raise. *)
Theorem take_pulls_one_more {U : Type} (n : Z) :
  0 <= n ->
  (forall (ups : list (Pipe.frame U)) sg st item ups1 sg1 st1 count,
      pulls ups sg st (Pipe.Yield item, ups1, sg1, st1) ->
      pulls (Pipe.FTake n count :: ups) sg st
            (if n <=? count
             then (Pipe.Stop, Pipe.FDone :: ups1, sg1, st1)
             else (Pipe.Yield item, Pipe.FTake n (count + 1) :: ups1, sg1, st1)))
  /\ (forall (xs : list value) sink (w : world U),
        quiet_sink sink ->
        n < Z.of_nat (length xs) ->
        exists s w',
          returns (Pipe.take (Pipe.pipe (SeqSource xs)) n) sink w
                  (Ok (s, firstn (Z.to_nat n) xs), w')
          /\ processed s = n + 1 /\ emitted s = n)
  /\ (forall (f : nat -> value) sink (w : world U),
        quiet_sink sink ->
        exists s w',
          returns (Pipe.take (Pipe.pipe (FnSource f)) n) sink w
                  (Ok (s, List.map f (seq 0 (Z.to_nat n))), w')
          /\ processed s = n + 1 /\ emitted s = n)
  /\ (forall (x : value) (xs : list value) sink (w : world U),
        quiet_sink sink ->
        exists s w',
          returns (Pipe.take (Pipe.pipe (SeqSource (x :: xs))) 0) sink w
                  (Ok (s, []), w')
          /\ processed s = 1 /\ emitted s = 0).
Proof.
  intros Hn. split; [|split; [|split]].
  - intros ups sg st item ups1 sg1 st1 count Hup.
    exact (take_pull n count ups sg st item ups1 sg1 st1 Hup).
  - intros xs sink w Hsink Hlen.
    destruct (take_delivers_list n xs sink w Hn Hsink) as (s & w' & Hr & Hc).
    exists s, w'. split; [exact Hr|]. unfold counts_up in Hc. simpl in Hc. lia.
  - intros f sink w Hsink.
    destruct (take_delivers_fn n f sink w Hn Hsink) as (s & w' & Hr & Hc).
    exists s, w'. split; [exact Hr|]. unfold counts_up in Hc. simpl in Hc. lia.
  - intros x xs sink w Hsink.
    destruct (take_delivers_list 0 (x :: xs) sink w (Z.le_refl 0) Hsink)
      as (s & w' & Hr & Hc).
    exists s, w'. split; [exact Hr|]. unfold counts_up in Hc. simpl in Hc. lia.
Qed.

(** C9 at [pipe([1, 2, 3]).take(0)]. *)
Lemma take_pulls_one_more_witness :
  exists s w',
    returns (Pipe.take (Pipe.pipe (SeqSource (Examples.ints [1; 2; 3]))) 0)
            None Examples.w0 (Ok (s, []), w')
    /\ processed s = 1 /\ emitted s = 0.
Proof.
  destruct (take_pulls_one_more (U := unit) 0) as (_ & H & _ & _); [lia|].
  apply (H (Examples.ints [1; 2; 3]) None Examples.w0); [exact I|simpl; lia].
Defined.

End TakePulls.

(* ------------------------------------------------------------------ *)
(** ** [take]: the pull after the last item *)

Section TakeAfterLimit.

(** C2 at [pipe(itertools.count()).filter(lambda x: x < 2).take(2)]: the
    first two calls of [next()] deliver 0 and 1; the third one pulls the
    filter again, which never answers, so [run] never returns. *)
Theorem take_keeps_pulling_after_limit :
  (exists fs1 sg1 st1 fs2 sg2 st2,
      pulls (Pipe.chain Examples.two_small)
            (Pipe.SrcGen (FnSource Examples.naturals) 0)
            (Pipe.mkState RunStats_new Examples.w0)
            (Pipe.Yield (VInt 0), fs1, sg1, st1)
      /\ pulls fs1 sg1 (Pipe.with_stats Pipe.inc_emitted st1)
               (Pipe.Yield (VInt 1), fs2, sg2, st2)
      /\ forall fuel,
           Pipe.pull fuel fs2 sg2 (Pipe.with_stats Pipe.inc_emitted st2) = None)
  /\ forall fuel, Pipe.run fuel Examples.two_small None Examples.w0 = None.
Proof.
  assert (H1 : pulls (Pipe.chain Examples.two_small)
            (Pipe.SrcGen (FnSource Examples.naturals) 0)
            (Pipe.mkState RunStats_new Examples.w0)
            (Pipe.Yield (VInt 0),
             [Pipe.FTake 2 1; Pipe.FFilter (Examples.less_than 2)],
             Pipe.SrcGen (FnSource Examples.naturals) 1,
             Pipe.mkState (mkStats 1 0 0 0 0 (0 # 1)) Examples.w0)).
  { exists 3%nat. reflexivity. }
  assert (H2 : pulls [Pipe.FTake 2 1; Pipe.FFilter (Examples.less_than 2)]
            (Pipe.SrcGen (FnSource Examples.naturals) 1)
            (Pipe.with_stats Pipe.inc_emitted
               (Pipe.mkState (mkStats 1 0 0 0 0 (0 # 1)) Examples.w0))
            (Pipe.Yield (VInt 1),
             [Pipe.FTake 2 2; Pipe.FFilter (Examples.less_than 2)],
             Pipe.SrcGen (FnSource Examples.naturals) 2,
             Pipe.mkState (mkStats 2 1 0 0 0 (0 # 1)) Examples.w0)).
  { exists 3%nat. reflexivity. }
  split.
  - eexists _, _, _, _, _, _. split; [exact H1|]. split; [exact H2|].
    intros fuel. apply take_over_filter_never_answers. lia.
  - intros fuel. unfold Pipe.run.
    change (Pipe._source Examples.two_small) with (FnSource Examples.naturals).
    destruct fuel as [|fuel]; [reflexivity|]. simpl Pipe.run_loop.
    destruct (Pipe.pull fuel _ _ _) as [r1|] eqn:E1; [|reflexivity].
    rewrite (pulls_functional _ _ _ _ _ (ex_intro _ fuel E1) H1).
    destruct fuel as [|fuel]; [discriminate|]. simpl Pipe.run_loop.
    destruct (Pipe.pull fuel _ _ _) as [r2|] eqn:E2; [|reflexivity].
    rewrite (pulls_functional _ _ _ _ _ (ex_intro _ fuel E2) H2).
    destruct fuel as [|fuel]; [discriminate|]. simpl Pipe.run_loop.
    now rewrite take_over_filter_never_answers by lia.
Qed.

End TakeAfterLimit.

(* ------------------------------------------------------------------ *)
(** ** [batch] *)

Section BatchClaims.

(** C6: for a positive [size] and an [N]-item list, [batch(size)] delivers
    [ceil(N / size)] groups, in input order, each of [size] items except
    possibly a shorter last one, whose concatenation is the input;
    [batches] is [ceil(N / size)]; an empty input gives no group, and
    [size >= N > 0] gives the one group of all items.  The sink is any sink
    that does not raise. *)
Theorem batch_partitions_input {U : Type} (size : Z) (xs : list value)
    (sink : option (Pipe.callable U)) (w : world U) :
  0 < size ->
  quiet_sink sink ->
  exists s groups w',
    returns (Pipe.batch (Pipe.pipe (SeqSource xs)) size) sink w
            (Ok (s, List.map VList groups), w')
    /\ concat groups = xs
    /\ chunked (Z.to_nat size) groups
    /\ Z.of_nat (length groups) = ceil_div (Z.of_nat (length xs)) size
    /\ batches s = ceil_div (Z.of_nat (length xs)) size
    /\ emitted s = ceil_div (Z.of_nat (length xs)) size
    /\ (xs = [] -> groups = [])
    /\ (xs <> [] -> Z.of_nat (length xs) <= size -> groups = [xs]).
Proof.
  intros Hpos Hsink.
  destruct (batch_delivers_groups size xs sink w Hpos Hsink)
    as (s & groups & w' & Hr & Hcat & Hch & Hcnt).
  assert (Hn : Z.of_nat (length groups)
               = ceil_div (Z.of_nat (length xs)) size).
  { rewrite (chunked_count (Z.to_nat size) groups) by (assumption || lia).
    rewrite Hcat. f_equal. lia. }
  exists s, groups, w'. unfold counts_up in Hcnt. simpl in Hcnt.
  repeat split; try assumption; try lia.
  - intros ->. destruct groups as [|g groups]; [reflexivity|].
    pose proof (chunked_nonempty (Z.to_nat size) _ ltac:(lia) Hch) as Hne.
    inversion Hne as [|? ? Hg _]; subst.
    destruct g; [congruence|discriminate].
  - intros Hne Hle.
    assert (H1 : ceil_div (Z.of_nat (length xs)) size = 1).
    { unfold ceil_div. symmetry.
      apply (Z.div_unique _ _ 1 (Z.of_nat (length xs) - 1)); [|lia].
      destruct xs; [congruence|]. simpl length in *. lia. }
    rewrite H1 in Hn.
    destruct groups as [|g [|g' groups]]; simpl in Hn; try lia.
    simpl in Hcat. rewrite app_nil_r in Hcat. now subst.
Qed.

(** C6 at [pipe(range(7)).batch(3)]. *)
Lemma batch_partitions_input_witness :
  exists s groups w',
    returns (Pipe.batch
               (Pipe.pipe (SeqSource (Examples.ints [0; 1; 2; 3; 4; 5; 6]))) 3)
            None Examples.w0 (Ok (s, List.map VList groups), w')
    /\ concat groups = Examples.ints [0; 1; 2; 3; 4; 5; 6]
    /\ chunked 3 groups
    /\ Z.of_nat (length groups) = 3
    /\ batches s = 3.
Proof.
  destruct (batch_partitions_input (U := unit) 3
              (Examples.ints [0; 1; 2; 3; 4; 5; 6]) None Examples.w0)
    as (s & groups & w' & Hr & Hcat & Hch & Hn & Hb & _); [lia|exact I|].
  exists s, groups, w'. repeat split; assumption.
Defined.

(** C10: [batch(size)] with [size <= 0] builds and runs without an error;
    no group is yielded before the input is exhausted: the first [next()]
    pulls the whole non-empty input and yields it as one group, with
    [batches] incremented once; an empty input gives no group and leaves
    [batches] at 0.  The sink is any sink that does not raise. *)
Theorem batch_nonpositive_size_one_group {U : Type} (size : Z)
    (xs : list value) (sink : option (Pipe.callable U)) (w : world U) :
  size <= 0 ->
  quiet_sink sink ->
  (forall (h : gmap nat (PipeObj.obj U)) self p,
      PipeObj.view h self = Some p ->
      appends_one h self p (Pipe.OpBatch size) (PipeObj.batch h self size))
  /\ (forall st : Pipe.state U,
        xs <> [] ->
        exists st',
          pulls [Pipe.FBatch size []] (Pipe.SrcGen (SeqSource xs) 0) st
                (Pipe.Yield (VList xs), [Pipe.FDone], Pipe.SrcDone, st')
          /\ processed (Pipe.stats st')
             = processed (Pipe.stats st) + Z.of_nat (length xs)
          /\ batches (Pipe.stats st') = batches (Pipe.stats st) + 1)
  /\ exists s w',
       returns (Pipe.batch (Pipe.pipe (SeqSource xs)) size) sink w
               (Ok (s, match xs with [] => [] | _ :: _ => [VList xs] end), w')
       /\ processed s = Z.of_nat (length xs)
       /\ emitted s = match xs with [] => 0 | _ :: _ => 1 end
       /\ batches s = match xs with [] => 0 | _ :: _ => 1 end.
Proof.
  intros Hsize Hsink. split; [intros h self p; apply add_op_appends|]. split.
  - intros st Hne.
    destruct (batch_pull_flush size xs [] [] st) as (st1 & Hp & Hcnt & _).
    { simpl. lia. }
    simpl in Hp. destruct xs as [|x xs]; [congruence|].
    eexists. split; [exact Hp|].
    unfold counts_up in Hcnt. simpl in *. lia.
  - destruct (batch_delivers_whole size xs sink w) as (s & w' & Hr & Hcnt);
      [lia|exact Hsink|].
    exists s, w'. split; [exact Hr|].
    unfold counts_up in Hcnt. simpl in Hcnt. lia.
Qed.

(** C10 at [pipe([1, 2, 3]).batch(0)]. *)
Lemma batch_nonpositive_size_one_group_witness :
  exists s w',
    returns (Pipe.batch (Pipe.pipe (SeqSource (Examples.ints [1; 2; 3]))) 0)
            None Examples.w0
            (Ok (s, [VList (Examples.ints [1; 2; 3])]), w')
    /\ processed s = 3 /\ emitted s = 1 /\ batches s = 1.
Proof.
  destruct (batch_nonpositive_size_one_group (U := unit) 0
              (Examples.ints [1; 2; 3]) None Examples.w0)
    as (_ & _ & H); [lia|exact I|].
  exact H.
Defined.

(** C3, as amended: a non-positive [size] is not rejected: [batch(size)]
    returns a builder, and the run over a list, with a sink that does not
    raise, returns its statistics; it raises for no amount of fuel. *)
Theorem batch_size_is_not_validated {U : Type} (size : Z) (xs : list value)
    (sink : option (Pipe.callable U)) (w : world U) :
  size <= 0 ->
  quiet_sink sink ->
  (forall (h : gmap nat (PipeObj.obj U)) self p,
      PipeObj.view h self = Some p ->
      exists new h', PipeObj.batch h self size = Some (new, h'))
  /\ (exists s out w',
      returns (Pipe.batch (Pipe.pipe (SeqSource xs)) size) sink w
              (Ok (s, out), w'))
  /\ forall fuel e w',
       Pipe.run fuel (Pipe.batch (Pipe.pipe (SeqSource xs)) size) sink w
       <> Some (Raise e, w').
Proof.
  intros Hsize Hsink.
  destruct (batch_delivers_whole size xs sink w) as (s & w1 & Hr & _);
    [lia|exact Hsink|].
  split.
  { intros h self p Hv.
    destruct (add_op_appends h self p (Pipe.OpBatch size) Hv)
      as (new & h' & E & _).
    exists new, h'. exact E. }
  split; [exists s; eexists; exists w1; exact Hr|].
  intros fuel e w' H.
  pose proof (returns_functional _ _ _ _ _ Hr (ex_intro _ fuel H)).
  discriminate.
Qed.

(** The amended C3 at [pipe([1, 2, 3]).batch(-1)]. *)
Lemma batch_size_is_not_validated_witness :
  exists s out w',
    returns (Pipe.batch (Pipe.pipe (SeqSource (Examples.ints [1; 2; 3]))) (-1))
            None Examples.w0 (Ok (s, out), w').
Proof.
  destruct (batch_size_is_not_validated (U := unit) (-1)
              (Examples.ints [1; 2; 3]) None Examples.w0) as (_ & H & _);
    [lia|exact I|].
  exact H.
Defined.

(** C3 as stated fails: [pipe([1, 2, 3]).batch(0).run()] does not fail; it
    returns statistics and delivers [[1, 2, 3]]. *)
Lemma nonpositive_batch_size_is_not_rejected :
  ~ (forall (size : Z) (xs : list value) (fuel : nat)
            (res : result (RunStats * list value) * world unit),
        size <= 0 ->
        Pipe.run fuel (Pipe.batch (Pipe.pipe (SeqSource xs)) size) None
                 Examples.w0 = Some res ->
        exists e w', res = (Raise e, w')).
Proof.
  intros H.
  destruct (H 0 (Examples.ints [1; 2; 3]) 10%nat _ ltac:(lia) eq_refl)
    as (e & w' & E).
  vm_compute in E. discriminate.
Qed.

End BatchClaims.

(* ------------------------------------------------------------------ *)
(** ** [dedupe] *)

Section DedupeClaims.

(** C4: without [max_size], [dedupe] delivers exactly the first occurrence
    of every key, in input order, and counts every other item in
    [dropped] ([3, 1, 2, 1, 3] gives [3, 1, 2] and [dropped = 2]); with
    [max_size = k] it remembers the [k] most recently inserted keys only, so
    a key that left the window is delivered again ([1, 2, 3, 1] with
    [max_size = 2] gives [1, 2, 3, 1]).  Keys are hashable, the key function
    has no side effect, and the sink is any sink that does not raise. *)
Theorem dedupe_first_occurrences_and_window {U : Type} :
  (forall (key : option (Pipe.callable U)) kf (xs : list value) sink
          (w : world U),
      key_value_of key kf ->
      Forall (fun x => hashable (kf x) = true) xs ->
      quiet_sink sink ->
      exists s w',
        returns (Pipe.dedupe (Pipe.pipe (SeqSource xs)) key None) sink w
                (Ok (s, first_occurrences kf xs), w')
        /\ processed s = Z.of_nat (length xs)
        /\ emitted s = Z.of_nat (length (first_occurrences kf xs))
        /\ dropped s = Z.of_nat (length xs)
                       - Z.of_nat (length (first_occurrences kf xs)))
  /\ (forall sink (w : world U),
        quiet_sink sink ->
        exists s w',
          returns (Pipe.dedupe
                     (Pipe.pipe (SeqSource (Examples.ints [3; 1; 2; 1; 3])))
                     None None) sink w
                  (Ok (s, Examples.ints [3; 1; 2]), w')
          /\ dropped s = 2)
  /\ (forall (key : option (Pipe.callable U)) kf (k : Z) (xs : list value)
             sink (w : world U),
        key_value_of key kf ->
        Forall (fun x => hashable (kf x) = true) xs ->
        quiet_sink sink ->
        exists s w',
          returns (Pipe.dedupe (Pipe.pipe (SeqSource xs)) key (Some k)) sink w
                  (Ok (s, dedupe_window kf (Z.to_nat k) [] xs), w')
          /\ dropped s = Z.of_nat (length xs)
                         - Z.of_nat (length (dedupe_window kf (Z.to_nat k) [] xs)))
  /\ (forall sink (w : world U),
        quiet_sink sink ->
        exists s w',
          returns (Pipe.dedupe
                     (Pipe.pipe (SeqSource (Examples.ints [1; 2; 3; 1])))
                     None (Some 2)) sink w
                  (Ok (s, Examples.ints [1; 2; 3; 1]), w')
          /\ dropped s = 0).
Proof.
  assert (Hall : forall (key : option (Pipe.callable U)) kf (xs : list value)
                        sink (w : world U),
      key_value_of key kf ->
      Forall (fun x => hashable (kf x) = true) xs ->
      quiet_sink sink ->
      exists s w',
        returns (Pipe.dedupe (Pipe.pipe (SeqSource xs)) key None) sink w
                (Ok (s, first_occurrences kf xs), w')
        /\ processed s = Z.of_nat (length xs)
        /\ emitted s = Z.of_nat (length (first_occurrences kf xs))
        /\ dropped s = Z.of_nat (length xs)
                       - Z.of_nat (length (first_occurrences kf xs))).
  { intros key kf xs sink w Hkey Hhash Hsink.
    destruct (dedupe_delivers key kf None xs sink w Hkey Hhash Hsink)
      as (s & w' & Hr & Hcnt).
    rewrite (dedupe_list_first_occurrences kf xs [] []) in Hr, Hcnt
      by (intros k; reflexivity).
    exists s, w'. split; [exact Hr|].
    unfold counts_up in Hcnt. unfold first_occurrences. simpl in Hcnt. lia. }
  assert (Hwin : forall (key : option (Pipe.callable U)) kf (k : Z)
                        (xs : list value) sink (w : world U),
      key_value_of key kf ->
      Forall (fun x => hashable (kf x) = true) xs ->
      quiet_sink sink ->
      exists s w',
        returns (Pipe.dedupe (Pipe.pipe (SeqSource xs)) key (Some k)) sink w
                (Ok (s, dedupe_window kf (Z.to_nat k) [] xs), w')
        /\ dropped s = Z.of_nat (length xs)
                       - Z.of_nat (length (dedupe_window kf (Z.to_nat k) [] xs))).
  { intros key kf k xs sink w Hkey Hhash Hsink.
    destruct (dedupe_delivers key kf (Some k) xs sink w Hkey Hhash Hsink)
      as (s & w' & Hr & Hcnt).
    rewrite (dedupe_list_window kf k xs []) in Hr, Hcnt by (simpl; lia).
    exists s, w'. split; [exact Hr|].
    unfold counts_up in Hcnt. simpl in Hcnt. lia. }
  split; [exact Hall|]. split; [|split; [exact Hwin|]].
  - intros sink w Hsink.
    destruct (Hall None (fun v => v) (Examples.ints [3; 1; 2; 1; 3]) sink w)
      as (s & w' & Hr & _ & _ & Hd).
    + intros item. reflexivity.
    + repeat constructor.
    + exact Hsink.
    + exists s, w'. split; [exact Hr|exact Hd].
  - intros sink w Hsink.
    destruct (Hwin None (fun v => v) 2 (Examples.ints [1; 2; 3; 1]) sink w)
      as (s & w' & Hr & Hd).
    + intros item. reflexivity.
    + repeat constructor.
    + exact Hsink.
    + exists s, w'. split; [exact Hr|exact Hd].
Qed.

End DedupeClaims.

(* ------------------------------------------------------------------ *)
(** ** [retry_map] *)

Section RetryClaims.

(** C5: [p.retry_map(fn, retries, backoff, exceptions).run(sink)] over a
    list, for [retries >= 0], waits that [time.sleep] accepts and a sink
    that does not raise; [fn] is any callable, and the record kept beside
    it lists its calls.  The run handles the items in order, one round of
    calls of [fn] for each: every call of a round is on the item of the
    round, and a round has at most [retries + 1] calls.  The failures
    that match [exceptions] are each counted once in [errors].  A success
    ends the round: its result is delivered, and the run goes on with the
    next item; when every item succeeds the run returns.  A failure that
    does not match is raised out of [run] at once; and when all
    [retries + 1] attempts of a round fail with a matching exception, the
    last one is raised out of [run]. *)
Theorem retry_map_attempts {U : Type} (fn : Pipe.callable U) (retries : Z)
    (backoff : Q) (excs : list exc_class) (xs : list value)
    (sink : option (Pipe.callable U))
    (w : world (U * list (value * result value))) :
  0 <= retries ->
  backoff_in_range backoff retries = true ->
  quiet_sink sink ->
  exists fuel res w' rounds,
    Pipe.run fuel
      (Pipe.retry_map (Pipe.pipe (SeqSource xs)) (traced fn) retries backoff
                      excs)
      (option_map beside sink) w
    = Some (res, w')
    /\ List.map r_item rounds = firstn (length rounds) xs
    /\ snd (user w') = snd (user w) ++ concat (List.map round_calls rounds)
    /\ Forall (fun r => Z.of_nat (length (round_calls r)) <= retries + 1)
              rounds
    /\ Forall (round_ok retries excs) rounds
    /\ match res with
       | Ok (s, out) =>
           List.map r_end rounds = List.map (fun v => Some (Ok v)) out
           /\ length rounds = length xs
           /\ processed s = Z.of_nat (length xs)
           /\ emitted s = Z.of_nat (length xs)
           /\ errors s
              = Z.of_nat (length (concat (List.map r_fails rounds)))
       | Raise e =>
           exists before r,
             rounds = before ++ [r]
             /\ Forall (fun r' => exists v, r_end r' = Some (Ok v)) before
             /\ round_raises r e
       end.
Proof.
  intros Hr _ Hsink.
  destruct (retry_rounds fn retries backoff excs sink xs Hr Hsink []
              (Pipe.mkState RunStats_new w) [])
    as (res & st' & rounds & Hrun & Hok & Hitems & Htrace & Hres).
  assert (Hcalls : Forall (fun r => Z.of_nat (length (round_calls r))
                                    <= retries + 1) rounds).
  { eapply Forall_impl; [exact Hok|].
    intros r [_ Hend]. unfold round_calls.
    rewrite length_app, length_map.
    destruct (r_end r) as [[v|e]|]; simpl length; [lia|destruct Hend; lia|lia]. }
  cbn [app length] in Hrun.
  destruct res as [out|e].
  - apply (returns_ok
             (Pipe.retry_map (Pipe.pipe (SeqSource xs)) (traced fn) retries
                             backoff excs)) in Hrun as [fuel Hrun].
    eexists fuel, _, _, rounds. split; [exact Hrun|].
    split; [exact Hitems|]. split; [exact Htrace|].
    split; [exact Hcalls|]. split; [exact Hok|].
    destruct Hres as (vs & -> & Hends & Hlen & Hp & He & Hx).
    cbn [app Pipe.set_duration processed emitted errors].
    simpl in Hp, He, Hx. repeat split; try assumption; lia.
  - apply (returns_raise
             (Pipe.retry_map (Pipe.pipe (SeqSource xs)) (traced fn) retries
                             backoff excs)) in Hrun as [fuel Hrun].
    eexists fuel, _, _, rounds. split; [exact Hrun|].
    split; [exact Hitems|]. split; [exact Htrace|].
    split; [exact Hcalls|]. split; [exact Hok|]. exact Hres.
Qed.

(** C5 at [pipe([1, 2]).retry_map(flaky, retries=3, backoff=1)] with the
    sink [lambda item: None]: [flaky] fails twice and then returns, so the
    first round has three calls and the second one. *)
Lemma retry_map_attempts_witness :
  exists fuel res w' rounds,
    Pipe.run fuel
      (Pipe.retry_map (Pipe.pipe (SeqSource (Examples.ints [1; 2])))
                      (traced Examples.flaky) 3 (1 # 1)%Q [PyException])
      (option_map beside (Some Examples.discard)) Examples.w_traced
    = Some (res, w')
    /\ List.map r_item rounds
       = firstn (length rounds) (Examples.ints [1; 2])
    /\ snd (user w') = [] ++ concat (List.map round_calls rounds)
    /\ Forall (fun r => Z.of_nat (length (round_calls r)) <= 3 + 1) rounds
    /\ Forall (round_ok 3 [PyException]) rounds
    /\ match res with
       | Ok (s, out) =>
           List.map r_end rounds = List.map (fun v => Some (Ok v)) out
           /\ length rounds = 2%nat
           /\ processed s = 2
           /\ emitted s = 2
           /\ errors s
              = Z.of_nat (length (concat (List.map r_fails rounds)))
       | Raise e =>
           exists before r,
             rounds = before ++ [r]
             /\ Forall (fun r' => exists v, r_end r' = Some (Ok v)) before
             /\ round_raises r e
       end.
Proof.
  apply (retry_map_attempts Examples.flaky 3 (1 # 1)%Q [PyException]
           (Examples.ints [1; 2]) (Some Examples.discard)
           Examples.w_traced).
  - lia.
  - vm_compute. reflexivity.
  - intros v u. eexists _, _. reflexivity.
Defined.

End RetryClaims.

(* ------------------------------------------------------------------ *)
(** ** Running a builder twice *)

Section Determinism.

Lemma lift_pure {V : Type} (f : value -> result value) :
  pure_callable (Examples.lift (V := V) f).
Proof. exists f. reflexivity. Qed.

(** C7: for a builder over a re-iterable source whose operator callables
    are pure, two runs that return have delivered the same items and return
    statistics that agree on every counter ([duration] apart), whatever
    their sinks and the worlds they start in are.  When the sink raises on
    the same items whatever the store is (no sink, a pure sink, a sink that
    never raises such as [result.append]), two runs also end alike, so a
    second run, started in the world the first one left, repeats the
    first. *)
Theorem run_twice_same_output_and_counters {U : Type} (p : Pipe.t U) :
  reiterable (Pipe._source p) = true ->
  Forall pure_op (Pipe._ops p) ->
  (forall sinkA sinkB fuelA fuelB (wA wB wA' wB' : world U) sA sB outA outB,
      Pipe.run fuelA p sinkA wA = Some (Ok (sA, outA), wA') ->
      Pipe.run fuelB p sinkB wB = Some (Ok (sB, outB), wB') ->
      outA = outB
      /\ processed sA = processed sB
      /\ emitted sA = emitted sB
      /\ dropped sA = dropped sB
      /\ batches sA = batches sB
      /\ errors sA = errors sB)
  /\ (forall sink,
        sinks_agree sink sink ->
        (forall fuel (w1 w2 : world U),
            observe (Pipe.run fuel p sink w1) = observe (Pipe.run fuel p sink w2))
        /\ (forall fuel (w w1 : world U) s1 out1,
              Pipe.run fuel p sink w = Some (Ok (s1, out1), w1) ->
              exists s2 w2,
                Pipe.run fuel p sink w1 = Some (Ok (s2, out1), w2)
                /\ processed s2 = processed s1
                /\ emitted s2 = emitted s1
                /\ dropped s2 = dropped s1
                /\ batches s2 = batches s1
                /\ errors s2 = errors s1)).
Proof.
  intros Hsrc Hops. split.
  - intros sinkA sinkB fuelA fuelB wA wB wA' wB' sA sB outA outB HA HB.
    destruct (run_agree p sinkA sinkB fuelA fuelB wA wB wA' wB' sA sB outA outB
                Hsrc Hops HA HB) as [Ho Hc].
    unfold counters in Hc. injection Hc as -> -> -> -> ->.
    repeat split. exact Ho.
  - intros sink Hsink. split.
    + intros fuel w1 w2. apply run_same; assumption.
    + intros fuel w w1 s1 out1 H1.
      pose proof (run_same p sink sink fuel w w1 Hsrc Hops Hsink) as H.
      rewrite H1 in H. simpl in H.
      destruct (Pipe.run fuel p sink w1) as [[[[s2 out2]|e] w2]|];
        try discriminate.
      simpl in H. unfold counters in H. injection H as -> -> -> -> -> ->.
      exists s2, w2. repeat split.
Qed.

(** C7 at [pipe(range(10)).filter(even).map(triple).batch(2)] with the sink
    [result.append]: the second run starts with the three groups in
    [result], delivers the same three groups and returns the same
    counters. *)
Lemma run_twice_same_output_and_counters_witness :
  exists s2 w2,
    Pipe.run 100 Examples.even_tripled_pairs (Some Examples.append)
      (mkWorld [VList (Examples.ints [0; 6]); VList (Examples.ints [12; 18]);
                VList (Examples.ints [24])] (0 # 1)%Q ∅)
    = Some (Ok (s2, [VList (Examples.ints [0; 6]);
                     VList (Examples.ints [12; 18]);
                     VList (Examples.ints [24])]), w2)
    /\ processed s2 = 10 /\ emitted s2 = 3 /\ dropped s2 = 5
    /\ batches s2 = 3 /\ errors s2 = 0.
Proof.
  destruct (run_twice_same_output_and_counters
              (U := list value) Examples.even_tripled_pairs) as [_ H].
  - reflexivity.
  - repeat constructor; apply lift_pure.
  - destruct (H (Some Examples.append)) as [_ H2].
    + apply sinks_agree_never. intros v u. eexists _, _. reflexivity.
    + apply (H2 100%nat Examples.w_list _ (mkStats 10 3 5 3 0 (0 # 1))).
      vm_compute. reflexivity.
Defined.

(** Without re-iterability the second run differs: over an iterator object
    the first run delivers the three items and the second one none. *)
Lemma one_shot_source_second_run_is_empty :
  exists s1 w1 s2 w2,
    Pipe.run 10 Examples.over_iterator None Examples.w0
    = Some (Ok (s1, Examples.ints [1; 2; 3]), w1)
    /\ Pipe.run 10 Examples.over_iterator None w1 = Some (Ok (s2, []), w2)
    /\ processed s1 = 3 /\ processed s2 = 0.
Proof.
  eexists _, _, _, _. split; [vm_compute; reflexivity|].
  split; [vm_compute; reflexivity|]. split; reflexivity.
Qed.

End Determinism.

(* ------------------------------------------------------------------ *)
(** ** Builder methods *)

Section BuilderMethods.

(** C8: every operator method, called on a builder object whose value is
    [p], returns a new builder object with the same source and the
    operators of [p] followed by exactly one more; no object that existed
    is changed, so the original builder still has the value [p] and runs as
    before.  ([rate_limit] divides by [rate], so [rate] is not zero.) *)
Theorem builder_methods_append_one_operator {U : Type}
    (h : gmap nat (PipeObj.obj U)) (self : nat) (p : Pipe.t U) :
  PipeObj.view h self = Some p ->
  (forall fn, appends_one h self p (Pipe.OpMap fn) (PipeObj.map h self fn))
  /\ (forall fn,
        appends_one h self p (Pipe.OpFlatMap fn) (PipeObj.flat_map h self fn))
  /\ (forall fn,
        appends_one h self p (Pipe.OpFilter fn) (PipeObj.filter h self fn))
  /\ (forall fn, appends_one h self p (Pipe.OpTap fn) (PipeObj.tap h self fn))
  /\ (forall size,
        appends_one h self p (Pipe.OpBatch size) (PipeObj.batch h self size))
  /\ (forall rate per,
        ~ Qeq rate (0 # 1) ->
        exists r,
          PipeObj.rate_limit h self rate per = Ok r
          /\ appends_one h self p (Pipe.OpRateLimit (Qdiv per rate)) r)
  /\ (forall key max_size,
        appends_one h self p (Pipe.OpDedupe key max_size)
                    (PipeObj.dedupe h self key max_size))
  /\ (forall fn retries backoff exceptions,
        appends_one h self p (Pipe.OpRetryMap fn retries backoff exceptions)
                    (PipeObj.retry_map h self fn retries backoff exceptions))
  /\ (forall n, appends_one h self p (Pipe.OpTake n) (PipeObj.take h self n))
  /\ (forall fn on_error exceptions,
        appends_one h self p (Pipe.OpCatch fn on_error exceptions)
                    (PipeObj.catch h self fn on_error exceptions)).
Proof.
  intros Hv.
  repeat split; intros; try (apply add_op_appends; exact Hv).
  unfold PipeObj.rate_limit.
  destruct (Qeq_bool rate (0 # 1)) eqn:E.
  - apply Qeq_bool_iff in E. contradiction.
  - eexists. split; [reflexivity|]. apply add_op_appends. exact Hv.
Qed.

(** C8 at [p = pipe([1, 2, 3])] and [p.take(2)]. *)
Lemma builder_methods_append_one_operator_witness :
  appends_one (snd Examples.one_builder) (fst Examples.one_builder)
              (Pipe.pipe (SeqSource (Examples.ints [1; 2; 3]))) (Pipe.OpTake 2)
              (PipeObj.take (snd Examples.one_builder)
                            (fst Examples.one_builder) 2).
Proof.
  destruct (builder_methods_append_one_operator
              (snd Examples.one_builder) (fst Examples.one_builder)
              (Pipe.pipe (SeqSource (Examples.ints [1; 2; 3]))))
    as (_ & _ & _ & _ & _ & _ & _ & _ & H & _).
  - vm_compute. reflexivity.
  - apply H.
Defined.

End BuilderMethods.

(* ------------------------------------------------------------------ *)
(** ** The statistics of a run *)

Section RunStatistics.

(** X1: the statistics a run returns count the items it delivered:
    [emitted] is the number of items handed to the sink, no counter is
    negative, and [duration] is not negative; for every pipeline, source
    and sink. *)
Theorem run_counts_delivered_items {U : Type} (fuel : nat) (p : Pipe.t U)
    (sink : option (Pipe.callable U)) (w w' : world U) (s : RunStats)
    (out : list value) :
  Pipe.run fuel p sink w = Some (Ok (s, out), w') ->
  emitted s = Z.of_nat (length out)
  /\ 0 <= processed s /\ 0 <= dropped s /\ 0 <= batches s /\ 0 <= errors s
  /\ Qle 0 (duration s).
Proof.
  intros Hrun. unfold Pipe.run in Hrun.
  destruct (Pipe.run_loop fuel sink _ _ _ _) as [[[o|e] st]|] eqn:E;
    try discriminate.
  injection Hrun as <- <- _.
  apply run_loop_counts in E
    as (more & -> & He & Hp & Hd & Hb & Hx & Hclock).
  cbn [Pipe.stats Pipe.env Pipe.set_duration emitted processed dropped batches
       errors duration RunStats_new app] in *.
  repeat split; try assumption. lra.
Qed.

(** X1 at [pipe(range(10)).filter(even).map(triple).batch(2)], which
    delivers three groups. *)
Lemma run_counts_delivered_items_witness :
  exists s out w',
    Pipe.run 100 Examples.even_tripled_pairs None Examples.w0
    = Some (Ok (s, out), w')
    /\ emitted s = Z.of_nat (length out)
    /\ 0 <= processed s /\ 0 <= dropped s /\ 0 <= batches s /\ 0 <= errors s
    /\ Qle 0 (duration s).
Proof.
  eexists _, _, _. split.
  - vm_compute. reflexivity.
  - eapply (run_counts_delivered_items
             100 Examples.even_tripled_pairs None Examples.w0).
    vm_compute. reflexivity.
Defined.

(** X2: over a list that no callable and no sink modifies while the run
    iterates it, [processed] never exceeds the length of the list, and a
    run that returns has pulled the whole list unless an operator is
    [take]. *)
Theorem run_consumes_the_list {U : Type} (fuel : nat) (p : Pipe.t U)
    (xs : list value) (sink : option (Pipe.callable U)) (w w' : world U)
    (s : RunStats) (out : list value) :
  Pipe._source p = SeqSource xs ->
  Pipe.run fuel p sink w = Some (Ok (s, out), w') ->
  processed s <= Z.of_nat (length xs)
  /\ (forallb (fun o => negb (op_is_take o)) (Pipe._ops p) = true ->
      processed s = Z.of_nat (length xs)).
Proof.
  intros Hsrc Hrun. unfold Pipe.run in Hrun.
  destruct (Pipe.run_loop fuel sink _ _ _ _) as [[[o|e] st]|] eqn:E;
    try discriminate.
  injection Hrun as <- <- _.
  apply (run_loop_processed xs 0) in E as [Hle Hall].
  - split; [exact Hle|]. intros Hops.
    apply (Hall (chain_no_take p Hops) o eq_refl).
  - rewrite Hsrc. repeat split. simpl. lia.
Qed.

(** X2 at [pipe(range(10)).filter(even).map(triple).batch(2)]. *)
Lemma run_consumes_the_list_witness :
  exists s out w',
    Pipe.run 100 Examples.even_tripled_pairs None Examples.w0
    = Some (Ok (s, out), w')
    /\ processed s <= 10
    /\ processed s = 10.
Proof.
  eexists _, _, _. split.
  - vm_compute. reflexivity.
  - edestruct (run_consumes_the_list
                 100 Examples.even_tripled_pairs
                 (Examples.ints [0; 1; 2; 3; 4; 5; 6; 7; 8; 9]) None
                 Examples.w0) as [Hle Hall].
    + reflexivity.
    + vm_compute. reflexivity.
    + split; [exact Hle|]. apply Hall. reflexivity.
Defined.

(** X3: each counter has its operators: [dropped] stays 0 in a run
    without [filter] and [dedupe], [batches] in a run without [batch], and
    [errors] in a run without [retry_map] and [catch], whatever the other
    operators, the source and the sink are. *)
Theorem counters_have_owners {U : Type} (c : counter) (fuel : nat)
    (p : Pipe.t U) (sink : option (Pipe.callable U)) (w w' : world U)
    (s : RunStats) (out : list value) :
  forallb (fun o => negb (op_owns c o)) (Pipe._ops p) = true ->
  Pipe.run fuel p sink w = Some (Ok (s, out), w') ->
  read c s = 0.
Proof.
  intros Hops Hrun. unfold Pipe.run in Hrun.
  destruct (Pipe.run_loop fuel sink _ _ _ _) as [[[o|e] st]|] eqn:E;
    try discriminate.
  injection Hrun as <- _ _.
  apply (run_loop_untouched c) in E; [|apply chain_nobody_owns, Hops].
  destruct c; exact E.
Qed.

(** X3 at [pipe(range(10)).filter(even).map(triple).batch(2)], which has
    neither [retry_map] nor [catch]. *)
Lemma counters_have_owners_witness :
  exists s out w',
    Pipe.run 100 Examples.even_tripled_pairs None Examples.w0
    = Some (Ok (s, out), w')
    /\ errors s = 0.
Proof.
  eexists _, _, _. split.
  - vm_compute. reflexivity.
  - eapply (counters_have_owners Errors
             100 Examples.even_tripled_pairs None Examples.w0).
    + reflexivity.
    + vm_compute. reflexivity.
Defined.

(** X4: in a pipeline of [map], [filter], [tap], [rate_limit], [dedupe]
    and [catch] only, every item pulled from the source is emitted,
    dropped, or counted as an error:
    [processed = emitted + dropped + errors] when the run returns. *)
Theorem every_item_is_accounted_for {U : Type} (fuel : nat) (p : Pipe.t U)
    (sink : option (Pipe.callable U)) (w w' : world U) (s : RunStats)
    (out : list value) :
  forallb op_one_to_one (Pipe._ops p) = true ->
  Pipe.run fuel p sink w = Some (Ok (s, out), w') ->
  processed s = emitted s + dropped s + errors s.
Proof.
  intros Hops Hrun. unfold Pipe.run in Hrun.
  destruct (Pipe.run_loop fuel sink _ _ _ _) as [[[o|e] st]|] eqn:E;
    try discriminate.
  injection Hrun as <- _ _.
  apply run_loop_settles in E; [|apply chain_one_to_one, Hops].
  unfold balance in E. simpl in E |- *. lia.
Qed.

(** X4 at [pipe([1, 2, 3, 2, 4]).catch(fail_on_2, on_error).filter(x < 35)]:
    two items fail, one is dropped, two are delivered. *)
Lemma every_item_is_accounted_for_witness :
  exists s out w',
    Pipe.run 100 Examples.caught_and_filtered None Examples.w_list
    = Some (Ok (s, out), w')
    /\ processed s = emitted s + dropped s + errors s.
Proof.
  eexists _, _, _. split.
  - vm_compute. reflexivity.
  - eapply (every_item_is_accounted_for
             100 Examples.caught_and_filtered None Examples.w_list).
    + reflexivity.
    + vm_compute. reflexivity.
Defined.

(** X20: when [batch] is the last operator and the only [batch], every
    item a run delivers is a list that is not empty, and [batches] counts
    the delivered items: [batches = emitted]; whatever [size], the
    operators before it, the source and the sink are. *)
Theorem batch_last_delivers_groups {U : Type} (fuel : nat) (p : Pipe.t U)
    (size : Z) (sink : option (Pipe.callable U)) (w w' : world U)
    (s : RunStats) (out : list value) :
  forallb (fun o => negb (op_owns Batches o)) (Pipe._ops p) = true ->
  Pipe.run fuel (Pipe.batch p size) sink w = Some (Ok (s, out), w') ->
  forallb is_group out = true
  /\ batches s = Z.of_nat (length out)
  /\ batches s = emitted s.
Proof.
  intros Hops Hrun.
  destruct (run_returns_loop _ _ _ _ _ _ _ Hrun)
    as (st & Hl & _ & He & _ & Hb & _).
  pose proof (run_loop_counts _ _ _ _ _ _ _ _ Hl) as (more & Hmore & Hem & _).
  apply (run_loop_batch_on_top size) in Hl as (more' & Hmore' & Hgs & Hbs).
  - cbn [app] in Hmore, Hmore'. subst more more'.
    simpl in Hem, Hbs. split; [exact Hgs|]. lia.
  - exists (Pipe.FBatch size []), (Pipe.chain p).
    split; [|split; [right; now exists []|apply chain_nobody_owns, Hops]].
    unfold Pipe.chain, Pipe.batch, Pipe._add_op. cbn [Pipe._ops].
    now rewrite map_app, rev_app_distr.
Qed.

(** X20 at [pipe(range(10)).filter(even).map(triple).batch(2)]. *)
Lemma batch_last_delivers_groups_witness :
  exists s out w',
    Pipe.run 100 Examples.even_tripled_pairs None Examples.w0
    = Some (Ok (s, out), w')
    /\ forallb is_group out = true
    /\ batches s = Z.of_nat (length out)
    /\ batches s = emitted s.
Proof.
  eexists _, _, _. split.
  - vm_compute. reflexivity.
  - eapply (batch_last_delivers_groups
              100 (Pipe.map
                     (Pipe.filter
                        (Pipe.pipe
                           (SeqSource
                              (Examples.ints [0; 1; 2; 3; 4; 5; 6; 7; 8; 9])))
                        Examples.is_even) Examples.triple) 2 None Examples.w0).
    + reflexivity.
    + vm_compute. reflexivity.
Defined.

End RunStatistics.

(* ------------------------------------------------------------------ *)
(** ** Pipelines of pure callables *)

Section PurePipelines.

(** X5: a run ends, and what it delivers is the trace of its chain,
    operator by operator, when the pipeline is over a list, the callables
    of its operators are pure (each returns or raises, as the item alone
    decides, and changes nothing), its waits are durations that
    [time.sleep] accepts, and the sink returns or raises and leaves the
    list as it is.  The sink is called on the items of the trace in order,
    with the store the call before left, until the trace ends (the run
    returns), the sink raises, or the trace ends with an exception (the
    run raises it). *)
Theorem pure_pipeline_delivers_its_trace {U : Type} (p : Pipe.t U)
    (xs : list value) (sink : option (Pipe.callable U)) (w : world U) :
  Pipe._source p = SeqSource xs ->
  Forall pure_op (Pipe._ops p) ->
  forallb op_sleeps_in_range (Pipe._ops p) = true ->
  exists fuel res,
    Pipe.run fuel p sink w = Some res
    /\ delivered res
       = deliver sink (fst (denote (user w) p xs)) (snd (denote (user w) p xs))
                 [] (user w).
Proof.
  intros Hsrc Hops _.
  destruct (returns_deliver (user w) p xs sink w Hsrc Hops)
    as (res & [fuel Hr] & Hd).
  now exists fuel, res.
Qed.

(** X5 at [pipe(range(7)).filter(even).batch(3).take(1)] with the sink
    [result.append]. *)
Lemma pure_pipeline_delivers_its_trace_witness :
  exists fuel res,
    Pipe.run fuel Examples.first_even_group (Some Examples.append)
             Examples.w_list = Some res
    /\ delivered res
       = (Ok [VList (Examples.ints [0; 2; 4])],
          [VList (Examples.ints [0; 2; 4])]).
Proof.
  destruct (pure_pipeline_delivers_its_trace
              (U := list value) Examples.first_even_group
              (Examples.ints [0; 1; 2; 3; 4; 5; 6]) (Some Examples.append)
              Examples.w_list) as (fuel & res & Hr & Hd).
  - reflexivity.
  - repeat constructor. eexists. intros v u. reflexivity.
  - reflexivity.
  - exists fuel, res. split; [exact Hr|]. rewrite Hd. vm_compute. reflexivity.
Defined.



(** X7: [map] stops at the first item on which [fn] raises: the results of
    the items before it are delivered to the sink, in order, and then the
    run raises the exception of [fn]; the items after it are never looked
    at. *)
Theorem map_stops_at_first_failure {U : Type} (fn : Pipe.callable U)
    (pre post : list value) (x : value) (ex : exn)
    (sink : option (Pipe.callable U)) (w : world U) :
  pure_callable fn ->
  Forall (fun v => exists r, answer (user w) fn v = Ok r) pre ->
  answer (user w) fn x = Raise ex ->
  exists fuel res,
    Pipe.run fuel (Pipe.map (Pipe.pipe (SeqSource (pre ++ x :: post))) fn)
             sink w = Some res
    /\ delivered res
       = deliver sink (List.map (value_of (user w) fn) pre) (Some ex) []
                 (user w).
Proof.
  intros Hfn Hpre Hx.
  destruct (returns_deliver (user w)
              (Pipe.map (Pipe.pipe (SeqSource (pre ++ x :: post))) fn)
              (pre ++ x :: post) sink w eq_refl)
    as (res & [fuel Hr] & Hd).
  { constructor; [exact Hfn|constructor]. }
  exists fuel, res. split; [exact Hr|]. rewrite Hd.
  change (denote (user w)
            (Pipe.map (Pipe.pipe (SeqSource (pre ++ x :: post))) fn)
            (pre ++ x :: post))
    with (map_trace (user w) fn (pre ++ x :: post) None).
  now rewrite (map_trace_fails (user w) fn pre post x ex None Hpre Hx).
Qed.

(** X7 at [pipe([1, 2, 3]).map(fail_on_2)] with the sink [result.append]:
    [10] is delivered, then [ValueError] is raised. *)
Lemma map_stops_at_first_failure_witness :
  exists fuel res,
    Pipe.run fuel Examples.scaled_but_2 (Some Examples.append) Examples.w_list
    = Some res
    /\ delivered res = (Raise (mkExn ValueError "bad"), [VInt 10]).
Proof.
  destruct (map_stops_at_first_failure
              Examples.fail_on_2 [VInt 1] [VInt 3] (VInt 2)
              (mkExn ValueError "bad") (Some Examples.append)
              Examples.w_list) as (fuel & res & Hr & Hd).
  - eexists. intros v u. reflexivity.
  - repeat constructor. eexists. reflexivity.
  - reflexivity.
  - exists fuel, res. split; [exact Hr|exact Hd].
Defined.



(** X9: [dedupe] with [max_size <= 0] remembers nothing: every key is
    evicted as soon as it is inserted, so every item of the list is
    delivered and none is dropped. *)
Theorem dedupe_without_memory_drops_nothing {U : Type}
    (key : option (Pipe.callable U)) (kf : value -> value) (m : Z)
    (xs : list value) (sink : option (Pipe.callable U)) (w : world U) :
  key_value_of key kf ->
  Forall (fun x => hashable (kf x) = true) xs ->
  quiet_sink sink ->
  m <= 0 ->
  exists fuel s w',
    Pipe.run fuel (Pipe.dedupe (Pipe.pipe (SeqSource xs)) key (Some m)) sink w
    = Some (Ok (s, xs), w')
    /\ processed s = Z.of_nat (length xs)
    /\ emitted s = Z.of_nat (length xs)
    /\ dropped s = 0.
Proof.
  intros Hkey Hhash Hsink Hm.
  destruct (dedupe_delivers key kf (Some m) xs sink w Hkey Hhash Hsink)
    as (s & w' & [fuel Hr] & Hp & He & Hd & _).
  rewrite (dedupe_list_forgets kf m xs Hm) in Hr, He, Hd.
  exists fuel, s, w'. split; [exact Hr|]. simpl in Hp, He, Hd.
  repeat split; lia.
Qed.

(** X9 at [pipe([1, 1, 2, 1]).dedupe(max_size=0)]. *)
Lemma dedupe_without_memory_drops_nothing_witness :
  exists fuel s w',
    Pipe.run fuel
      (Pipe.dedupe (Pipe.pipe (SeqSource (Examples.ints [1; 1; 2; 1]))) None
                   (Some 0)) None Examples.w0
    = Some (Ok (s, Examples.ints [1; 1; 2; 1]), w')
    /\ processed s = 4 /\ emitted s = 4 /\ dropped s = 0.
Proof.
  apply (dedupe_without_memory_drops_nothing
           (U := unit) None (fun v => v) 0 (Examples.ints [1; 1; 2; 1]) None
           Examples.w0).
  - intros item. reflexivity.
  - repeat constructor.
  - exact I.
  - lia.
Defined.

(** X10: [dedupe] without a key function cannot follow [batch]: a group is
    a list, which is not hashable, so over a list that is not empty the
    run raises [TypeError] at the first group, whatever [size] and
    [max_size] are, and the sink is never called. *)
Theorem dedupe_after_batch_raises {U : Type} (size : Z) (max_size : option Z)
    (xs : list value) (sink : option (Pipe.callable U)) (w : world U) :
  xs <> [] ->
  exists fuel w',
    Pipe.run fuel
      (Pipe.dedupe (Pipe.batch (Pipe.pipe (SeqSource xs)) size) None max_size)
      sink w
    = Some (Raise (mkExn TypeError "unhashable type"), w')
    /\ user w' = user w.
Proof.
  intros Hxs.
  destruct (returns_deliver (user w)
              (Pipe.dedupe (Pipe.batch (Pipe.pipe (SeqSource xs)) size) None
                           max_size) xs sink w eq_refl)
    as (res & [fuel Hr] & Hd).
  { now repeat constructor. }
  change (denote (user w)
            (Pipe.dedupe (Pipe.batch (Pipe.pipe (SeqSource xs)) size) None
                         max_size) xs)
    with (frame_trace (user w) (Pipe.FDedupe None max_size [])
            (batch_trace size [] xs None)) in Hd.
  destruct (batch_trace_first size xs [] Hxs) as (g & rest & Hb).
  rewrite Hb in Hd. cbn in Hd.
  destruct res as [[[s out]|e] w']; unfold delivered in Hd; cbn [fst snd] in Hd;
    [discriminate|].
  injection Hd as -> Hu. now exists fuel, w'.
Qed.

(** X10 at [pipe([1, 2, 3]).batch(2).dedupe()]. *)
Lemma dedupe_after_batch_raises_witness :
  exists fuel w',
    Pipe.run fuel
      (Pipe.dedupe
         (Pipe.batch (Pipe.pipe (SeqSource (Examples.ints [1; 2; 3]))) 2)
         None None) (Some Examples.append) Examples.w_list
    = Some (Raise (mkExn TypeError "unhashable type"), w')
    /\ user w' = [].
Proof.
  apply (dedupe_after_batch_raises
           2 None (Examples.ints [1; 2; 3]) (Some Examples.append)
           Examples.w_list).
  discriminate.
Defined.



End PurePipelines.

(* ------------------------------------------------------------------ *)
(** ** Callables with side effects *)

Section SideEffects.

(** X12: in a pipeline of [map], [filter], [tap], [rate_limit] and [catch]
    over a list, items flow one at a time: each item goes through every
    operator in registration order and, if it comes out, to the sink,
    before the next item is taken from the list.  The callables and the
    sink may change the store, but not the list that the run iterates;
    each of their calls returns or raises; and the waits of [rate_limit]
    are durations that [time.sleep] accepts.  Then the run ends; it
    raises the first exception that escapes an operator or the sink. *)
Theorem items_flow_one_at_a_time {U : Type} (p : Pipe.t U) (xs : list value)
    (sink : option (Pipe.callable U)) (w : world U) :
  Pipe._source p = SeqSource xs ->
  forallb op_itemwise (Pipe._ops p) = true ->
  forallb op_sleeps_in_range (Pipe._ops p) = true ->
  exists fuel res,
    Pipe.run fuel p sink w = Some res
    /\ delivered res = stream (Pipe.chain p) sink xs (user w) [].
Proof.
  intros Hsrc Hops _.
  destruct (runs_stream xs sink (length xs) (Pipe.chain p) 0
              (Pipe.mkState RunStats_new w) [] eq_refl
              (chain_itemwise p Hops)) as (st' & Hr & Hu).
  cbn [Pipe.env] in Hr, Hu. rewrite drop_0 in Hr, Hu. rewrite <- Hsrc in Hr.
  destruct (stream (Pipe.chain p) sink xs (user w) []) as [[out|e] u'];
    cbn [fst snd] in Hr, Hu.
  - apply returns_ok in Hr as [fuel Hr]. eexists fuel, _.
    split; [exact Hr|]. unfold delivered. cbn [fst snd]. now rewrite Hu.
  - apply returns_raise in Hr as [fuel Hr]. eexists fuel, _.
    split; [exact Hr|]. unfold delivered. cbn [fst snd]. now rewrite Hu.
Qed.

(** X12 at [pipe([1, 2, 3]).tap(seen.append).map(lambda x: x * 10)] with
    the sink [seen.append]: the list records each item and then its
    result. *)
Lemma items_flow_one_at_a_time_witness :
  exists fuel res,
    Pipe.run fuel Examples.tapped_then_scaled (Some Examples.append)
             Examples.w_list = Some res
    /\ delivered res
       = (Ok (Examples.ints [10; 20; 30]),
          Examples.ints [1; 10; 2; 20; 3; 30]).
Proof.
  destruct (items_flow_one_at_a_time
              Examples.tapped_then_scaled (Examples.ints [1; 2; 3])
              (Some Examples.append) Examples.w_list)
    as (fuel & res & Hr & Hd).
  - reflexivity.
  - reflexivity.
  - reflexivity.
  - exists fuel, res. split; [exact Hr|]. rewrite Hd. vm_compute. reflexivity.
Defined.

(** X13: [retry_map] with [retries < 0] makes no attempt: at the first item
    the loop over [range(retries + 1)] is empty, [raise last_exc] raises
    [TypeError] for want of an exception, and [fn] and the sink are never
    called, so the world is as before. *)
Theorem retry_map_without_attempts_raises {U : Type} (fn : Pipe.callable U)
    (retries : Z) (backoff : Q) (exceptions : list exc_class)
    (x : value) (xs : list value) (sink : option (Pipe.callable U))
    (w : world U) :
  retries < 0 ->
  exists fuel,
    Pipe.run fuel
      (Pipe.retry_map (Pipe.pipe (SeqSource (x :: xs))) fn retries backoff
                      exceptions) sink w
    = Some (Raise (mkExn TypeError "exceptions must derive from BaseException"),
            w).
Proof.
  intros Hr.
  assert (Hp : pulls [Pipe.FRetryMap fn retries backoff exceptions]
                 (Pipe.SrcGen (SeqSource (x :: xs)) 0)
                 (Pipe.mkState RunStats_new w)
                 (Pipe.Throw (Pipe.py_raise None), [Pipe.FDone],
                  Pipe.SrcGen (SeqSource (x :: xs)) 1,
                  Pipe.with_stats Pipe.inc_processed
                    (Pipe.mkState RunStats_new w))).
  { eapply on_yield_now; [reflexivity|apply (pulls_list_next [] xs x)|].
    intros rec. cbn [Pipe.on_item].
    replace (Z.to_nat (retries + 1)) with 0%nat by lia. reflexivity. }
  apply (runs_throw sink _ _ _ []) in Hp.
  apply (returns_raise
           (Pipe.retry_map (Pipe.pipe (SeqSource (x :: xs))) fn retries
                           backoff exceptions)) in Hp.
  exact Hp.
Qed.

(** X13 at [pipe([1]).retry_map(triple, retries=-1)]. *)
Lemma retry_map_without_attempts_raises_witness :
  exists fuel,
    Pipe.run fuel
      (Pipe.retry_map (Pipe.pipe (SeqSource [VInt 1])) Examples.triple (-1)
                      (1 # 1)%Q [PyException]) None Examples.w0
    = Some (Raise (mkExn TypeError "exceptions must derive from BaseException"),
            Examples.w0).
Proof.
  apply (retry_map_without_attempts_raises
           (U := unit) Examples.triple (-1) (1 # 1)%Q [PyException] (VInt 1) []
           None Examples.w0).
  lia.
Defined.



End SideEffects.

(* ------------------------------------------------------------------ *)
(** ** Time *)

Section Time.

(** X15: when every attempt of [fn] on the first item fails with an
    exception of [exceptions], and the waits are durations that
    [time.sleep] accepts ([backoff <= 0], or [retries <= 1024] and
    [backoff * 2 ** (retries - 1) <= sleep_max]), [retry_map] with
    [retries >= 0] raises after [retries + 1] attempts, and the durations
    it has passed to [time.sleep] add up to [backoff * (2 ** retries - 1)]:
    [backoff * 2 ** i] after each attempt [i] but the last (a float times
    a power of two, which is exact in this range); with [backoff <= 0]
    there is no wait. *)
Theorem retry_map_backs_off_exponentially {U : Type} (fn : Pipe.callable U)
    (retries : Z) (backoff : Q) (exceptions : list exc_class)
    (x : value) (xs : list value) (sink : option (Pipe.callable U))
    (w : world U) :
  keeps_failing fn exceptions x ->
  0 <= retries ->
  backoff_in_range backoff retries = true ->
  exists fuel e w',
    Pipe.run fuel
      (Pipe.retry_map (Pipe.pipe (SeqSource (x :: xs))) fn retries backoff
                      exceptions) sink w
    = Some (Raise e, w')
    /\ matches exceptions e = true
    /\ Qeq (clock w') (clock w + backoff_total backoff retries 0).
Proof.
  intros Hfail Hr _.
  pose (st1 := Pipe.with_stats Pipe.inc_processed (Pipe.mkState RunStats_new w)).
  destruct (retry_loop_backoff fn retries backoff exceptions x
              (Z.to_nat retries) Hfail 0 None st1 ltac:(lia) ltac:(lia))
    as ((e & He & Hm) & _ & Hclock).
  replace (S (Z.to_nat retries)) with (Z.to_nat (retries + 1)) in He, Hclock
    by lia.
  destruct (Pipe.retry_loop fn retries backoff exceptions x
              (Z.to_nat (retries + 1)) 0 None st1) as [sig st2] eqn:El.
  cbn [fst snd] in He, Hclock. subst sig.
  assert (Hp : pulls [Pipe.FRetryMap fn retries backoff exceptions]
                 (Pipe.SrcGen (SeqSource (x :: xs)) 0)
                 (Pipe.mkState RunStats_new w)
                 (Pipe.Throw e, [Pipe.FDone],
                  Pipe.SrcGen (SeqSource (x :: xs)) 1, st2)).
  { eapply on_yield_now; [reflexivity|apply (pulls_list_next [] xs x)|].
    intros rec. cbn [Pipe.on_item]. fold st1. now rewrite El. }
  apply (runs_throw sink _ _ _ []) in Hp.
  apply (returns_raise
           (Pipe.retry_map (Pipe.pipe (SeqSource (x :: xs))) fn retries
                           backoff exceptions)) in Hp as [fuel Hp].
  exists fuel, e, (Pipe.env st2). split; [exact Hp|]. split; [exact Hm|].
  exact Hclock.
Qed.

(** X15 at [pipe([1]).retry_map(always_raise, retries=3, backoff=1)]: four
    attempts, and waits of 1, 2 and 4. *)
Lemma retry_map_backs_off_exponentially_witness :
  exists fuel e w',
    Pipe.run fuel
      (Pipe.retry_map (Pipe.pipe (SeqSource [VInt 1]))
                      (Examples.always_raise ValueError "no") 3 (1 # 1)%Q
                      [PyException]) None Examples.w0
    = Some (Raise e, w')
    /\ matches [PyException] e = true
    /\ Qeq (clock w') (0 + (1 # 1) * (inject_Z 8 - inject_Z 1)).
Proof.
  apply (retry_map_backs_off_exponentially
           (U := unit) (Examples.always_raise ValueError "no") 3 (1 # 1)%Q
           [PyException] (VInt 1) [] None Examples.w0).
  - intros u. eexists _, _. split; reflexivity.
  - lia.
  - vm_compute. reflexivity.
Defined.

End Time.

(* ------------------------------------------------------------------ *)
(** ** Builder objects *)

Section Builders.

(** X16: [pipe(iterable)] makes a new builder object with a new, empty
    list of operators of its own: both are at addresses that were not in
    use, the value of the builder is the source without operators, and no
    object that existed is changed. *)
Theorem pipe_makes_a_fresh_builder {U : Type}
    (h : gmap nat (PipeObj.obj U)) (iterable : source) :
  let (new, h') := PipeObj.pipe h iterable in
  h !! new = None
  /\ PipeObj.view h' new = Some (Pipe.pipe iterable)
  /\ (forall a x, h !! a = Some x -> h' !! a = Some x)
  /\ exists l,
       h' !! new = Some (PipeObj.OPipe iterable l)
       /\ h !! l = None /\ l <> new
       /\ h' !! l = Some (PipeObj.OList []).
Proof.
  unfold PipeObj.pipe, PipeObj.__init__, PipeObj.alloc.
  set (l := fresh (dom h)).
  set (h1 := <[l := PipeObj.OList []]> h).
  set (new := fresh (dom h1)).
  assert (Hl : h !! l = None) by apply not_elem_of_dom, is_fresh.
  assert (Hnew1 : h1 !! new = None) by apply not_elem_of_dom, is_fresh.
  assert (Hne : new <> l).
  { intros E. rewrite E in Hnew1. subst h1.
    rewrite lookup_insert_eq in Hnew1. discriminate. }
  assert (Hnew : h !! new = None).
  { subst h1. rewrite lookup_insert_ne in Hnew1 by congruence. exact Hnew1. }
  assert (Hlist : <[new := PipeObj.OPipe iterable l]> h1 !! l
                  = Some (PipeObj.OList [])).
  { rewrite lookup_insert_ne by exact Hne. subst h1.
    apply lookup_insert_eq. }
  split; [exact Hnew|]. split; [|split].
  - unfold PipeObj.view. rewrite lookup_insert_eq. now rewrite Hlist.
  - intros a x Ha.
    rewrite lookup_insert_ne by (intros ->; congruence).
    subst h1. rewrite lookup_insert_ne by (intros ->; congruence).
    exact Ha.
  - exists l. split; [apply lookup_insert_eq|].
    split; [exact Hl|]. split; [congruence|exact Hlist].
Qed.

(** X17: a chain of method calls [p.m1(...).m2(...)...] on a builder with
    the value [p] gives a builder with the same source and the operators
    of [p] followed by the operators of the calls, in the order of the
    calls; the builders that existed, [p] among them, keep their
    values. *)
Theorem method_chain_appends_in_order {U : Type} (os : list (Pipe.op U)) :
  forall (h : gmap nat (PipeObj.obj U)) (self : nat) (p : Pipe.t U),
    PipeObj.view h self = Some p ->
    exists new h',
      add_ops h self os = Some (new, h')
      /\ PipeObj.view h' new
         = Some (Pipe.mkPipe (Pipe._source p) (Pipe._ops p ++ os))
      /\ (forall a x, h !! a = Some x -> h' !! a = Some x)
      /\ PipeObj.view h' self = Some p.
Proof.
  induction os as [|o os IH]; intros h self p Hv.
  - exists self, h. split; [reflexivity|]. split; [|auto].
    rewrite app_nil_r. now destruct p.
  - destruct (add_op_appends h self p o Hv)
      as (new & h1 & Hadd & _ & Hnew & Hkeep & _).
    destruct (IH h1 new _ Hnew) as (new' & h' & Hops & Hv' & Hkeep' & _).
    exists new', h'. cbn [add_ops]. rewrite Hadd.
    split; [exact Hops|]. split; [|split; [auto|]].
    + rewrite Hv'. cbn [Pipe._source Pipe._ops]. now rewrite <- app_assoc.
    + unfold PipeObj.view in *.
      destruct (h !! self) as [[|src l]|] eqn:Eself; try discriminate.
      destruct (h !! l) as [[items|]|] eqn:El; try discriminate.
      now rewrite (Hkeep' _ _ (Hkeep _ _ Eself)), (Hkeep' _ _ (Hkeep _ _ El)).
Qed.

(** X17 at [p = pipe([1, 2, 3])] and [p.take(2).batch(1)]. *)
Lemma method_chain_appends_in_order_witness :
  exists new h',
    add_ops (snd Examples.one_builder) (fst Examples.one_builder)
            [Pipe.OpTake 2; Pipe.OpBatch 1] = Some (new, h')
    /\ PipeObj.view h' new
       = Some (Pipe.mkPipe (SeqSource (Examples.ints [1; 2; 3]))
                           [Pipe.OpTake 2; Pipe.OpBatch 1])
    /\ (forall a x,
           snd Examples.one_builder !! a = Some x -> h' !! a = Some x)
    /\ PipeObj.view h' (fst Examples.one_builder)
       = Some (Pipe.pipe (SeqSource (Examples.ints [1; 2; 3]))).
Proof.
  apply (method_chain_appends_in_order
           [Pipe.OpTake 2; Pipe.OpBatch 1]
           (snd Examples.one_builder) (fst Examples.one_builder)
           (Pipe.pipe (SeqSource (Examples.ints [1; 2; 3])))).
  vm_compute. reflexivity.
Defined.

End Builders.

(* ------------------------------------------------------------------ *)
(** ** [catch] *)

Section Catch.

(** X18: [catch(fn, on_error, exceptions)] over a list, for a pure [fn]
    whose exceptions are all among [exceptions] and an [on_error] that
    returns: the run returns; it delivers the results of the items on
    which [fn] returns, in order; [on_error] is called once on each item
    on which [fn] raises, with the exception, in the order of the items;
    and [errors] counts these items, while nothing is dropped. *)
Theorem catch_handles_every_failure {U : Type} (fn : Pipe.callable U)
    (f : value -> result value) (on_error : Pipe.handler U)
    (exceptions : list exc_class) (xs : list value) (w : world U) :
  (forall v u, fn v u = (f v, u)) ->
  (forall v e, f v = Raise e -> matches exceptions e = true) ->
  (forall v e u, exists r u', on_error v e u = (Ok r, u')) ->
  exists fuel s w',
    Pipe.run fuel
      (Pipe.catch (Pipe.pipe (SeqSource xs)) fn on_error exceptions) None w
    = Some (Ok (s, successes f xs), w')
    /\ user w' = handle_all on_error (failures f xs) (user w)
    /\ processed s = Z.of_nat (length xs)
    /\ emitted s = Z.of_nat (length (successes f xs))
    /\ dropped s = 0
    /\ errors s = Z.of_nat (length (failures f xs)).
Proof.
  intros Hfn Hm Hh.
  set (p := Pipe.catch (Pipe.pipe (SeqSource xs)) fn on_error exceptions).
  destruct (runs_stream xs None (length xs) (Pipe.chain p) 0
              (Pipe.mkState RunStats_new w) [] eq_refl eq_refl)
    as (st' & Hr & Hu).
  cbn [Pipe.env] in Hr, Hu. rewrite drop_0 in Hr, Hu.
  change (Pipe.chain p) with [Pipe.FCatch fn on_error exceptions] in Hr, Hu.
  rewrite (stream_catch fn f on_error exceptions xs Hfn Hm Hh) in Hr, Hu.
  cbn [fst snd app] in Hr, Hu.
  apply (returns_ok p) in Hr as [fuel Hr].
  destruct (run_returns_loop _ _ _ _ _ _ _ Hr)
    as (st & Hl & Hp & He & Hd & _ & Hx & _).
  pose proof (run_loop_counts _ _ _ _ _ _ _ _ Hl) as (more & Hmore & Hem & _).
  destruct (run_loop_processed xs 0 _ _ _ _ _ _ _ _ Hl) as [_ Hall];
    [repeat split; simpl; lia|].
  specialize (Hall ltac:(split; [reflexivity|now right]) _ eq_refl).
  pose proof (run_loop_settles _ _ _ _ _ _ _ _ Hl eq_refl) as Hbal.
  pose proof (run_loop_untouched Dropped _ _ _ _ _ _ _ _ Hl eq_refl) as Hdr.
  cbn [app] in Hmore. subst more.
  unfold balance in Hbal. simpl in Hem, Hall, Hbal, Hdr, Hp, He, Hd, Hx.
  eexists fuel, _, _. split; [exact Hr|]. split; [exact Hu|].
  cbn [Pipe.set_duration processed emitted dropped errors].
  assert (Hlen : (length (successes f xs) + length (failures f xs)
                  = length xs)%nat).
  { clear. induction xs as [|x l IH]; [reflexivity|].
    simpl. destruct (f x); simpl; lia. }
  repeat split; lia.
Qed.

(** X18 at [pipe([1, 2, 3]).catch(fail_on_2, lambda item, _e:
    errors.append(item))], as in the tests. *)
Lemma catch_handles_every_failure_witness :
  exists fuel s w',
    Pipe.run fuel
      (Pipe.catch (Pipe.pipe (SeqSource (Examples.ints [1; 2; 3])))
                  Examples.fail_on_2 Examples.append_item [ValueError; TypeError])
      None Examples.w_list
    = Some (Ok (s, Examples.ints [10; 30]), w')
    /\ user w' = [VInt 2]
    /\ processed s = 3 /\ emitted s = 2 /\ dropped s = 0 /\ errors s = 1.
Proof.
  apply (catch_handles_every_failure
           Examples.fail_on_2
           (fun v => match v with
                     | VInt 2 => Raise (mkExn ValueError "bad")
                     | VInt z => Ok (VInt (z * 10))
                     | _ => Raise (mkExn TypeError "unsupported operand type(s)")
                     end)
           Examples.append_item [ValueError; TypeError]
           (Examples.ints [1; 2; 3]) Examples.w_list).
  - intros v u. reflexivity.
  - intros v e H. destruct v as [|z|s|l]; try (injection H as <-; reflexivity).
    destruct z as [|[q|q|]|q]; try discriminate;
      try (injection H as <-; reflexivity).
    destruct q; try discriminate; injection H as <-; reflexivity.
  - intros v e u. eexists _, _. reflexivity.
Defined.

End Catch.

(* ------------------------------------------------------------------ *)
(** ** One-shot sources *)

Section OneShotSources.

(** X19: when the source is an iterator object that only the run
    advances (no callable and no sink calls [next()] on it), [processed]
    counts exactly the items the run has taken from it: a run that returns
    leaves the iterator [processed] items further than it found it, so the
    items that [take] pulls without delivering them are gone for a later
    run. *)
Theorem iterator_is_consumed_as_counted {U : Type} (fuel : nat)
    (p : Pipe.t U) (id : nat) (f : nat -> option value)
    (sink : option (Pipe.callable U)) (w w' : world U) (s : RunStats)
    (out : list value) :
  Pipe._source p = IterSource id f ->
  Pipe.run fuel p sink w = Some (Ok (s, out), w') ->
  Z.of_nat (cursor id w') = Z.of_nat (cursor id w) + processed s.
Proof.
  intros Hsrc Hrun. unfold Pipe.run in Hrun.
  destruct (Pipe.run_loop fuel sink _ _ _ _) as [[[o|e] st]|] eqn:E;
    try discriminate.
  injection Hrun as <- _ <-.
  apply (run_loop_paced id (Z.of_nat (cursor id w))) in E.
  - cbn [Pipe.set_duration processed]. lia.
  - split; [rewrite Hsrc; now exists f|]. simpl. lia.
Qed.

(** X19 at [pipe(iter([1, 2, 3])).take(1)]: one item is delivered and two
    are consumed. *)
Lemma iterator_is_consumed_as_counted_witness :
  exists s w',
    Pipe.run 10 (Pipe.take Examples.over_iterator 1) None Examples.w0
    = Some (Ok (s, [VInt 1]), w')
    /\ Z.of_nat (cursor 0 w') = Z.of_nat (cursor 0 Examples.w0) + processed s
    /\ processed s = 2.
Proof.
  eexists _, _. split; [vm_compute; reflexivity|]. split; [|reflexivity].
  eapply (iterator_is_consumed_as_counted
            10 (Pipe.take Examples.over_iterator 1) 0 _ None Examples.w0).
  - reflexivity.
  - vm_compute. reflexivity.
Defined.

End OneShotSources.
